(** * NFT-Generator: the trait-selection engine of [src/index.js]

    A shallow embedding of the generator's pure core (weight parsing,
    weighted picks, rule tables, fingerprints, the per-token search loop,
    the edition loop, the metadata shuffle and the layout of the preview
    sheet) together with the properties of its specification and further
    properties of the code.

    Conventions.
    - JavaScript numbers are modelled by [jsnum]: NaN, the two infinities
      and the finite binary64 values, kept as rationals.  Every arithmetic
      result is rounded to binary64 (round to nearest, ties to even); the
      sign of zero is not tracked (the code never observes it).
    - JavaScript strings are Rocq strings; only ASCII white space and
      ASCII digits are interpreted.
    - [Math.random] is an explicit stream of draws threaded through the
      code ([Rng]).
    - [localeCompare] follows the collation of the host, a parameter of
      the model ([Collation]).
    - What the engine reads from the file system is an input (an ordered
      directory listing); what it does to the file system is kept as the
      list of its calls, whose effect on a disk, whatever that disk holds
      beforehand, is given by [Fs.run]. *)

From Stdlib Require Import ZArith QArith Qround Lia String Ascii OrdersEx Sorted.
From stdpp Require Import base option list gmap strings pretty.

Open Scope Z_scope.

(** ** JavaScript numbers *)

Module JsNum.

Inductive jsnum : Type :=
| NaN
| Inf (negative : bool)
| Fin (q : Q).

(** floor(log2 (n/d)) for a positive rational. *)
Definition ilog2 (n d : positive) : Z :=
  let e0 := Z.log2 (Zpos n) - Z.log2 (Zpos d) in
  if 0 <=? e0
  then (if Zpos d * 2 ^ e0 <=? Zpos n then e0 else e0 - 1)
  else (if Zpos d <=? Zpos n * 2 ^ (- e0) then e0 else e0 - 1).

(** Exponent of the unit in the last place of the binary64 value nearest
    to n/d: 53 bits of precision, subnormals below 2^-1022. *)
Definition ulp_exp (n d : positive) : Z := Z.max (ilog2 n d - 52) (-1074).

(** Integer nearest to num/den, ties to even. *)
Definition round_half_even (num den : Z) : Z :=
  let q := num / den in
  let r := num mod den in
  if 2 * r <? den then q
  else if den <? 2 * r then q + 1
  else if Z.even q then q else q + 1.

(** The binary64 value nearest to the positive rational n/d, as the pair
    (significand, exponent) of m * 2^ex. *)
Definition round_pos (n d : positive) : Z * Z :=
  let ex := ulp_exp n d in
  let m := if 0 <=? ex
           then round_half_even (Zpos n) (Zpos d * 2 ^ ex)
           else round_half_even (Zpos n * 2 ^ (- ex)) (Zpos d) in
  (m, ex).

Definition dyadic (m ex : Z) : Q :=
  if 0 <=? ex then inject_Z (m * 2 ^ ex) else Qred (m # Z.to_pos (2 ^ (- ex))).

(** m * 2^ex overflows binary64 when it reaches 2^1024. *)
Definition overflows (m ex : Z) : bool :=
  (0 <=? ex) && (2 ^ 1024 <=? m * 2 ^ ex).

(** Rounding of an exact result to binary64. *)
Definition round64 (q : Q) : jsnum :=
  match Qnum q with
  | Z0 => Fin 0
  | Zpos n =>
      let '(m, ex) := round_pos n (Qden q) in
      if overflows m ex then Inf false else Fin (dyadic m ex)
  | Zneg n =>
      let '(m, ex) := round_pos n (Qden q) in
      if overflows m ex then Inf true else Fin (dyadic (- m) ex)
  end.

Definition of_Z (z : Z) : jsnum := round64 (inject_Z z).

Definition neg (a : jsnum) : jsnum :=
  match a with
  | NaN => NaN
  | Inf s => Inf (negb s)
  | Fin q => Fin (Qopp q)
  end.

(** [a + b] *)
Definition add (a b : jsnum) : jsnum :=
  match a, b with
  | NaN, _ | _, NaN => NaN
  | Inf s, Inf t => if Bool.eqb s t then Inf s else NaN
  | Inf s, Fin _ | Fin _, Inf s => Inf s
  | Fin p, Fin q => round64 (p + q)
  end.

(** [a - b] *)
Definition sub (a b : jsnum) : jsnum := add a (neg b).

Definition is_zero (q : Q) : bool := Qnum q =? 0.
Definition is_neg (q : Q) : bool := Qnum q <? 0.

(** [a * b] *)
Definition mul (a b : jsnum) : jsnum :=
  match a, b with
  | NaN, _ | _, NaN => NaN
  | Inf s, Inf t => Inf (xorb s t)
  | Inf s, Fin q | Fin q, Inf s =>
      if is_zero q then NaN else Inf (xorb s (is_neg q))
  | Fin p, Fin q => round64 (p * q)
  end.

(** [a <= 0] *)
Definition le0 (a : jsnum) : bool :=
  match a with
  | NaN => false
  | Inf s => s
  | Fin q => Qnum q <=? 0
  end.

(** [a > 0], as used on the result of a sort comparator. *)
Definition gt0 (a : jsnum) : bool :=
  match a with
  | NaN => false
  | Inf s => negb s
  | Fin q => 0 <? Qnum q
  end.

(** ToBoolean on a number: NaN and zero are falsy. *)
Definition truthy (a : jsnum) : bool :=
  match a with
  | NaN => false
  | Inf _ => true
  | Fin q => negb (is_zero q)
  end.

(** [Math.floor], for the finite values. *)
Definition floor (a : jsnum) : option Z :=
  match a with
  | Fin q => Some (Qfloor q)
  | _ => None
  end.

End JsNum.
Export JsNum.

(** ** JavaScript strings and the [path] module *)

Module JsStr.

Open Scope string_scope.
Open Scope Z_scope.

Definition code (c : ascii) : Z := Z.of_N (N_of_ascii c).

(** White space stripped by [trim] and by the string-to-number conversion
    (ASCII part: TAB, LF, VT, FF, CR, SP). *)
Definition is_ws (c : ascii) : bool :=
  let n := code c in ((9 <=? n) && (n <=? 13)) || (n =? 32).

Definition digit_of (c : ascii) : option Z :=
  let n := code c in
  if (48 <=? n) && (n <=? 57) then Some (n - 48) else None.

Definition is_digit (c : ascii) : bool := bool_decide (is_Some (digit_of c)).

(** Value of a digit in the given radix (2, 8 or 16). *)
Definition radix_digit_of (radix : Z) (c : ascii) : option Z :=
  let n := code c in
  let v := if (48 <=? n) && (n <=? 57) then Some (n - 48)
           else if (97 <=? n) && (n <=? 102) then Some (n - 87)
           else if (65 <=? n) && (n <=? 70) then Some (n - 55)
           else None in
  match v with
  | Some d => if d <? radix then Some d else None
  | None => None
  end.

Fixpoint trim_left (s : string) : string :=
  match s with
  | String c s' => if is_ws c then trim_left s' else s
  | EmptyString => EmptyString
  end.

Fixpoint trim_right (s : string) : string :=
  match s with
  | String c s' =>
      match trim_right s' with
      | EmptyString => if is_ws c then EmptyString else String c EmptyString
      | t => String c t
      end
  | EmptyString => EmptyString
  end.

(** [s.trim()] *)
Definition trim (s : string) : string := trim_right (trim_left s).

(** [s.slice(0, n)] and [s.slice(n)] for 0 <= n. *)
Fixpoint take (n : nat) (s : string) : string :=
  match n, s with
  | S n', String c s' => String c (take n' s')
  | _, _ => EmptyString
  end.

Fixpoint drop (n : nat) (s : string) : string :=
  match n, s with
  | S n', String _ s' => drop n' s'
  | _, _ => s
  end.

(** [s.lastIndexOf(d)]; [None] stands for -1.  The auxiliary function
    scans [s] whose first character sits at index [i]. *)
Fixpoint lastIndexOf_from (i : nat) (d s : string) : option nat :=
  match s with
  | EmptyString => if String.prefix d EmptyString then Some i else None
  | String _ s' =>
      match lastIndexOf_from (S i) d s' with
      | Some j => Some j
      | None => if String.prefix d s then Some i else None
      end
  end.

Definition lastIndexOf (s d : string) : option nat := lastIndexOf_from 0 d s.

(** [s.endsWith(d)] *)
Fixpoint endsWith (s d : string) : bool :=
  String.eqb s d ||
  match s with
  | String _ s' => endsWith s' d
  | EmptyString => false
  end.

(** [s.split(c)] for a one-character separator. *)
Fixpoint split (c : ascii) (s : string) : list string :=
  match s with
  | EmptyString => [EmptyString]
  | String a s' =>
      if Ascii.eqb a c then EmptyString :: split c s'
      else match split c s' with
           | p :: ps => String a p :: ps
           | [] => [String a EmptyString]
           end
  end.

(** [a.join(sep)] on an array of strings. *)
Fixpoint join (sep : string) (l : list string) : string :=
  match l with
  | [] => EmptyString
  | [x] => x
  | x :: l' => x +:+ sep +:+ join sep l'
  end.

(** [s.replace(/_/g, " ")] *)
Fixpoint underscores_to_spaces (s : string) : string :=
  match s with
  | String c s' =>
      String (if Ascii.eqb c "_" then " "%char else c) (underscores_to_spaces s')
  | EmptyString => EmptyString
  end.

(** [s.replace(/^\d+_/, "")]: the regular expression matches one or more
    leading digits followed by an underscore. *)
Fixpoint skip_digits (s : string) : string :=
  match s with
  | String c s' => if is_digit c then skip_digits s' else s
  | EmptyString => EmptyString
  end.

Definition strip_order_prefix (s : string) : string :=
  match s with
  | String c _ =>
      if is_digit c then
        match skip_digits s with
        | String u rest => if Ascii.eqb u "_" then rest else s
        | EmptyString => s
        end
      else s
  | EmptyString => s
  end.

(** Whether the character occurs in the string. *)
Fixpoint has_char (c : ascii) (s : string) : bool :=
  match s with
  | String a s' => Ascii.eqb a c || has_char c s'
  | EmptyString => false
  end.

(** Decimal rendering of an integer inside a template literal. *)
Definition of_Z (z : Z) : string := pretty z.

(** *** [path.parse(p).name] (POSIX flavour) *)

Fixpoint strip_trailing_slashes (s : string) : string :=
  match s with
  | String c s' =>
      match strip_trailing_slashes s' with
      | EmptyString => if Ascii.eqb c "/" then EmptyString else String c EmptyString
      | t => String c t
      end
  | EmptyString => EmptyString
  end.

(** The last path component. *)
Definition basename (p : string) : string :=
  let q := strip_trailing_slashes p in
  match lastIndexOf q "/" with
  | Some i => drop (S i) q
  | None => q
  end.

(** The base name without its extension: the extension starts at the last
    dot, unless that dot is the first character or the base is "..". *)
Definition path_parse_name (p : string) : string :=
  let base := basename p in
  match lastIndexOf base "." with
  | None => base
  | Some O => base
  | Some i => if String.eqb base ".." then base else take i base
  end.

(** The segments of a normalised path, most recent first: empty and "."
    segments vanish, ".." removes the segment before it, or stays when
    there is none and the path is relative. *)
Fixpoint normalize_segments (relative : bool) (acc segs : list string) : list string :=
  match segs with
  | [] => acc
  | seg :: segs' =>
      if String.eqb seg "" || String.eqb seg "." then
        normalize_segments relative acc segs'
      else if String.eqb seg ".." then
        match acc with
        | top :: acc' =>
            if String.eqb top ".."
            then normalize_segments relative (seg :: acc) segs'
            else normalize_segments relative acc' segs'
        | [] =>
            normalize_segments relative (if relative then [seg] else []) segs'
        end
      else normalize_segments relative (seg :: acc) segs'
  end.

(** [path.normalize(p)] *)
Definition path_normalize (p : string) : string :=
  if String.eqb p "" then "."
  else
    let absolute := String.prefix "/" p in
    let trailing := endsWith p "/" in
    let body := join "/" (rev (normalize_segments (negb absolute) [] (split "/" p))) in
    if String.eqb body "" then
      (if absolute then "/" else if trailing then "./" else ".")
    else
      (if absolute then "/" else "") +:+ body +:+ (if trailing then "/" else "").

(** [path.join(a, b)] *)
Definition path_join (a b : string) : string :=
  if String.eqb a "" then path_normalize b
  else if String.eqb b "" then path_normalize a
  else path_normalize (a +:+ "/" +:+ b).

(** [a.localeCompare(b)] compares by the collation of the host's default
    locale, which the program neither chooses nor inspects: the collation
    is a parameter of the model.  It may order strings otherwise than by
    their code units (case, accents) and may return 0 on two different
    strings (canonically equivalent ones). *)
Class Collation : Type := localeCompare : string → string → comparison.

(** The comparison by code units.  The worked runs below use it: on two
    identical names, and on two names of ASCII letters in the same case that
    differ in their first letter, it answers as the collations of the host
    do. *)
Definition code_units : Collation := String_as_OT.compare.

End JsStr.
Export JsStr.

(** ** [Number(s)]: the string-to-number conversion *)

Module JsNumber.

Open Scope string_scope.
Open Scope Z_scope.

(** Reads a run of decimal digits: accumulated value, number of digits
    read, and what follows. *)
Fixpoint take_digits (s : string) (acc cnt : Z) : Z * Z * string :=
  match s with
  | String c s' =>
      match digit_of c with
      | Some d => take_digits s' (10 * acc + d) (cnt + 1)
      | None => (acc, cnt, s)
      end
  | EmptyString => (acc, cnt, s)
  end.

(** Value of a string made of digits of the radix only. *)
Fixpoint radix_value (radix : Z) (s : string) (acc : Z) : option Z :=
  match s with
  | String c s' =>
      match radix_digit_of radix c with
      | Some d => radix_value radix s' (radix * acc + d)
      | None => None
      end
  | EmptyString => Some acc
  end.

Definition split_sign (s : string) : bool * string :=
  match s with
  | String "+" t => (false, t)
  | String "-" t => (true, t)
  | _ => (false, s)
  end.

(** ExponentPart, up to the end of the literal; absent means 0. *)
Definition parse_exponent (s : string) : option Z :=
  match s with
  | EmptyString => Some 0
  | String c s' =>
      if Ascii.eqb c "e" || Ascii.eqb c "E" then
        let '(negative, t) := split_sign s' in
        let '(v, cnt, rest) := take_digits t 0 0 in
        if (0 <? cnt) && String.eqb rest "" then Some (if negative then - v else v)
        else None
      else None
  end.

(** The rational m * 10^e. *)
Definition decimal (m e : Z) : Q :=
  if 0 <=? e then inject_Z (m * 10 ^ e) else m # Z.to_pos (10 ^ (- e)).

(** StrUnsignedDecimalLiteral: Infinity, or digits with an optional
    fraction and an optional exponent; at least one digit is required. *)
Definition parse_unsigned (s : string) : jsnum :=
  if String.eqb s "Infinity" then Inf false
  else
    let '(i, ci, r1) := take_digits s 0 0 in
    let '(m, cf, r2) :=
      match r1 with
      | String "." t => take_digits t i 0
      | _ => (i, 0, r1)
      end in
    if ci + cf =? 0 then NaN
    else match parse_exponent r2 with
         | Some e => round64 (decimal m (e - cf))
         | None => NaN
         end.

(** NonDecimalIntegerLiteral: 0x, 0o, 0b prefixes, no sign. *)
Definition parse_radix (s : string) : option jsnum :=
  match s with
  | String "0" (String c t) =>
      let radix :=
        if Ascii.eqb c "x" || Ascii.eqb c "X" then Some 16
        else if Ascii.eqb c "o" || Ascii.eqb c "O" then Some 8
        else if Ascii.eqb c "b" || Ascii.eqb c "B" then Some 2
        else None in
      match radix with
      | Some r =>
          Some (match t with
                | EmptyString => NaN
                | _ => match radix_value r t 0 with
                       | Some v => JsNum.of_Z v
                       | None => NaN
                       end
                end)
      | None => None
      end
  | _ => None
  end.

(** [Number(s)] *)
Definition Number (s : string) : jsnum :=
  let t := trim s in
  if String.eqb t "" then Fin 0
  else match parse_radix t with
       | Some v => v
       | None =>
           let '(negative, u) := split_sign t in
           let v := parse_unsigned u in
           if negative then neg v else v
       end.

End JsNumber.
Export JsNumber.

Open Scope string_scope.
Open Scope Z_scope.
Open Scope list_scope.

(** ** Sets, maps and sorting as JavaScript has them *)

Module JsSet.
Section JsSet.
Context {A : Type} `{EqDecision A}.

(** A [Set] iterates in insertion order and never holds a value twice. *)
Definition has (s : list A) (x : A) : bool := bool_decide (x ∈ s).

Definition add (s : list A) (x : A) : list A :=
  if has s x then s else s ++ [x].

(** [new Set(array)] *)
Definition of_list (l : list A) : list A := foldl add [] l.
End JsSet.
End JsSet.

Module JsMap.
Section JsMap.
Context {K V : Type} `{EqDecision K}.

(** [m.set(k, v)]: an existing key keeps its position, a new key goes
    last. *)
Fixpoint set (m : list (K * V)) (k : K) (v : V) : list (K * V) :=
  match m with
  | [] => [(k, v)]
  | (k', v') :: m' =>
      if decide (k' = k) then (k, v) :: m' else (k', v') :: set m' k v
  end.

Fixpoint get (m : list (K * V)) (k : K) : option V :=
  match m with
  | [] => None
  | (k', v') :: m' => if decide (k' = k) then Some v' else get m' k
  end.
End JsMap.
End JsMap.

Section Sort.
Context {A : Type}.
(** [after a b] says that the comparator gives a positive number on
    (a, b), so that [b] has to come first. *)
Variable after : A → A → bool.

Fixpoint sort_insert (x : A) (l : list A) : list A :=
  match l with
  | [] => [x]
  | y :: l' => if after x y then y :: sort_insert x l' else x :: l
  end.

(** [array.slice().sort(cmp)]: the sort is stable, and for a consistent
    comparator a stable sort has one possible result. *)
Fixpoint sort (l : list A) : list A :=
  match l with
  | [] => []
  | x :: l' => sort_insert x (sort l')
  end.
End Sort.

(** ** Configuration ([config.js]) *)

(** JSON-like values stored in a metadata record. *)
Inductive JVal : Type :=
| JStr (s : string)
| JNum (z : Z)
| JUndefined
| JAttributes (l : list (string * option string)).

#[global] Instance option_string_eq_dec : EqDecision (option string) := _.

#[global] Instance JVal_eq_dec : EqDecision JVal.
Proof. solve_decision. Defined.

(** An object: its own properties in insertion order. *)
Abbreviation JObject := (list (string * JVal)).

(** [{...a, ...b}]: each property of [b] is written into [a]. *)
Definition spread (a b : JObject) : JObject :=
  foldl (λ o kv, JsMap.set o kv.1 kv.2) a b.

(** ** The file system *)

(** What the program does to the file system is kept as the list of its
    calls, in order; [Fs.run] gives their effect on a disk.  A location is
    the list of the segments of an absolute path.  Links, access rights
    and file systems that fold case are not modelled. *)
Module Fs.

(** The content of a file: an image as the stack of asset files it was
    composed from, a JSON object, a JSON array of objects, or text (any
    other content a disk may hold counts as text). *)
Inductive File : Type :=
| Png (stack : list string)
| Json (o : JObject)
| JsonArray (l : list JObject)
| Text (s : string).

(** [fs.ensureDir(dir)], [fs.emptyDir(dir)], and the writing of [f] to
    [path.join(dir, name)] by [toFile], [writeJson] or [writeFile], where
    [name] is a file name without separator. *)
Inductive Call : Type :=
| EnsureDir (dir : string)
| EmptyDir (dir : string)
| WriteFile (dir name : string) (f : File).

Abbreviation Loc := (list string).

(** Which locations are directories, and which hold a file. *)
Record Disk : Type := {
  is_dir : Loc → bool;
  file : Loc → option File
}.

(** [path.resolve(p)] in the working directory [cwd]. *)
Definition resolve (cwd : Loc) (p : string) : Loc :=
  rev (normalize_segments false []
         ((if String.prefix "/" p then [] else cwd) ++ JsStr.split "/" p)).

(** [loc] is [d] or lies below it. *)
Fixpoint within (d loc : Loc) : bool :=
  match d, loc with
  | [], _ => true
  | x :: d', y :: loc' => String.eqb x y && within d' loc'
  | _ :: _, [] => false
  end.

(** A file sits at [loc] or above it, where a directory is needed. *)
Definition blocked (disk : Disk) (loc : Loc) : bool :=
  existsb (λ n, bool_decide (is_Some (file disk (firstn n loc))))
    (seq 0 (S (length loc))).

(** [mkdir -p]: the directory and those above it exist afterwards. *)
Definition ensureDir (loc : Loc) (disk : Disk) : option Disk :=
  if blocked disk loc then None
  else Some {| is_dir := λ x, is_dir disk x || within x loc;
               file := file disk |}.

(** The directory exists afterwards and nothing is left below it. *)
Definition emptyDir (loc : Loc) (disk : Disk) : option Disk :=
  if blocked disk loc then None
  else Some {| is_dir := λ x, if within loc x then bool_decide (x = loc)
                              else is_dir disk x || within x loc;
               file := λ x, if within loc x then None else file disk x |}.

(** Writing a file needs its directory, and fails on a directory. *)
Definition writeFile (dir : Loc) (name : string) (f : File) (disk : Disk)
  : option Disk :=
  let loc := dir ++ [name] in
  if is_dir disk dir && negb (is_dir disk loc) then
    Some {| is_dir := is_dir disk;
            file := λ x, if bool_decide (x = loc) then Some f else file disk x |}
  else None.

(** The effect of one call; [None] when the call throws. *)
Definition step (cwd : Loc) (c : Call) (disk : Disk) : option Disk :=
  match c with
  | EnsureDir dir => ensureDir (resolve cwd dir) disk
  | EmptyDir dir => emptyDir (resolve cwd dir) disk
  | WriteFile dir name f => writeFile (resolve cwd dir) name f disk
  end.

(** The effect of a list of calls; it stops at the first that throws. *)
Fixpoint run (cwd : Loc) (calls : list Call) (disk : Disk) : option Disk :=
  match calls with
  | [] => Some disk
  | c :: calls' =>
      match step cwd c disk with
      | Some disk' => run cwd calls' disk'
      | None => None
      end
  end.

End Fs.

(** The options the engine reads.  Canvas size and the preview sheet only
    reach the compositor. *)
Record Config : Type := {
  editionSize : Z;
  shuffleMetadata : bool;
  traitsDir : string;
  outputDir : string;
  imagesSubdir : string;
  metadataSubdir : string;
  rarityDelimiter : string;
  uniqueDnaTorrance : Z;
  namePrefix : string;
  description : string;
  baseUri : string;
  extraMetadata : JObject;
  incompatible : gmap string (list string);
  requires : gmap string (list string);
  mandatoryLayers : list string
}.

(** The configuration shipped with the repository; [extraMetadata] is not
    set there, so nothing is spread into the records. *)
Definition config : Config := {|
  editionSize := 10;
  shuffleMetadata := true;
  traitsDir := "./traits";
  outputDir := "./output";
  imagesSubdir := "images";
  metadataSubdir := "metadata";
  rarityDelimiter := "#";
  uniqueDnaTorrance := 10000;
  namePrefix := "Piggos";
  description := "A fully generative collection bringing back the classic degen vibes on the mother chain.";
  baseUri := "ipfs://__REPLACE_WITH_YOUR_CID__";
  extraMetadata := [];
  incompatible :=
    <["Base:Alien" := ["Head:Crown"]]>
      (<["Clothes:Armor" := ["Mouth:Smile"]]> ∅);
  requires := <["Eye:Laser" := ["Mouth:Fangs"]]> ∅;
  mandatoryLayers := ["Background"; "Base"]
|}.

(** ** Catalog data *)

(** A trait element of the catalog. *)
Module Element.
Record t : Type := {
  id : string;
  layer : string;
  name : string;
  weight : jsnum;
  path : string
}.
End Element.

(** A catalog layer.  [readLayers] skips a directory without assets, so
    the [elements] array of a layer always has a first entry. *)
Module Layer.
Record t : Type := {
  id : string;
  first : Element.t;
  rest : list Element.t
}.
Definition elements (l : t) : list Element.t := first l :: rest l.
End Layer.

(** A picked trait: an element copied into a selection, with its render
    order.  A requirement override may write [undefined] ([None]) into
    [name] when its target has no value part. *)
Module Pick.
Record t : Type := {
  id : string;
  layer : string;
  name : option string;
  weight : jsnum;
  path : string;
  _order : Z
}.

(** [{ ...el, _order: order }] *)
Definition of_element (el : Element.t) (order : Z) : t := {|
  id := Element.id el;
  layer := Element.layer el;
  name := Some (Element.name el);
  weight := Element.weight el;
  path := Element.path el;
  _order := order
|}.

(** [{ ...p, name: valueName, id: newId }] *)
Definition rename (p : t) (valueName : option string) (newId : string) : t := {|
  id := newId;
  layer := layer p;
  name := valueName;
  weight := weight p;
  path := path p;
  _order := _order p
|}.
End Pick.

Abbreviation Selection := (list Pick.t).

(** A value inside a template literal. *)
Definition show (o : option string) : string :=
  match o with
  | Some s => s
  | None => "undefined"
  end.

(** ** The random source *)

(** [Math.random] hands out the draws of a fixed stream one after the
    other. *)
Record Rng : Type := { draws : nat → jsnum; pos : nat }.

Definition Rand (A : Type) : Type := Rng → A * Rng.

#[global] Instance Rand_ret : MRet Rand := λ A (x : A) g, (x, g).
#[global] Instance Rand_bind : MBind Rand :=
  λ A B (f : A → Rand B) (c : Rand A) g, let '(x, g') := c g in f x g'.

(** [Math.random()] *)
Definition random : Rand jsnum :=
  λ g, (draws g (pos g), {| draws := draws g; pos := S (pos g) |}).

(** [array[z]] for a number used as an index. *)
Definition nth_Z {A : Type} (array : list A) (z : Z) : option A :=
  if z <? 0 then None else array !! Z.to_nat z.

(** [[array[i], array[j]] = [array[j], array[i]]].  An index outside the
    array would make JavaScript store [undefined]; no draw of
    [Math.random] leads there (see [random_index_range]), and the array
    is then left as it is. *)
Definition swap {A : Type} (array : list A) (i : nat) (j : option Z) : list A :=
  match j with
  | Some z =>
      match array !! i, nth_Z array z with
      | Some ai, Some aj => <[Z.to_nat z := ai]> (<[i := aj]> array)
      | _, _ => array
      end
  | None => array
  end.

(** [Math.floor(Math.random() * (i + 1))] *)
Definition random_index (i : nat) : Rand (option Z) :=
  x ← random;
  mret (JsNum.floor (JsNum.mul x (JsNum.of_Z (Z.of_nat i + 1)))).

(** The loop of [shuffle], from index [i] down to 1. *)
Fixpoint shuffle_from {A : Type} (i : nat) (array : list A) : Rand (list A) :=
  match i with
  | O => mret array
  | S i' =>
      j ← random_index i;
      shuffle_from i' (swap array i j)
  end.

(** [shuffle] *)
Definition shuffle {A : Type} (array : list A) : Rand (list A) :=
  shuffle_from (length array - 1) array.

(** ** Layer catalog *)

Section Engine.
Variable cfg : Config.
Context {collation : Collation}.

(** [toTitle] *)
Definition toTitle (s : string) : string :=
  trim (underscores_to_spaces (strip_order_prefix s)).

(** [parseWeight]: the pair (name, weight). *)
Definition parseWeight (filename : string) : string * jsnum :=
  let base := path_parse_name filename in
  match lastIndexOf base (rarityDelimiter cfg) with
  | None => (base, Fin 1)
  | Some idx =>
      let name := JsStr.take idx base in
      let n := Number (JsStr.drop (S idx) base) in
      let weight := if truthy n then n else Fin 1 in
      (name, weight)
  end.

(** The element built for file [f] of directory [dir]. *)
Definition element_of_file (dir f : string) : Element.t :=
  let '(name, weight) := parseWeight f in
  {| Element.id := toTitle dir +:+ ":" +:+ name;
     Element.layer := toTitle dir;
     Element.name := name;
     Element.weight := weight;
     Element.path := path_join (path_join (traitsDir cfg) dir) f |}.

(** The loop of [readLayers] over the sorted directory names, each
    given with the [*.png] files found in it. *)
Fixpoint collect_layers (listing : list (string * list string)) : list Layer.t :=
  match listing with
  | [] => []
  | (dir, files) :: listing' =>
      match files with
      | [] => collect_layers listing'
      | f :: fs =>
          {| Layer.id := toTitle dir;
             Layer.first := element_of_file dir f;
             Layer.rest := map (element_of_file dir) fs |}
          :: collect_layers listing'
      end
  end.

(** [readLayers]: throws when no layer is found. *)
Definition readLayers (listing : list (string * list string)) : string + list Layer.t :=
  match collect_layers listing with
  | [] => inl "No layers found under ./traits. Add layered PNGs first."
  | layers => inr layers
  end.

(** ** Trait selector *)

(** The [for] loop of [weightedPick]; [None] when it runs to its end. *)
Fixpoint pick_scan (r : jsnum) (elements : list Element.t) : option Element.t :=
  match elements with
  | [] => None
  | e :: elements' =>
      let r' := JsNum.sub r (Element.weight e) in
      if le0 r' then Some e else pick_scan r' elements'
  end.

(** [weightedPick] on the elements of a layer. *)
Definition weightedPick (l : Layer.t) : Rand Element.t :=
  let elements := Layer.elements l in
  let total := foldl (λ sum e, JsNum.add sum (Element.weight e)) (Fin 0) elements in
  x ← random;
  let r := JsNum.mul x total in
  mret (match pick_scan r elements with
        | Some e => e
        | None => List.last elements (Layer.first l)
        end).

(** [traitKey] *)
Definition traitKey (layerName : string) (valueName : option string) : string :=
  layerName +:+ ":" +:+ show valueName.

Definition chosen_keys (selection : Selection) : list string :=
  JsSet.of_list (map (λ s, traitKey (Pick.layer s) (Pick.name s)) selection).

(** [violatesIncompatibilities] *)
Definition violatesIncompatibilities (selection : Selection) : bool :=
  let chosen := chosen_keys selection in
  existsb (λ k,
    match incompatible cfg !! k with
    | Some bad => existsb (λ b, JsSet.has chosen b) bad
    | None => false
    end) chosen.

(** [const [layer, value] = target.split(":")] *)
Definition split_target (target : string) : string * option string :=
  match JsStr.split ":" target with
  | layer :: value :: _ => (layer, Some value)
  | [layer] => (layer, None)
  | [] => ("", None)
  end.

(** [enforceRequirements]: the map layer -> forced value. *)
Definition enforceRequirements (selection : Selection) : list (string * option string) :=
  let chosen := chosen_keys selection in
  foldl (λ mustAdd k,
    match requires cfg !! k with
    | Some reqs =>
        foldl (λ mustAdd target,
          let '(layer, value) := split_target target in
          JsMap.set mustAdd layer value) mustAdd reqs
    | None => mustAdd
    end) [] chosen.

(** The comparator [(a, b) => a.layer.localeCompare(b.layer)] gives a
    positive number. *)
Definition by_layer (a b : Pick.t) : bool :=
  bool_decide (localeCompare (Pick.layer a) (Pick.layer b) = Gt).

(** [dnaFromSelection] *)
Definition dnaFromSelection (selection : Selection) : string :=
  join "|"
    (map (λ s, Pick.layer s +:+ ":" +:+ show (Pick.name s))
       (sort by_layer selection)).

Definition by_order (a b : Pick.t) : bool := Pick._order b <? Pick._order a.

(** [composeImage]: the asset files handed to the compositor, bottom
    layer first. *)
Definition composeImage (selection : Selection) : list string :=
  map Pick.path (sort by_order selection).

(** [`${baseUri}/${n}.png`], without doubling the slash. *)
Definition imageUri (n : Z) : string :=
  if endsWith (baseUri cfg) "/"
  then baseUri cfg +:+ JsStr.of_Z n +:+ ".png"
  else baseUri cfg +:+ "/" +:+ JsStr.of_Z n +:+ ".png".

Definition attribute_value (o : option string) : JVal :=
  match o with
  | Some s => JStr s
  | None => JUndefined
  end.

(** The attribute list of [metadataForToken]: [trait_type] and [value]
    of each pick, in render order. *)
Definition attributes (selection : Selection) : list (string * option string) :=
  map (λ s, (Pick.layer s, Pick.name s)) (sort by_order selection).

(** [metadataForToken] *)
Definition metadataForToken (tokenId : Z) (selection : Selection) (uri : string) : JObject :=
  spread
    [ ("name", JStr (namePrefix cfg +:+ " #" +:+ JsStr.of_Z tokenId));
      ("description", JStr (description cfg));
      ("image", JStr uri);
      ("edition", JNum tokenId);
      ("attributes", JAttributes (attributes selection)) ]
    (extraMetadata cfg).

(** [picked.find((p) => p.layer === m)] as a test, and
    [picked.findIndex(...)]. *)
Definition has_layer (picked : Selection) (m : string) : bool :=
  existsb (λ p, bool_decide (Pick.layer p = m)) picked.

Fixpoint findIndex (picked : Selection) (layerName : string) : option nat :=
  match picked with
  | [] => None
  | p :: picked' =>
      if bool_decide (Pick.layer p = layerName) then Some O
      else S <$> findIndex picked' layerName
  end.

(** [layers.find((l) => l.id === m)] *)
Definition find_layer (layers : list Layer.t) (m : string) : option Layer.t :=
  List.find (λ l, bool_decide (Layer.id l = m)) layers.

(** The first loop of [pickTraitsForLayers]: one weighted pick per
    layer, numbered in catalog order. *)
Fixpoint pick_each (layers : list Layer.t) (order : Z) : Rand (Selection * Z) :=
  match layers with
  | [] => mret ([], order)
  | layer :: layers' =>
      el ← weightedPick layer;
      '(picked, order') ← pick_each layers' (order + 1);
      mret (Pick.of_element el order :: picked, order')
  end.

(** One turn of the loop over [mandatoryLayers]. *)
Definition add_mandatory (layers : list Layer.t) (st : Selection * Z) (m : string)
  : Selection * Z :=
  let '(picked, order) := st in
  if has_layer picked m then st
  else match find_layer layers m with
       | Some layer =>
           let sorted :=
             sort (λ a b, gt0 (JsNum.sub (Element.weight b) (Element.weight a)))
               (Layer.elements layer) in
           (picked ++ [Pick.of_element (List.hd (Layer.first layer) sorted) order],
            order + 1)
       | None => st
       end.

(** One turn of the loop over the entries of [mustAdd]. *)
Definition apply_requirement (layers : list Layer.t) (st : Selection * Z)
    (entry : string * option string) : Selection * Z :=
  let '(picked, order) := st in
  let '(layerName, valueName) := entry in
  match findIndex picked layerName with
  | Some idx =>
      match picked !! idx with
      | Some p =>
          (<[idx := Pick.rename p valueName (traitKey layerName valueName)]> picked,
           order)
      | None => st
      end
  | None =>
      match find_layer layers layerName with
      | Some layer =>
          match List.find (λ e, bool_decide (Some (Element.name e) = valueName))
                  (Layer.elements layer) with
          | Some found => (picked ++ [Pick.of_element found order], order + 1)
          | None => st
          end
      | None => st
      end
  end.

(** The picks before requirement enforcement. *)
Definition draw_traits (layers : list Layer.t) : Rand (Selection * Z) :=
  st ← pick_each layers 0;
  mret (foldl (add_mandatory layers) st (mandatoryLayers cfg)).

(** [pickTraitsForLayers] *)
Definition pickTraitsForLayers (layers : list Layer.t) : Rand Selection :=
  st ← draw_traits layers;
  let mustAdd := enforceRequirements st.1 in
  mret (foldl (apply_requirement layers) st mustAdd).1.

(** ** Uniqueness engine and edition loop *)

Definition outImages : string := path_join (outputDir cfg) (imagesSubdir cfg).
Definition outMetadata : string := path_join (outputDir cfg) (metadataSubdir cfg).
Definition outLogs : string := path_join (outputDir cfg) "_logs".

(** [ensureDirs] *)
Definition ensureDirs : list Fs.Call :=
  [Fs.EnsureDir outImages; Fs.EnsureDir outMetadata; Fs.EnsureDir outLogs].

(** What [main] accumulates.  [dnaSet] holds [None] for [undefined].
    [calls] lists the file-system calls made since the state was set up,
    in order.  [tokens] is a ghost record of the accepted editions with
    their selections: no code reads it. *)
Record State : Type := {
  dnaSet : list (option string);
  allMetadata : list JObject;
  imagePaths : list string;
  failures : Z;
  calls : list Fs.Call;
  tokens : list (Z * Selection)
}.

Definition initial : State := {|
  dnaSet := [];
  allMetadata := [];
  imagePaths := [];
  failures := 0;
  calls := [];
  tokens := []
|}.

(** The [do ... while] loop of one token.  A [continue] inside it jumps
    to the loop condition, with [dna] as the previous turn left it.
    [fuel] bounds the number of further turns; [Z.to_nat
    uniqueDnaTorrance] is never used up ([search_spec]). *)
Fixpoint search (layers : list Layer.t) (seen : list (option string))
    (fuel : nat) (attempts : Z) (dna : option string)
  : Rand (Selection * Z * option string) :=
  selection ← pickTraitsForLayers layers;
  let attempts := attempts + 1 in
  let dna :=
    if violatesIncompatibilities selection then dna
    else Some (dnaFromSelection selection) in
  if JsSet.has seen dna && (attempts <? uniqueDnaTorrance cfg) then
    match fuel with
    | S fuel' => search layers seen fuel' attempts dna
    | O => mret (selection, attempts, dna)
    end
  else mret (selection, attempts, dna).

(** The body of the edition loop. *)
Definition generate (layers : list Layer.t) (st : State) (edition : Z) : Rand State :=
  '(selection, attempts, dna) ←
    search layers (dnaSet st) (Z.to_nat (uniqueDnaTorrance cfg)) 0 None;
  if uniqueDnaTorrance cfg <=? attempts then
    mret {| dnaSet := dnaSet st;
            allMetadata := allMetadata st;
            imagePaths := imagePaths st;
            failures := failures st + 1;
            calls := calls st;
            tokens := tokens st |}
  else
    let imgName := JsStr.of_Z edition +:+ ".png" in
    let imgPath := path_join outImages imgName in
    let meta := metadataForToken edition selection (imageUri edition) in
    let metaName := JsStr.of_Z edition +:+ ".json" in
    mret {| dnaSet := JsSet.add (dnaSet st) dna;
            allMetadata := allMetadata st ++ [meta];
            imagePaths := imagePaths st ++ [imgPath];
            failures := failures st;
            calls := calls st
                     ++ [Fs.WriteFile outImages imgName (Fs.Png (composeImage selection));
                         Fs.WriteFile outMetadata metaName (Fs.Json meta)];
            tokens := tokens st ++ [(edition, selection)] |}.

(** [for (let edition = 1; edition <= editionSize; edition++)] *)
Fixpoint editions (layers : list Layer.t) (eds : list Z) (st : State) : Rand State :=
  match eds with
  | [] => mret st
  | edition :: eds' =>
      st' ← generate layers st edition;
      editions layers eds' st'
  end.

(** The record written for [newId] after the shuffle. *)
Definition shuffled_meta (all : list JObject) (indices : list Z) (newId : Z) : JObject :=
  let original :=
    match nth_Z indices (newId - 1) with
    | Some v => nth_Z all (v - 1)
    | None => None
    end in
  spread (default [] original)
    [ ("name", JStr (namePrefix cfg +:+ " #" +:+ JsStr.of_Z newId));
      ("edition", JNum newId);
      ("image", JStr (imageUri newId)) ].

(** The shuffle step of [main]: the metadata directory is emptied and
    rewritten under shuffled token ids. *)
Definition shuffle_step (st : State) : Rand State :=
  let n := Z.of_nat (length (allMetadata st)) in
  indices ← shuffle (map (λ i, i + 1) (seqZ 0 n));
  let writes :=
    map (λ newId,
           Fs.WriteFile outMetadata (JsStr.of_Z newId +:+ ".json")
             (Fs.Json (shuffled_meta (allMetadata st) indices newId)))
      (seqZ 1 n) in
  mret {| dnaSet := dnaSet st;
          allMetadata := allMetadata st;
          imagePaths := imagePaths st;
          failures := failures st;
          calls := calls st ++ Fs.EmptyDir outMetadata :: writes;
          tokens := tokens st |}.

(** What a completed run leaves in memory, and the contents it writes
    to [_metadata.json] and [_logs/dna.txt]. *)
Record Output : Type := {
  final : State;
  metadata_json : list JObject;
  dna_txt : string
}.

(** A run of [main]: its file-system calls in order, and how it ends
    when none of these calls throws: a thrown error is [inl].  A call that
    throws ends the run at that call ([Fs.run] tells whether one does). *)
Record Run : Type := {
  trace : list Fs.Call;
  outcome : string + Output
}.

(** [main], from the directory listing on, up to the preview sheet
    ([buildPreviewGrid] below). *)
Definition main (listing : list (string * list string)) : Rand Run :=
  match readLayers listing with
  | inl err => mret {| trace := ensureDirs; outcome := inl err |}
  | inr layers =>
      st ← editions layers (seqZ 1 (editionSize cfg)) initial;
      st' ← (if shuffleMetadata cfg then shuffle_step st else mret st);
      let out := {| final := st';
                    metadata_json := allMetadata st';
                    dna_txt := join (String "010" "") (map (default "") (dnaSet st')) |} in
      mret {| trace :=
                ensureDirs ++ calls st'
                ++ [Fs.WriteFile (outputDir cfg) "_metadata.json"
                      (Fs.JsonArray (metadata_json out));
                    Fs.WriteFile outLogs "dna.txt" (Fs.Text (dna_txt out))];
              outcome := inr out |}
  end.

End Engine.

(** ** Preview sheet *)

(** The [preview] option of [config.js], and the canvas size. *)
Module Preview.
Record t : Type := {
  generate : bool;
  cols : Z;
  rows : Z;
  filename : string;
  margin : Z
}.
End Preview.

(** An entry of the [composites] array: the file read for it and where
    it is placed. *)
Module Tile.
Record t : Type := { input : string; top : Z; left : Z }.
End Tile.

(** What [buildPreviewGrid] hands to the compositor: the canvas size,
    the tiles and the output file. *)
Module Sheet.
Record t : Type := {
  gridW : Z;
  gridH : Z;
  composites : list Tile.t;
  target : string
}.
End Sheet.

Section PreviewGrid.
Variables width height : Z.
Variable outputDir_ : string.

(** The inner loop over [c], for the columns still to visit: it stops at
    the first index beyond the images ([break]). *)
Fixpoint row_tiles (cols margin : Z) (imagePaths : list string) (r : Z) (cs : list Z)
  : list Tile.t :=
  match cs with
  | [] => []
  | c :: cs' =>
      let idx := r * cols + c in
      if Z.of_nat (length imagePaths) <=? idx then []
      else
        {| Tile.input := default "" (nth_Z imagePaths idx);
           Tile.top := margin + r * (height + margin);
           Tile.left := margin + c * (width + margin) |}
        :: row_tiles cols margin imagePaths r cs'
  end.

(** [buildPreviewGrid]; [None] when the preview is absent or switched
    off.  A tile stands for the image file read at that index. *)
Definition buildPreviewGrid (preview : option Preview.t) (imagePaths : list string)
  : option Sheet.t :=
  match preview with
  | None => None
  | Some pv =>
      if negb (Preview.generate pv) then None
      else
        let cols := Preview.cols pv in
        let rows := Preview.rows pv in
        let margin := Preview.margin pv in
        Some {| Sheet.gridW := cols * width + (cols + 1) * margin;
                Sheet.gridH := rows * height + (rows + 1) * margin;
                Sheet.composites :=
                  flat_map (λ r, row_tiles cols margin imagePaths r (seqZ 0 cols))
                    (seqZ 0 rows);
                Sheet.target := path_join outputDir_ (Preview.filename pv) |}
  end.
End PreviewGrid.

(** The preview of the shipped configuration, on its 1024 x 1024 canvas. *)
Definition config_preview : Preview.t := {|
  Preview.generate := true;
  Preview.cols := 10;
  Preview.rows := 10;
  Preview.filename := "preview.png";
  Preview.margin := 10
|}.

(** ** Concrete catalogs, configurations and random sources *)

Module Examples.

(** The worked runs compare layer names by code units. *)
#[local] Existing Instance code_units.

(** The shipped configuration with another edition size, attempt
    ceiling, shuffle flag and rule tables. *)
Definition configure (size ceiling : Z) (shuffled : bool)
    (incompat reqs : gmap string (list string)) : Config := {|
  editionSize := size;
  shuffleMetadata := shuffled;
  traitsDir := traitsDir config;
  outputDir := outputDir config;
  imagesSubdir := imagesSubdir config;
  metadataSubdir := metadataSubdir config;
  rarityDelimiter := rarityDelimiter config;
  uniqueDnaTorrance := ceiling;
  namePrefix := namePrefix config;
  description := description config;
  baseUri := baseUri config;
  extraMetadata := extraMetadata config;
  incompatible := incompat;
  requires := reqs;
  mandatoryLayers := mandatoryLayers config
|}.

(** The shipped rules, for a single token. *)
Definition config_one : Config :=
  configure 1 10000 false (incompatible config) (requires config).

(** A source that always draws the same number. *)
Definition rng_const (x : jsnum) : Rng := {| draws := λ _, x; pos := 0 |}.

(** A source drawing [x] for its first [n] draws and [y] afterwards. *)
Definition rng_then (n : nat) (x y : jsnum) : Rng :=
  {| draws := λ k, if (k <? n)%nat then x else y; pos := 0 |}.

(** The layers read from a listing ([[]] if [readLayers] throws). *)
Definition layers_of (cfg : Config) (listing : list (string * list string)) : list Layer.t :=
  match readLayers cfg listing with
  | inr layers => layers
  | inl _ => []
  end.

(** The final state of a run, if [main] did not throw. *)
Definition final_state (r : Run) : option State :=
  match outcome r with
  | inr out => Some (final out)
  | inl _ => None
  end.

Definition listing_alien_crown : list (string * list string) :=
  [("Base", ["Alien.png"]); ("Head", ["Crown.png"])].

Definition listing_eye : list (string * list string) :=
  [("Eye", ["Laser.png"])].

Definition listing_eye_mouth : list (string * list string) :=
  [("Eye", ["Laser.png"]); ("Mouth", ["Smile.png"])].

Definition listing_base : list (string * list string) :=
  [("Base", ["Alien.png"])].

(** Two directories whose titles coincide. *)
Definition listing_two_hats : list (string * list string) :=
  [("1_Hat", ["a.png"; "b.png"]); ("2_Hat", ["a.png"; "b.png"])].

(** File names that contain the separators of the fingerprint. *)
Definition listing_separators : list (string * list string) :=
  [("A", ["p.png"; "p|B:u.png"]); ("B", ["u|B:v.png"; "v.png"])].

Definition config_separators : Config :=
  configure 2 10000 false (<["A:p" := ["B:u|B:v"]]> ∅) ∅.

(** Ceiling 1, no rules. *)
Definition config_ceiling_one : Config := configure 1 1 false ∅ ∅.

(** Two rules that force different values into layer B. *)
Definition config_conflict : Config :=
  configure 1 10000 false ∅
    (<["A:x" := ["B:y"]]> (<["C:z" := ["B:w"]]> ∅)).

Definition listing_conflict : list (string * list string) :=
  [("A", ["x.png"]); ("B", ["y.png"; "w.png"]); ("C", ["z.png"])].

(** A rule whose premise only appears through another rule. *)
Definition config_chain : Config :=
  configure 1 10000 false ∅
    (<["A:x" := ["B:y"]]> (<["C:z" := ["A:x"]]> ∅)).

Definition listing_chain : list (string * list string) :=
  [("A", ["q.png"]); ("B", ["p.png"; "y.png"]); ("C", ["z.png"])].

(** The two picks drawn from [listing_eye_mouth]. *)
Definition pick_laser : Pick.t := {|
  Pick.id := "Eye:Laser";
  Pick.layer := "Eye";
  Pick.name := Some "Laser";
  Pick.weight := Fin 1;
  Pick.path := "traits/Eye/Laser.png";
  Pick._order := 0
|}.

Definition pick_smile : Pick.t := {|
  Pick.id := "Mouth:Smile";
  Pick.layer := "Mouth";
  Pick.name := Some "Smile";
  Pick.weight := Fin 1;
  Pick.path := "traits/Mouth/Smile.png";
  Pick._order := 1
|}.


(** The shipped configuration with another rarity delimiter and extra
    metadata. *)
Definition with_options (delimiter : string) (extra : JObject) : Config := {|
  editionSize := editionSize config;
  shuffleMetadata := shuffleMetadata config;
  traitsDir := traitsDir config;
  outputDir := outputDir config;
  imagesSubdir := imagesSubdir config;
  metadataSubdir := metadataSubdir config;
  rarityDelimiter := delimiter;
  uniqueDnaTorrance := uniqueDnaTorrance config;
  namePrefix := namePrefix config;
  description := description config;
  baseUri := baseUri config;
  extraMetadata := extra;
  incompatible := incompatible config;
  requires := requires config;
  mandatoryLayers := mandatoryLayers config
|}.

Definition config_no_delimiter : Config := with_options "" [].

Definition config_extra : Config :=
  with_options "#" [("edition", JStr "genesis"); ("compiler", JStr "piggos")].

(** Two tokens, no rules, no shuffle, and the source that [state_two_tokens]
    is drawn from. *)
Definition config_two : Config := configure 2 10000 false ∅ ∅.

Definition rng_two : Rng := rng_then 2 (Fin 0) (Fin (3 # 4)).

(** The two tokens of that run on [listing_two_hats]. *)
Definition hat (dir name : string) (order : Z) : Pick.t := {|
  Pick.id := "Hat:" +:+ name;
  Pick.layer := "Hat";
  Pick.name := Some name;
  Pick.weight := Fin 1;
  Pick.path := "traits/" +:+ dir +:+ "/" +:+ name +:+ ".png";
  Pick._order := order
|}.

Definition token_a : Z * Selection := (1, [hat "1_Hat" "a" 0; hat "2_Hat" "a" 1]).
Definition token_b : Z * Selection := (2, [hat "1_Hat" "b" 0; hat "2_Hat" "b" 1]).

(** The first layer read from [listing_eye_mouth], and its element. *)
Definition element_laser : Element.t := {|
  Element.id := "Eye:Laser";
  Element.layer := "Eye";
  Element.name := "Laser";
  Element.weight := Fin 1;
  Element.path := "traits/Eye/Laser.png"
|}.

Definition layer_eye : Layer.t :=
  {| Layer.id := "Eye"; Layer.first := element_laser; Layer.rest := [] |}.

(** A disk that holds the working directory and nothing else, and a disk
    with one more file in one more directory. *)
Definition bare (cwd : Fs.Loc) : Fs.Disk :=
  {| Fs.is_dir := λ x, Fs.within x cwd; Fs.file := λ _, None |}.

Definition with_file (disk : Fs.Disk) (dir : Fs.Loc) (name : string) (f : Fs.File)
  : Fs.Disk :=
  {| Fs.is_dir := λ x, Fs.is_dir disk x || Fs.within x dir;
     Fs.file := λ x, if bool_decide (x = dir ++ [name]) then Some f
                     else Fs.file disk x |}.

(** A working directory, a disk on which an earlier run has left a
    metadata file, and that disk after the edition loop of
    [state_two_tokens]. *)
Definition work : Fs.Loc := ["work"].

Definition disk_stale : Fs.Disk :=
  with_file (bare work) ["work"; "output"; "metadata"] "9.json" (Fs.Text "stale").


(** The disk with the stale file, once [ensureDirs] has run. *)
Definition disk_ready : Fs.Disk :=
  default disk_stale (Fs.run work (ensureDirs config_two) disk_stale).




(** The paths of three generated images. *)
Definition three_images : list string :=
  ["output/images/1.png"; "output/images/2.png"; "output/images/3.png"].

End Examples.

(** ** Predicates used in the statements *)

(** Every element of a catalog layer carries the layer's name: this is
    how [readLayers] builds them. *)
Definition wf_catalog (layers : list Layer.t) : Prop :=
  Forall (λ l, Forall (λ e, Element.layer e = Layer.id l) (Layer.elements l)) layers.

(** A pick made for a layer: it bears the layer's name and the asset
    and weight of one of its elements. *)
Definition picked_from (p : Pick.t) (l : Layer.t) : Prop :=
  Pick.layer p = Layer.id l ∧
  ∃ e, e ∈ Layer.elements l ∧
       Pick.path p = Element.path e ∧ Pick.weight p = Element.weight e.

(** Two picks that differ at most in their [name] and [id]. *)
Definition same_asset (p' p : Pick.t) : Prop :=
  Pick.layer p' = Pick.layer p ∧ Pick.weight p' = Pick.weight p ∧
  Pick.path p' = Pick.path p ∧ Pick._order p' = Pick._order p.

(** Requirements that agree on layer B: whatever they write for B is y. *)
Definition agree_on (B : string) (y : option string) (reqs : list string) : Prop :=
  ∀ t, t ∈ reqs → (split_target t).1 = B → (split_target t).2 = y.

(** The selection drawn at turn [k] (from 0) of a search that starts with
    the random source [g]: every turn takes one draw per layer. *)
Definition turn (cfg : Config) (layers : list Layer.t) (g : Rng) (k : nat) : Selection :=
  (pickTraitsForLayers cfg layers
     {| draws := draws g; pos := (pos g + k * length layers)%nat |}).1.

(** [st] after a skipped token: only the shortfall counter moves. *)
Definition skipped (st : State) : State :=
  {| dnaSet := dnaSet st;
     allMetadata := allMetadata st;
     imagePaths := imagePaths st;
     failures := failures st + 1;
     calls := calls st;
     tokens := tokens st |}.

(** What holds of the state between two token slots: the seen-set has no
    repetition and one entry per accepted token, and the metadata array
    has one record per accepted token, built from its selection. *)
Definition run_invariant (cfg : Config) (st : State) : Prop :=
  NoDup (dnaSet st) ∧
  length (dnaSet st) = length (tokens st) ∧
  allMetadata st =
    map (λ t, metadataForToken cfg t.1 t.2 (imageUri cfg t.1)) (tokens st).

(** The (layer, value) pairs of a selection, in array order. *)
Definition pairs (selection : Selection) : list (string * option string) :=
  map (λ s, (Pick.layer s, Pick.name s)) selection.

(** Order of two pairs by layer name. *)
Definition key_before `{Collation} (p q : string * option string) : Prop :=
  localeCompare p.1 q.1 = Lt.

(** A non-empty string of decimal digits, and the integer it denotes. *)
Fixpoint all_digits (s : string) : bool :=
  match s with
  | String c s' => is_digit c && all_digits s'
  | EmptyString => true
  end.

Definition decimal_literal (s : string) : Prop :=
  s ≠ "" ∧ all_digits s = true.

Fixpoint decimal_value_from (acc : Z) (s : string) : Z :=
  match s with
  | String c s' => decimal_value_from (10 * acc + default 0 (digit_of c)) s'
  | EmptyString => acc
  end.

Definition decimal_value (s : string) : Z := decimal_value_from 0 s.

(** What [Math.random] may return: a binary64 value in [0, 1), hence at
    most 1 - 2^-53. *)
Definition unit_draw (x : jsnum) : Prop :=
  ∃ q, x = Fin q ∧ 0 ≤ Qnum q ∧ Qnum q * 2 ^ 53 ≤ Zpos (Qden q) * (2 ^ 53 - 1).

(** The Fisher-Yates shuffle as the specification names it: for i from
    the last index down to 1, the entries at positions i and [js i] are
    exchanged, [js i] being the index chosen for step i. *)
Definition exchange {A : Type} (array : list A) (i j : nat) : list A :=
  match array !! i, array !! j with
  | Some ai, Some aj => <[j := ai]> (<[i := aj]> array)
  | _, _ => array
  end.

Fixpoint fisher_yates {A : Type} (js : nat → nat) (i : nat) (array : list A) : list A :=
  match i with
  | O => array
  | S i' => fisher_yates js i' (exchange array i (js i))
  end.

(** The position that a shuffle starting at position [top] with the
    random source [g] exchanges with position [k]: the draw number
    [top - k] from the current one, times k + 1, rounded down. *)
Definition drawn_index (g : Rng) (top k : nat) : nat :=
  Z.to_nat (default 0
    (JsNum.floor (JsNum.mul (draws g (pos g + (top - k))%nat)
                    (JsNum.of_Z (Z.of_nat k + 1))))).


(** The name of the metadata file of a token id inside [outMetadata]. *)
Definition metadata_path (cfg : Config) (tokenId : Z) : string :=
  JsStr.of_Z tokenId +:+ ".json".


(** The effect of an in-place override on a pick. *)
Definition overridden (layerName : string) (valueName : option string)
    (p' p : Pick.t) : Prop :=
  p' = p ∨
  (Pick.layer p = layerName ∧
   p' = Pick.rename p valueName (traitKey layerName valueName)).

(** A directory that holds at least one asset file. *)
Definition has_files (entry : string * list string) : bool :=
  match entry.2 with
  | [] => false
  | _ :: _ => true
  end.

(** The layer built from a directory entry. *)
Definition layer_of_entry (cfg : Config) (l : Layer.t) (entry : string * list string) : Prop :=
  Layer.id l = toTitle entry.1 ∧
  Layer.elements l = map (element_of_file cfg entry.1) entry.2.

(** A pick whose [id] is its layer, a colon and its name. *)
Definition id_matches (p : Pick.t) : Prop :=
  Pick.id p = traitKey (Pick.layer p) (Pick.name p).

(** The same for the elements of a catalog. *)
Definition ids_match (layers : list Layer.t) : Prop :=
  Forall (λ l, Forall (λ e, Element.id e
                            = traitKey (Element.layer e) (Some (Element.name e)))
                 (Layer.elements l)) layers.

(** The pair (layer, value as printed in a template) of a pick. *)
Definition rendered (p : Pick.t) : string * string :=
  (Pick.layer p, show (Pick.name p)).

(** Neither layer nor printed value of the pick holds a separator of the
    fingerprint. *)
Definition separator_free (p : Pick.t) : Prop :=
  has_char "|" (Pick.layer p) = false ∧ has_char ":" (Pick.layer p) = false ∧
  has_char "|" (show (Pick.name p)) = false.

(** The state of a run after the edition loop, before any shuffle. *)
Definition run_state `{Collation} (cfg : Config) (layers : list Layer.t) (g : Rng)
  : State :=
  (editions cfg layers (seqZ 1 (editionSize cfg)) initial g).1.

(** The record and the files of an accepted token. *)
Definition token_record (cfg : Config) (t : Z * Selection) : JObject :=
  metadataForToken cfg t.1 t.2 (imageUri cfg t.1).

Definition image_name (edition : Z) : string := JsStr.of_Z edition +:+ ".png".

Definition token_calls (cfg : Config) (t : Z * Selection) : list Fs.Call :=
  [Fs.WriteFile (outImages cfg) (image_name t.1) (Fs.Png (composeImage t.2));
   Fs.WriteFile (outMetadata cfg) (metadata_path cfg t.1)
     (Fs.Json (token_record cfg t))].

(** How the recorded fingerprint of an accepted token relates to its
    selection. *)
Definition recorded `{Collation} (cfg : Config) (dna : option string)
    (t : Z * Selection) : Prop :=
  if violatesIncompatibilities cfg t.2 then dna = None
  else dna = Some (dnaFromSelection t.2).

(** The tile of image number [k] on a sheet of [cols] columns. *)
Definition tile_at (width height cols margin : Z) (imagePaths : list string) (k : Z)
  : Tile.t :=
  {| Tile.input := default "" (nth_Z imagePaths k);
     Tile.top := margin + (k / cols) * (height + margin);
     Tile.left := margin + (k mod cols) * (width + margin) |}.

(** The books of a run agree with its accepted tokens: one record, one
    image path and two written files per token, in order. *)
Definition books (cfg : Config) (st : State) : Prop :=
  allMetadata st = map (token_record cfg) (tokens st) ∧
  imagePaths st
  = map (λ t, path_join (outImages cfg) (image_name t.1)) (tokens st) ∧
  calls st = flat_map (token_calls cfg) (tokens st).

(** A comparator that orders the strings up to an equivalence, as the
    language requires of a collation: exchanging the arguments reverses
    the answer, and "not after" is transitive. *)
Definition consistent (cmp : Collation) : Prop :=
  (∀ a b, cmp b a = CompOpp (cmp a b)) ∧
  (∀ a b c, cmp a b ≠ Gt → cmp b c ≠ Gt → cmp a c ≠ Gt).

(** No two picks of the selection have layer names that the collation
    takes for equal; in particular no layer name occurs twice. *)
Definition layers_apart `{Collation} (selection : Selection) : Prop :=
  NoDup (map Pick.layer selection) ∧
  ∀ a b, a ∈ map Pick.layer selection → b ∈ map Pick.layer selection →
         localeCompare a b = Eq → a = b.

(** The calls of the shuffle step on [n] records with the shuffled ids
    [indices]. *)
Definition shuffle_calls (cfg : Config) (all : list JObject) (indices : list Z)
  : list Fs.Call :=
  Fs.EmptyDir (outMetadata cfg)
  :: map (λ newId, Fs.WriteFile (outMetadata cfg) (metadata_path cfg newId)
                     (Fs.Json (shuffled_meta cfg all indices newId)))
       (seqZ 1 (Z.of_nat (length all))).

(** What is found at [loc] once the calls have been made, on a disk that
    held [before] there. *)
Fixpoint file_after (cwd : Fs.Loc) (calls : list Fs.Call) (loc : Fs.Loc)
    (before : option Fs.File) : option Fs.File :=
  match calls with
  | [] => before
  | c :: calls' =>
      file_after cwd calls' loc
        match c with
        | Fs.EnsureDir _ => before
        | Fs.EmptyDir dir =>
            if Fs.within (Fs.resolve cwd dir) loc then None else before
        | Fs.WriteFile dir name f =>
            if bool_decide (loc = Fs.resolve cwd dir ++ [name]) then Some f
            else before
        end
  end.


(** * Properties *)

(** Unfolds the plumbing of the [Rand] monad. *)
Ltac rand_unfold :=
  unfold mbind, Rand_bind, mret, Rand_ret in *.

(** ** Sorting *)

Section SortFacts.
Context {A B : Type}.

(** Two arrays related entry by entry, with a comparator that does not
    tell related entries apart, are sorted the same way. *)
Lemma sort_insert_Forall2 (R : A → B → Prop) (fa : A → A → bool) (fb : B → B → bool) :
  (∀ a a' b b', R a b → R a' b' → fa a a' = fb b b') →
  ∀ x y l k, R x y → Forall2 R l k →
    Forall2 R (sort_insert fa x l) (sort_insert fb y k).
Proof.
  intros Hcmp x y l k Hxy Hlk.
  induction Hlk as [|a b l k Hab Hlk IH]; simpl.
  - by constructor.
  - rewrite (Hcmp x a y b Hxy Hab).
    destruct (fb y b); repeat constructor; done.
Qed.

Lemma sort_Forall2 (R : A → B → Prop) (fa : A → A → bool) (fb : B → B → bool) :
  (∀ a a' b b', R a b → R a' b' → fa a a' = fb b b') →
  ∀ l k, Forall2 R l k → Forall2 R (sort fa l) (sort fb k).
Proof.
  intros Hcmp l k Hlk.
  induction Hlk; simpl; [constructor|].
  by apply sort_insert_Forall2.
Qed.

Lemma sort_insert_Permutation (f : A → A → bool) x l :
  sort_insert f x l ≡ₚ x :: l.
Proof.
  induction l as [|y l IH]; simpl; [done|].
  destruct (f x y); [|done].
  rewrite IH. apply Permutation_swap.
Qed.

Lemma sort_Permutation (f : A → A → bool) l : sort f l ≡ₚ l.
Proof.
  induction l as [|x l IH]; simpl; [done|].
  by rewrite sort_insert_Permutation, IH.
Qed.

Lemma sort_length (f : A → A → bool) l : length (sort f l) = length l.
Proof. by rewrite (sort_Permutation f l). Qed.
End SortFacts.

(** ** The trait selector *)

Section SelectorFacts.
Variable cfg : Config.

Lemma collect_layers_wf listing : wf_catalog (collect_layers cfg listing).
Proof.
  induction listing as [|[dir files] listing IH]; simpl; [constructor|].
  destruct files as [|f fs]; [done|].
  constructor; [|done].
  unfold Layer.elements; simpl. constructor.
  - unfold element_of_file. by destruct (parseWeight cfg f).
  - apply Forall_fmap, Forall_forall. intros f' _. simpl.
    unfold element_of_file. by destruct (parseWeight cfg f').
Qed.

Lemma readLayers_wf listing layers :
  readLayers cfg listing = inr layers → wf_catalog layers.
Proof.
  unfold readLayers. intros H.
  pose proof (collect_layers_wf listing) as Hwf.
  destruct (collect_layers cfg listing); [done|].
  by inversion H; subst.
Qed.

Lemma pick_scan_elem r es e : pick_scan r es = Some e → e ∈ es.
Proof.
  revert r. induction es as [|e' es IH]; intros r; simpl; [done|].
  destruct (le0 _).
  - intros [= ->]. by left.
  - intros H. right. by eapply IH.
Qed.

Lemma last_elem {A} (l : list A) (d : A) : l ≠ [] → List.last l d ∈ l.
Proof.
  induction l as [|x l IH]; [done|]. intros _.
  destruct l as [|y l]; simpl; [by left|].
  right. by apply IH.
Qed.

(** A weighted pick takes one draw and returns an element of the layer. *)
Lemma weightedPick_spec l g :
  (weightedPick l g).1 ∈ Layer.elements l ∧
  (weightedPick l g).2 = {| draws := draws g; pos := S (pos g) |}.
Proof.
  unfold weightedPick, random. rand_unfold. cbn [fst snd]. split; [|done].
  destruct (pick_scan _ _) eqn:Hs.
  - by apply pick_scan_elem in Hs.
  - by apply last_elem.
Qed.

Lemma pick_each_spec layers :
  wf_catalog layers →
  ∀ order g,
    let r := pick_each layers order g in
    Forall2 picked_from r.1.1 layers ∧
    map Pick._order r.1.1 = seqZ order (Z.of_nat (length layers)) ∧
    Forall2 (λ p l, ∃ e, e ∈ Layer.elements l ∧ ∃ o, p = Pick.of_element e o)
      r.1.1 layers ∧
    r.1.2 = order + Z.of_nat (length layers) ∧
    r.2 = {| draws := draws g; pos := (pos g + length layers)%nat |}.
Proof.
  induction layers as [|l layers IH]; intros Hwf order g; simpl.
  - rand_unfold. simpl. repeat split; try constructor.
    + f_equal; lia.
    + destruct g; simpl; f_equal; lia.
  - rand_unfold.
    destruct (weightedPick_spec l g) as [Hin Hg].
    destruct (weightedPick l g) as [el g1]. simpl in Hin, Hg. subst g1.
    apply Forall_cons in Hwf as [Hl Hwf'].
    rewrite Forall_forall in Hl.
    specialize (IH Hwf' (order + 1) {| draws := draws g; pos := S (pos g) |}).
    simpl in IH.
    destruct (pick_each layers (order + 1) _) as [[picked order'] g2].
    simpl in *. destruct IH as (IH1 & IH2 & IH3 & IH4 & IH5).
    repeat split.
    + constructor; [|done]. split; simpl.
      * by apply Hl.
      * by exists el.
    + rewrite IH2.
      replace (Z.of_nat (S (length layers))) with (Z.succ (Z.of_nat (length layers))) by lia.
      rewrite (seqZ_cons order) by lia. f_equal. f_equal; lia.
    + constructor; [|done]. exists el. split; [done|by eexists].
    + lia.
    + rewrite IH5. f_equal. lia.
Qed.
End SelectorFacts.

Section RequirementFacts.
Variable cfg : Config.

Lemma has_layer_true picked m :
  has_layer picked m = true ↔ m ∈ map Pick.layer picked.
Proof.
  unfold has_layer. rewrite existsb_exists, list_elem_of_fmap.
  split.
  - intros (p & Hp & Hm). apply bool_decide_eq_true in Hm.
    exists p. split; [done|]. by apply list_elem_of_In.
  - intros (p & -> & Hp). exists p. split; [by apply list_elem_of_In|].
    by apply bool_decide_eq_true.
Qed.

Lemma find_layer_Some layers m l :
  find_layer layers m = Some l → l ∈ layers ∧ Layer.id l = m.
Proof.
  unfold find_layer. intros H. apply find_some in H as [Hin Hid].
  apply bool_decide_eq_true in Hid. split; [|done]. by apply list_elem_of_In.
Qed.

Lemma find_layer_None layers m :
  find_layer layers m = None ↔ m ∉ map Layer.id layers.
Proof.
  unfold find_layer. split.
  - intros H Hin. apply list_elem_of_fmap in Hin as (l & -> & Hl).
    apply list_elem_of_In in Hl.
    pose proof (find_none _ _ H l Hl) as Hf. simpl in Hf.
    by apply bool_decide_eq_false in Hf.
  - intros Hnin. destruct (List.find _ layers) as [l|] eqn:Hf; [|done].
    apply find_some in Hf as [Hin Hid]. apply bool_decide_eq_true in Hid.
    exfalso. apply Hnin. apply list_elem_of_fmap. exists l.
    split; [done|]. by apply list_elem_of_In.
Qed.

Lemma findIndex_Some picked m i :
  findIndex picked m = Some i →
  ∃ p, picked !! i = Some p ∧ Pick.layer p = m.
Proof.
  revert i. induction picked as [|q picked IH]; intros i; simpl; [done|].
  case_bool_decide as Hq.
  - intros [= <-]. by exists q.
  - destruct (findIndex picked m) as [j|]; simpl; [|done].
    intros [= <-]. by apply IH.
Qed.

Lemma findIndex_None picked m :
  findIndex picked m = None ↔ m ∉ map Pick.layer picked.
Proof.
  induction picked as [|q picked IH]; simpl.
  - split; [intros _; apply not_elem_of_nil|done].
  - case_bool_decide as Hq.
    + split; [done|]. intros Hn. exfalso. apply Hn. subst. by left.
    + rewrite not_elem_of_cons, <- IH.
      destruct (findIndex picked m); simpl; split; try done; intros [? ?]; done.
Qed.

Lemma same_asset_refl p : same_asset p p.
Proof. done. Qed.

Lemma same_asset_trans p q r : same_asset p q → same_asset q r → same_asset p r.
Proof. unfold same_asset. intros (?&?&?&?) (?&?&?&?). repeat split; congruence. Qed.

Lemma Forall2_same_asset_refl (picked : Selection) : Forall2 same_asset picked picked.
Proof. induction picked; constructor; done. Qed.

Lemma Forall2_same_asset_layers (a b : Selection) :
  Forall2 same_asset a b → map Pick.layer a = map Pick.layer b.
Proof. induction 1 as [|p q a b [Hl _] _ IH]; simpl; congruence. Qed.

Lemma Forall2_insert_same_asset (picked : Selection) i p p' :
  picked !! i = Some p → same_asset p' p →
  Forall2 same_asset (<[i := p']> picked) picked.
Proof.
  revert i. induction picked as [|q picked IH]; intros i; [done|].
  destruct i as [|i]; simpl.
  - intros [= ->] H. constructor; [done|apply Forall2_same_asset_refl].
  - intros Hi H. constructor; [done|]. by apply IH.
Qed.

(** The mandatory-layer turn does nothing once every catalog layer is
    represented among the picks. *)
Lemma add_mandatory_id layers st m :
  (∀ l, l ∈ layers → Layer.id l ∈ map Pick.layer st.1) →
  add_mandatory layers st m = st.
Proof.
  intros Hall. destruct st as [picked order]. unfold add_mandatory.
  destruct (has_layer picked m) eqn:Hh; [done|].
  destruct (find_layer layers m) as [l|] eqn:Hf; [|done].
  apply find_layer_Some in Hf as [Hl <-].
  apply Hall, has_layer_true in Hl. simpl in Hl. congruence.
Qed.

Lemma foldl_add_mandatory_id layers st ms :
  (∀ l, l ∈ layers → Layer.id l ∈ map Pick.layer st.1) →
  foldl (add_mandatory layers) st ms = st.
Proof.
  intros Hall. induction ms as [|m ms IH]; simpl; [done|].
  by rewrite add_mandatory_id.
Qed.

(** A requirement turn never appends once every catalog layer is
    represented: it renames a pick in place or does nothing. *)
Lemma apply_requirement_frame layers picked order entry :
  (∀ l, l ∈ layers → Layer.id l ∈ map Pick.layer picked) →
  let st' := apply_requirement layers (picked, order) entry in
  st'.2 = order ∧ Forall2 same_asset st'.1 picked.
Proof.
  intros Hall. destruct entry as [layerName valueName].
  unfold apply_requirement.
  destruct (findIndex picked layerName) as [idx|] eqn:Hidx.
  - destruct (picked !! idx) as [p|] eqn:Hp; cbn [fst snd].
    + split; [done|]. by eapply Forall2_insert_same_asset.
    + split; [done|apply Forall2_same_asset_refl].
  - destruct (find_layer layers layerName) as [l|] eqn:Hf.
    + apply find_layer_Some in Hf as [Hl <-].
      apply findIndex_None in Hidx. by apply Hall in Hl.
    + split; [done|apply Forall2_same_asset_refl].
Qed.

Lemma foldl_apply_requirement_frame layers picked order entries :
  (∀ l, l ∈ layers → Layer.id l ∈ map Pick.layer picked) →
  let st' := foldl (apply_requirement layers) (picked, order) entries in
  st'.2 = order ∧ Forall2 same_asset st'.1 picked.
Proof.
  revert picked. induction entries as [|entry entries IH]; intros picked Hall.
  - simpl. split; [done|apply Forall2_same_asset_refl].
  - cbn [foldl].
    destruct (apply_requirement_frame layers picked order entry Hall) as [Ho Hs].
    destruct (apply_requirement layers (picked, order) entry) as [picked1 order1].
    cbn [fst snd] in Ho, Hs. subst order1.
    assert (Hall1 : ∀ l, l ∈ layers → Layer.id l ∈ map Pick.layer picked1).
    { intros l Hl. rewrite (Forall2_same_asset_layers _ _ Hs). by apply Hall. }
    destruct (IH picked1 Hall1) as [Ho' Hs'].
    split; [done|].
    eapply Forall2_trans; [|exact Hs'|exact Hs].
    apply same_asset_trans.
Qed.

Lemma Forall2_picked_from_layers picked layers :
  Forall2 picked_from picked layers →
  map Pick.layer picked = map Layer.id layers.
Proof. induction 1 as [|p l a b [Hl _] _ IH]; simpl; congruence. Qed.

Lemma picked_from_all picked layers :
  Forall2 picked_from picked layers →
  ∀ l, l ∈ layers → Layer.id l ∈ map Pick.layer picked.
Proof.
  intros H l Hl. rewrite (Forall2_picked_from_layers _ _ H).
  apply list_elem_of_fmap. by exists l.
Qed.

(** What [draw_traits] returns: the picks of the first loop. *)
Lemma draw_traits_spec layers g :
  wf_catalog layers →
  draw_traits cfg layers g = pick_each layers 0 g.
Proof.
  intros Hwf. unfold draw_traits. rand_unfold.
  destruct (pick_each_spec layers Hwf 0 g) as (H1 & _).
  destruct (pick_each layers 0 g) as [st g']. cbn [fst snd] in *.
  f_equal. apply foldl_add_mandatory_id. by apply picked_from_all.
Qed.
End RequirementFacts.

(** ** Sets and maps *)

Section ContainerFacts.
Context {K V : Type} `{EqDecision K}.

Lemma JsSet_has_true (s : list K) x : JsSet.has s x = true ↔ x ∈ s.
Proof. unfold JsSet.has. apply bool_decide_eq_true. Qed.

Lemma JsSet_elem_of_add (s : list K) x y : y ∈ JsSet.add s x ↔ y = x ∨ y ∈ s.
Proof.
  unfold JsSet.add, JsSet.has. case_bool_decide as Hx.
  - split; [by right|]. intros [->|]; done.
  - rewrite elem_of_app, list_elem_of_singleton. tauto.
Qed.

Lemma JsSet_elem_of_foldl (l s : list K) y :
  y ∈ foldl JsSet.add s l ↔ y ∈ l ∨ y ∈ s.
Proof.
  revert s. induction l as [|x l IH]; intros s; simpl.
  - rewrite elem_of_nil. tauto.
  - rewrite IH, JsSet_elem_of_add, elem_of_cons. tauto.
Qed.

Lemma JsSet_elem_of_list (l : list K) y : y ∈ JsSet.of_list l ↔ y ∈ l.
Proof.
  unfold JsSet.of_list. rewrite JsSet_elem_of_foldl, elem_of_nil. tauto.
Qed.

Lemma JsSet_add_NoDup (s : list K) x : NoDup s → NoDup (JsSet.add s x).
Proof.
  intros Hs. unfold JsSet.add, JsSet.has. case_bool_decide as Hx; [done|].
  apply NoDup_app. split; [done|]. split; [|apply NoDup_singleton].
  intros y Hy ->%list_elem_of_singleton. done.
Qed.

Lemma JsMap_get_set (m : list (K * V)) k v k' :
  JsMap.get (JsMap.set m k v) k' = if decide (k = k') then Some v else JsMap.get m k'.
Proof.
  induction m as [|[k0 v0] m IH]; simpl.
  - destruct (decide (k = k')); done.
  - destruct (decide (k0 = k)) as [->|Hne]; simpl.
    + destruct (decide (k = k')); done.
    + destruct (decide (k0 = k')) as [->|Hne'].
      * destruct (decide (k = k')); [congruence|done].
      * done.
Qed.

Lemma JsMap_set_keys_NoDup (m : list (K * V)) k v :
  NoDup (map fst m) → NoDup (map fst (JsMap.set m k v)) ∧
  ∀ k', k' ∈ map fst (JsMap.set m k v) ↔ k' = k ∨ k' ∈ map fst m.
Proof.
  induction m as [|[k0 v0] m IH]; simpl; intros Hnd.
  - split; [apply NoDup_singleton|]. intros k'. by rewrite elem_of_cons.
  - apply NoDup_cons in Hnd as [Hk0 Hnd]. destruct (IH Hnd) as [IH1 IH2].
    destruct (decide (k0 = k)) as [->|Hne]; simpl.
    + split; [by apply NoDup_cons|]. intros k'. rewrite elem_of_cons. tauto.
    + split.
      * apply NoDup_cons. split; [|done]. rewrite IH2. intros [?|?]; done.
      * intros k'. rewrite !elem_of_cons, IH2. tauto.
Qed.

Lemma JsMap_get_elem (m : list (K * V)) k v :
  NoDup (map fst m) → JsMap.get m k = Some v → (k, v) ∈ m.
Proof.
  induction m as [|[k0 v0] m IH]; simpl; [done|].
  intros Hnd%NoDup_cons. destruct Hnd as [_ Hnd].
  destruct (decide (k0 = k)) as [->|Hne].
  - intros [= ->]. by left.
  - intros H. right. by apply IH.
Qed.
End ContainerFacts.

(** ** Incompatibility rules *)

Section IncompatibilityFacts.
Variable cfg : Config.

(** [violatesIncompatibilities] reports a selection exactly when one of
    its trait ids is a key of the table and lists another of its trait
    ids as forbidden. *)
Lemma violatesIncompatibilities_true (selection : Selection) :
  violatesIncompatibilities cfg selection = true ↔
  ∃ k bad b, k ∈ chosen_keys selection ∧ incompatible cfg !! k = Some bad ∧
             b ∈ bad ∧ b ∈ chosen_keys selection.
Proof.
  unfold violatesIncompatibilities. rewrite existsb_exists. split.
  - intros (k & Hk & Hbad). apply list_elem_of_In in Hk.
    destruct (incompatible cfg !! k) as [bad|] eqn:Hlook; [|done].
    apply existsb_exists in Hbad as (b & Hb & Hhas).
    apply list_elem_of_In in Hb. apply JsSet_has_true in Hhas.
    by exists k, bad, b.
  - intros (k & bad & b & Hk & Hlook & Hb & Hin).
    exists k. split; [by apply list_elem_of_In|]. rewrite Hlook.
    apply existsb_exists. exists b. split; [by apply list_elem_of_In|].
    by apply JsSet_has_true.
Qed.

(** A rule "A:x" -> [..., "B:y", ...] makes the check report every
    selection that holds both A:x and B:y. *)
Lemma violatesIncompatibilities_rule (selection : Selection) k bad b :
  incompatible cfg !! k = Some bad → b ∈ bad →
  k ∈ chosen_keys selection → b ∈ chosen_keys selection →
  violatesIncompatibilities cfg selection = true.
Proof.
  intros Hlook Hb Hk Hin. apply violatesIncompatibilities_true.
  by exists k, bad, b.
Qed.
End IncompatibilityFacts.

(** ** Requirement overrides *)

Section OverrideFacts.
Variable cfg : Config.

Lemma Forall2_insert_refl {A} (R : A → A → Prop) (l : list A) i x x' :
  (∀ a, R a a) → l !! i = Some x → R x' x → Forall2 R (<[i := x']> l) l.
Proof.
  intros Hrefl.
  assert (Hall : ∀ k : list A, Forall2 R k k) by (induction k; constructor; done).
  revert i. induction l as [|a l IH]; intros i; [done|].
  destruct i as [|i]; simpl.
  - intros [= ->] H. by constructor.
  - intros Hi H. constructor; [done|]. by apply IH.
Qed.

Lemma Forall2_map_eq {A B C} (f : A → C) (g : B → C) l k :
  Forall2 (λ a b, f a = g b) l k → map f l = map g k.
Proof. induction 1; simpl; congruence. Qed.

Lemma by_order_same_asset a a' b b' :
  same_asset a b → same_asset a' b' → by_order a a' = by_order b b'.
Proof. intros (_&_&_&Ho) (_&_&_&Ho'). unfold by_order. by rewrite Ho, Ho'. Qed.

(** Picks that differ only in [name] and [id] compose the same image. *)
Lemma composeImage_same_asset (sel' sel : Selection) :
  Forall2 same_asset sel' sel → composeImage sel' = composeImage sel.
Proof.
  intros H. unfold composeImage. apply Forall2_map_eq.
  eapply Forall2_impl.
  - apply (sort_Forall2 same_asset by_order by_order); [|exact H].
    intros. by apply by_order_same_asset.
  - by intros p' p (_&_&Hp&_).
Qed.

Lemma overridden_same_asset layerName valueName p' p :
  overridden layerName valueName p' p → same_asset p' p.
Proof. intros [->|[_ ->]]; done. Qed.

(** C10. When a requirement override finds the target layer among the
    picks, it rewrites that pick in place: [name] becomes the forced value
    and [id] the matching trait key, while layer, weight, asset path and
    render order stay those of the element drawn; no other pick changes
    and the order counter does not move.  Hence the composed image stacks
    the same asset files as before the override, and the attribute list of
    the metadata keeps its trait types and reports the forced value for
    that layer. *)
Theorem override_in_place_keeps_asset
    (layers : list Layer.t) (picked : Selection) (order : Z)
    (layerName : string) (valueName : option string) (idx : nat) (p : Pick.t) :
  findIndex picked layerName = Some idx →
  picked !! idx = Some p →
  let st' := apply_requirement layers (picked, order) (layerName, valueName) in
  let p' := Pick.rename p valueName (traitKey layerName valueName) in
  st'.1 = <[idx := p']> picked ∧ st'.2 = order ∧
  st'.1 !! idx = Some p' ∧
  Pick.name p' = valueName ∧ Pick.id p' = traitKey layerName valueName ∧
  Pick.layer p' = Pick.layer p ∧ Pick.weight p' = Pick.weight p ∧
  Pick.path p' = Pick.path p ∧ Pick._order p' = Pick._order p ∧
  (∀ j, j ≠ idx → st'.1 !! j = picked !! j) ∧
  composeImage st'.1 = composeImage picked ∧
  map fst (attributes st'.1) = map fst (attributes picked) ∧
  (layerName, valueName) ∈ attributes st'.1.
Proof.
  intros Hidx Hp. cbn zeta. unfold apply_requirement. rewrite Hidx, Hp.
  cbn [fst snd].
  assert (Hlt : (idx < length picked)%nat) by by eapply lookup_lt_Some.
  assert (Hrel : Forall2 (overridden layerName valueName)
                   (<[idx := Pick.rename p valueName (traitKey layerName valueName)]> picked)
                   picked).
  { apply (Forall2_insert_refl _ _ _ p); [by left|done|].
    right. split; [|done].
    apply findIndex_Some in Hidx as (q & Hq & Hl). congruence. }
  assert (Hsorted : Forall2 (overridden layerName valueName)
            (sort by_order (<[idx := Pick.rename p valueName (traitKey layerName valueName)]> picked))
            (sort by_order picked)).
  { apply (sort_Forall2 _ by_order by_order); [|done].
    intros a a' b b' H1%overridden_same_asset H2%overridden_same_asset.
    by apply by_order_same_asset. }
  repeat split; try done.
  - by apply list_lookup_insert_eq.
  - intros j Hj. by apply list_lookup_insert_ne.
  - apply composeImage_same_asset.
    eapply Forall2_impl; [exact Hrel|]. apply overridden_same_asset.
  - unfold attributes. rewrite !map_map. apply Forall2_map_eq.
    eapply Forall2_impl; [exact Hsorted|].
    intros a b Hab. by destruct (overridden_same_asset _ _ _ _ Hab) as [-> _].
  - unfold attributes. apply list_elem_of_fmap.
    exists (Pick.rename p valueName (traitKey layerName valueName)).
    split.
    + simpl. f_equal. apply findIndex_Some in Hidx as (q & Hq & Hl). congruence.
    + rewrite (sort_Permutation by_order).
      apply list_elem_of_lookup. exists idx. by apply list_lookup_insert_eq.
Qed.
End OverrideFacts.

(** ** One pick per catalog layer *)

Section OnePerLayer.
Variable cfg : Config.

Lemma pickTraitsForLayers_unfold layers g :
  wf_catalog layers →
  pickTraitsForLayers cfg layers g =
  ((foldl (apply_requirement layers) (pick_each layers 0 g).1
      (enforceRequirements cfg (pick_each layers 0 g).1.1)).1,
   {| draws := draws g; pos := (pos g + length layers)%nat |}).
Proof.
  intros Hwf. unfold pickTraitsForLayers. rand_unfold.
  rewrite draw_traits_spec by done.
  destruct (pick_each_spec layers Hwf 0 g) as (_ & _ & _ & _ & Hg).
  destruct (pick_each layers 0 g) as [st g']. cbn [fst snd] in *. by subst g'.
Qed.

(** C9. For a catalog as [readLayers] builds it, the selection returned
    by [pickTraitsForLayers] holds exactly one pick per catalog layer, in
    catalog order, numbered 0, 1, 2, ...: the pick bears the layer's name
    and the asset and weight of one of its elements.  The first loop
    already yields such a selection, the loop over [mandatoryLayers]
    leaves it as it is, and the requirement loop leaves its length and its
    order counter as they are: it only renames picks in place. *)
Theorem one_pick_per_layer (layers : list Layer.t) (g : Rng) :
  wf_catalog layers →
  let drawn := (pick_each layers 0 g).1 in
  let selection := (pickTraitsForLayers cfg layers g).1 in
  Forall2 picked_from selection layers ∧
  length selection = length layers ∧
  map Pick._order selection = seqZ 0 (Z.of_nat (length layers)) ∧
  Forall2 picked_from drawn.1 layers ∧
  foldl (add_mandatory layers) drawn (mandatoryLayers cfg) = drawn ∧
  (foldl (apply_requirement layers) drawn (enforceRequirements cfg drawn.1)).2
    = drawn.2 ∧
  Forall2 same_asset selection drawn.1.
Proof.
  intros Hwf. cbn zeta. rewrite pickTraitsForLayers_unfold by done. cbn [fst snd].
  destruct (pick_each_spec layers Hwf 0 g) as (H1 & H2 & _ & _ & _).
  destruct (pick_each layers 0 g) as [[picked order] g']. cbn [fst snd] in *.
  pose proof (picked_from_all _ _ H1) as Hall.
  destruct (foldl_apply_requirement_frame layers picked order
              (enforceRequirements cfg picked) Hall) as [Ho Hs].
  assert (Hsel : Forall2 picked_from
            (foldl (apply_requirement layers) (picked, order)
               (enforceRequirements cfg picked)).1 layers).
  { eapply Forall2_trans; [|exact Hs|exact H1].
    intros p' p l (Hl & Hw & Hp & _) (Hl' & e & He & Hp' & Hw').
    split; [congruence|]. exists e. repeat split; congruence. }
  repeat split; try done.
  - by apply Forall2_length in Hsel.
  - rewrite <- H2. apply Forall2_map_eq.
    eapply Forall2_impl; [exact Hs|]. by intros p' p (_&_&_&Ho').
  - by apply foldl_add_mandatory_id.
Qed.

(** C5 (amended). A requirement override is best-effort.  Given picks that
    all come from catalog layers: when the target layer is not in the
    catalog, the override adds nothing and leaves the selection as it is.
    When the layer is in the catalog but none of its elements has the
    requested value, no trait is added either (same length, same order
    counter, same assets), but a pick of that layer already in the
    selection is still renamed in place to the requested value. *)
Theorem missing_requirement_target
    (layers : list Layer.t) (picked : Selection) (order : Z)
    (layerName : string) (valueName : option string) :
  (∀ p, p ∈ picked → Pick.layer p ∈ map Layer.id layers) →
  let st' := apply_requirement layers (picked, order) (layerName, valueName) in
  (layerName ∉ map Layer.id layers → st' = (picked, order)) ∧
  ((∀ l e, l ∈ layers → Layer.id l = layerName → e ∈ Layer.elements l →
           Some (Element.name e) ≠ valueName) →
   length st'.1 = length picked ∧ st'.2 = order ∧
   Forall2 same_asset st'.1 picked ∧
   (∀ idx p, findIndex picked layerName = Some idx → picked !! idx = Some p →
      st'.1 = <[idx := Pick.rename p valueName (traitKey layerName valueName)]> picked) ∧
   (findIndex picked layerName = None → st'.1 = picked)).
Proof.
  intros Hfrom. cbn zeta. unfold apply_requirement. split.
  - intros Hnot.
    destruct (findIndex picked layerName) as [idx|] eqn:Hidx.
    + apply findIndex_Some in Hidx as (p & Hp & Hl). exfalso. apply Hnot.
      rewrite <- Hl. apply Hfrom. by eapply list_elem_of_lookup_2.
    + apply find_layer_None in Hnot. by rewrite Hnot.
  - intros Hval.
    destruct (findIndex picked layerName) as [idx|] eqn:Hidx.
    + destruct (picked !! idx) as [p|] eqn:Hp; cbn [fst snd].
      * repeat split; try done.
        -- apply length_insert.
        -- by eapply (Forall2_insert_refl same_asset).
        -- intros idx' p' [= <-] Hp'. congruence.
      * apply findIndex_Some in Hidx as (p & Hp' & _). congruence.
    + destruct (find_layer layers layerName) as [l|] eqn:Hf.
      * apply find_layer_Some in Hf as [Hl Hid].
        destruct (List.find _ (Layer.elements l)) as [found|] eqn:Hfound.
        -- apply find_some in Hfound as [Hin Hname].
           apply bool_decide_eq_true in Hname. apply list_elem_of_In in Hin.
           by destruct (Hval l found Hl Hid Hin).
        -- cbn [fst snd]. repeat split; try done.
           apply Forall2_same_asset_refl.
      * cbn [fst snd]. repeat split; try done. apply Forall2_same_asset_refl.
Qed.
End OnePerLayer.

(** ** Requirement rules *)

Section RequirementRules.
Variable cfg : Config.

Lemma split_no_sep c s : has_char c s = false → JsStr.split c s = [s].
Proof.
  induction s as [|a s IH]; simpl; [done|].
  intros [Ha Hs]%orb_false_iff. rewrite Ha, (IH Hs). done.
Qed.

Lemma split_at_sep c a b :
  has_char c a = false →
  JsStr.split c (a +:+ String c b) = a :: JsStr.split c b.
Proof.
  induction a as [|x a IH]; simpl.
  - intros _. by rewrite Ascii.eqb_refl.
  - intros [Hx Ha]%orb_false_iff. rewrite Hx, (IH Ha). done.
Qed.

(** A well-formed target "B:y" is read back as layer B and value y. *)
Lemma split_target_key B y :
  has_char ":" B = false → has_char ":" y = false →
  split_target (traitKey B (Some y)) = (B, Some y).
Proof.
  intros HB Hy. unfold split_target, traitKey. cbn [show].
  change (B +:+ ":" +:+ y) with (B +:+ String ":" y).
  rewrite (split_at_sep ":" B y HB), (split_no_sep ":" y Hy). done.
Qed.

Lemma findIndex_layers (a b : Selection) m :
  map Pick.layer a = map Pick.layer b → findIndex a m = findIndex b m.
Proof.
  revert b. induction a as [|p a IH]; intros [|q b]; simpl; try done.
  intros [= Hl Hrest]. rewrite Hl, (IH b Hrest). done.
Qed.

Lemma apply_requirement_other layers picked order layerName v B idx :
  (∀ l, l ∈ layers → Layer.id l ∈ map Pick.layer picked) →
  findIndex picked B = Some idx → layerName ≠ B →
  (apply_requirement layers (picked, order) (layerName, v)).1 !! idx = picked !! idx.
Proof.
  intros Hall HB Hne. unfold apply_requirement.
  destruct (findIndex picked layerName) as [i|] eqn:Hi.
  - destruct (picked !! i) as [p|] eqn:Hp; cbn [fst]; [|done].
    apply list_lookup_insert_ne. intros ->.
    apply findIndex_Some in Hi as (q & Hq & Hl).
    apply findIndex_Some in HB as (q' & Hq' & Hl'). congruence.
  - destruct (find_layer layers layerName) as [l|] eqn:Hf; [|done].
    apply find_layer_Some in Hf as [Hl <-].
    apply findIndex_None in Hi. by apply Hall in Hl.
Qed.

Lemma foldl_requirement_kept layers entries picked order B idx :
  (∀ l, l ∈ layers → Layer.id l ∈ map Pick.layer picked) →
  findIndex picked B = Some idx → B ∉ map fst entries →
  (foldl (apply_requirement layers) (picked, order) entries).1 !! idx = picked !! idx.
Proof.
  revert picked. induction entries as [|[layerName v] entries IH];
    intros picked Hall HB Hnot; [done|].
  cbn [foldl]. simpl in Hnot. apply not_elem_of_cons in Hnot as [Hne Hnot].
  pose proof (apply_requirement_other layers picked order layerName v B idx
                Hall HB (not_eq_sym Hne)) as Hkeep.
  destruct (apply_requirement_frame layers picked order (layerName, v) Hall) as [Ho Hs].
  destruct (apply_requirement layers (picked, order) (layerName, v)) as [picked1 order1].
  cbn [fst snd] in *. subst order1.
  pose proof (Forall2_same_asset_layers _ _ Hs) as Hlayers.
  rewrite IH; [done| |by rewrite (findIndex_layers _ _ B Hlayers)|done].
  intros l Hl. rewrite Hlayers. by apply Hall.
Qed.

(** The entry of [mustAdd] for a layer present among the picks decides
    the name of the first pick of that layer. *)
Lemma foldl_requirement_forced layers entries picked order B y :
  (∀ l, l ∈ layers → Layer.id l ∈ map Pick.layer picked) →
  NoDup (map fst entries) → (B, y) ∈ entries → B ∈ map Pick.layer picked →
  ∃ idx p, findIndex picked B = Some idx ∧
    (foldl (apply_requirement layers) (picked, order) entries).1 !! idx = Some p ∧
    Pick.layer p = B ∧ Pick.name p = y.
Proof.
  revert picked. induction entries as [|[layerName v] entries IH];
    intros picked Hall Hnd Hin HB; [by apply elem_of_nil in Hin|].
  simpl in Hnd. apply NoDup_cons in Hnd as [Hfresh Hnd].
  cbn [foldl].
  destruct (apply_requirement_frame layers picked order (layerName, v) Hall) as [Ho Hs].
  pose proof (Forall2_same_asset_layers _ _ Hs) as Hlayers.
  apply elem_of_cons in Hin as [[= <- <-]|Hin].
  - destruct (findIndex picked B) as [idx|] eqn:Hidx;
      [|by apply findIndex_None in Hidx].
    destruct (findIndex_Some _ _ _ Hidx) as (p & Hp & Hl).
    exists idx, (Pick.rename p y (traitKey B y)). split; [done|].
    assert (Hstep : apply_requirement layers (picked, order) (B, y)
                    = (<[idx := Pick.rename p y (traitKey B y)]> picked, order)).
    { unfold apply_requirement. by rewrite Hidx, Hp. }
    rewrite Hstep in *. cbn [fst snd] in *.
    rewrite foldl_requirement_kept with (B := B).
    + split; [|done]. apply list_lookup_insert_eq. by eapply lookup_lt_Some.
    + intros l Hl'. rewrite Hlayers. by apply Hall.
    + by rewrite (findIndex_layers _ _ B Hlayers).
    + done.
  - destruct (apply_requirement layers (picked, order) (layerName, v))
      as [picked1 order1]. cbn [fst snd] in *. subst order1.
    destruct (IH picked1) as (idx & p & Hidx & Hp & Hl & Hn); try done.
    + intros l Hl. rewrite Hlayers. by apply Hall.
    + by rewrite Hlayers.
    + exists idx, p. rewrite <- (findIndex_layers _ _ B Hlayers). done.
Qed.

Lemma requirement_targets_NoDup (reqs : list string) (m : list (string * option string)) :
  NoDup (map fst m) →
  NoDup (map fst (foldl (λ mustAdd target,
     let '(layer, value) := split_target target in JsMap.set mustAdd layer value) m reqs)).
Proof.
  revert m. induction reqs as [|t reqs IH]; intros m Hm; [done|].
  cbn [foldl]. apply IH. destruct (split_target t) as [layer value].
  by apply JsMap_set_keys_NoDup.
Qed.

Lemma enforceRequirements_NoDup selection :
  NoDup (map fst (enforceRequirements cfg selection)).
Proof.
  unfold enforceRequirements.
  generalize (chosen_keys selection) as ks.
  assert (H0 : NoDup (map fst (@nil (string * option string)))) by constructor.
  revert H0. generalize (@nil (string * option string)) as m.
  intros m Hm ks. revert m Hm.
  induction ks as [|k ks IH]; intros m Hm; [done|].
  cbn [foldl]. apply IH. destruct (requires cfg !! k); [|done].
  by apply requirement_targets_NoDup.
Qed.

Lemma requirement_targets_get B y reqs (m : list (string * option string)) :
  agree_on B y reqs →
  let m' := foldl (λ mustAdd target,
     let '(layer, value) := split_target target in JsMap.set mustAdd layer value) m reqs in
  (JsMap.get m B = Some y → JsMap.get m' B = Some y) ∧
  ((∃ t, t ∈ reqs ∧ (split_target t).1 = B) → JsMap.get m' B = Some y).
Proof.
  revert m. induction reqs as [|t reqs IH]; intros m Hag; cbn zeta.
  - split; [done|]. intros (t & Ht & _). by apply elem_of_nil in Ht.
  - cbn [foldl].
    assert (Hag' : agree_on B y reqs).
    { intros t' Ht'. apply Hag. by right. }
    pose proof (Hag t (list_elem_of_here _ _)) as Ht.
    destruct (split_target t) as [layer value] eqn:Hst. cbn [fst snd] in Ht.
    destruct (IH (JsMap.set m layer value) Hag') as [IH1 IH2].
    assert (Hstep : JsMap.get m B = Some y ∨ layer = B →
                    JsMap.get (JsMap.set m layer value) B = Some y).
    { rewrite JsMap_get_set. destruct (decide (layer = B)) as [HB|HB].
      - intros _. f_equal. by apply Ht.
      - intros [?|?]; done. }
    split.
    + intros Hm. apply IH1, Hstep. by left.
    + intros (t' & [->|Ht']%elem_of_cons & HB).
      * apply IH1, Hstep. right. by rewrite Hst in HB.
      * apply IH2. by exists t'.
Qed.

Lemma enforceRequirements_get selection k reqs B y :
  k ∈ chosen_keys selection →
  requires cfg !! k = Some reqs →
  (∃ t, t ∈ reqs ∧ (split_target t).1 = B) →
  (∀ k' reqs', k' ∈ chosen_keys selection → requires cfg !! k' = Some reqs' →
               agree_on B y reqs') →
  JsMap.get (enforceRequirements cfg selection) B = Some y.
Proof.
  unfold enforceRequirements. generalize (chosen_keys selection) as ks.
  intros ks Hk Hreqs Hex Hag.
  set (step := λ (mustAdd : list (string * option string)) (k : string),
         match requires cfg !! k with
         | Some reqs =>
             foldl (λ mustAdd target,
               let '(layer, value) := split_target target in
               JsMap.set mustAdd layer value) mustAdd reqs
         | None => mustAdd
         end).
  assert (Hkeep : ∀ ks' m, (∀ k', k' ∈ ks' → k' ∈ ks) →
            JsMap.get m B = Some y → JsMap.get (foldl step m ks') B = Some y).
  { induction ks' as [|k' ks' IH]; intros m Hsub Hm; [done|].
    cbn [foldl]. apply IH; [intros; apply Hsub; by right|].
    unfold step. destruct (requires cfg !! k') as [reqs'|] eqn:Hr; [|done].
    apply (proj1 (requirement_targets_get B y reqs' m
                    (Hag k' reqs' (Hsub k' (list_elem_of_here _ _)) Hr))), Hm. }
  assert (Hmain : ∀ ks' m, (∀ k', k' ∈ ks' → k' ∈ ks) → k ∈ ks' →
            JsMap.get (foldl step m ks') B = Some y).
  { induction ks' as [|k' ks' IH]; intros m Hsub Hin; [by apply elem_of_nil in Hin|].
    cbn [foldl]. apply elem_of_cons in Hin as [<-|Hin].
    - apply Hkeep; [intros; apply Hsub; by right|].
      unfold step. rewrite Hreqs.
      apply (proj2 (requirement_targets_get B y reqs m
                      (Hag k reqs (Hsub k (list_elem_of_here _ _)) Hreqs))), Hex.
    - apply IH; [intros; apply Hsub; by right|done]. }
  by apply Hmain.
Qed.
End RequirementRules.

Section RequirementClaim.
Variable cfg : Config.

Lemma chosen_keys_elem (selection : Selection) p :
  p ∈ selection → traitKey (Pick.layer p) (Pick.name p) ∈ chosen_keys selection.
Proof.
  intros Hp. unfold chosen_keys. apply JsSet_elem_of_list.
  apply list_elem_of_fmap. by exists p.
Qed.

(** C6 (amended). Take a requirement rule "A:x" -> [..., "B:y", ...] with
    no colon inside B or y, a catalog as [readLayers] builds it that has a
    layer B, and a run of [pickTraitsForLayers] whose picks before
    enforcement include A:x.  If every requirement of a drawn trait that
    aims at layer B asks for y (otherwise the last one processed wins),
    then the returned selection carries value y in layer B, at the place
    of the first pick of layer B and with the asset, weight and render
    order of whatever element was drawn there. *)
Theorem requirement_rule_enforced
    (layers : list Layer.t) (g : Rng) (A x B y : string) (reqs : list string) :
  wf_catalog layers →
  has_char ":" B = false → has_char ":" y = false →
  requires cfg !! traitKey A (Some x) = Some reqs →
  traitKey B (Some y) ∈ reqs →
  B ∈ map Layer.id layers →
  let drawn := (draw_traits cfg layers g).1.1 in
  (∃ p, p ∈ drawn ∧ Pick.layer p = A ∧ Pick.name p = Some x) →
  (∀ k' reqs', k' ∈ chosen_keys drawn → requires cfg !! k' = Some reqs' →
               agree_on B (Some y) reqs') →
  ∃ idx p p0,
    findIndex drawn B = Some idx ∧ drawn !! idx = Some p0 ∧
    (pickTraitsForLayers cfg layers g).1 !! idx = Some p ∧
    Pick.layer p = B ∧ Pick.name p = Some y ∧ same_asset p p0.
Proof.
  intros Hwf HB Hy Hreqs Ht Hlayer. cbn zeta. intros (pa & Hpa & HA & Hx) Hag.
  rewrite pickTraitsForLayers_unfold by done.
  rewrite draw_traits_spec in * by done.
  destruct (pick_each_spec layers Hwf 0 g) as (H1 & _).
  destruct (pick_each layers 0 g) as [[picked order] g']. cbn [fst snd] in *.
  pose proof (picked_from_all _ _ H1) as Hall.
  assert (Hget : JsMap.get (enforceRequirements cfg picked) B = Some (Some y)).
  { eapply (enforceRequirements_get cfg picked (traitKey A (Some x)) reqs).
    - rewrite <- HA, <- Hx. by apply chosen_keys_elem.
    - done.
    - exists (traitKey B (Some y)). split; [done|]. by rewrite split_target_key.
    - done. }
  apply JsMap_get_elem in Hget; [|apply enforceRequirements_NoDup].
  destruct (foldl_requirement_forced layers _ picked order B (Some y) Hall
              (enforceRequirements_NoDup cfg picked) Hget)
    as (idx & p & Hidx & Hp & Hl & Hn).
  { rewrite (Forall2_picked_from_layers _ _ H1). done. }
  destruct (findIndex_Some _ _ _ Hidx) as (p0 & Hp0 & _).
  exists idx, p, p0. do 5 (split; [done|]).
  destruct (foldl_apply_requirement_frame layers picked order
              (enforceRequirements cfg picked) Hall) as [_ Hs].
  by eapply Forall2_lookup_lr in Hs.
Qed.
End RequirementClaim.

(** ** The search loop of one token *)

Section SearchFacts.
Variable cfg : Config.
Context {collation : Collation}.
Variable layers : list Layer.t.
Hypothesis Hwf : wf_catalog layers.

Lemma turn_shift g k :
  turn cfg layers {| draws := draws g; pos := (pos g + length layers)%nat |} k
  = turn cfg layers g (S k).
Proof. unfold turn. cbn [draws pos]. do 3 f_equal. lia. Qed.

Lemma turn_0 g : turn cfg layers g 0 = (pickTraitsForLayers cfg layers g).1.
Proof.
  unfold turn. destruct g as [d p]. cbn [draws pos]. do 3 f_equal. lia.
Qed.

(** The loop runs S n turns for some n.  It stops as soon as the loop
    condition fails, never for lack of fuel. *)
Lemma search_spec seen fuel attempts dna g :
  uniqueDnaTorrance cfg - attempts - 1 ≤ Z.of_nat fuel →
  ∃ n : nat,
    let r := search cfg layers seen fuel attempts dna g in
    r.1.1.2 = attempts + Z.of_nat (S n) ∧
    (n = O ∨ attempts + Z.of_nat (S n) ≤ uniqueDnaTorrance cfg) ∧
    r.2 = {| draws := draws g; pos := (pos g + S n * length layers)%nat |} ∧
    r.1.1.1 = turn cfg layers g n ∧
    (∀ k, (k < n)%nat →
       violatesIncompatibilities cfg (turn cfg layers g k) = true ∨
       JsSet.has seen (Some (dnaFromSelection (turn cfg layers g k))) = true) ∧
    (r.1.1.2 < uniqueDnaTorrance cfg → JsSet.has seen r.1.2 = false) ∧
    (violatesIncompatibilities cfg r.1.1.1 = false →
       r.1.2 = Some (dnaFromSelection r.1.1.1)).
Proof.
  revert attempts dna g.
  induction fuel as [|fuel IH]; intros attempts dna g Hfuel.
  - exists O. cbn zeta. cbn [search]. rand_unfold.
    pose proof (pickTraitsForLayers_unfold cfg layers g Hwf) as Hpick.
    pose proof (turn_0 g) as Ht0. rewrite Hpick in Ht0. cbn [fst] in Ht0.
    rewrite Hpick.
    set (sel := (foldl _ _ _).1) in *.
    set (dna' := if violatesIncompatibilities cfg sel then dna
                 else Some (dnaFromSelection sel)).
    assert (Hlt : (attempts + 1 <? uniqueDnaTorrance cfg) = false) by lia.
    rewrite Hlt, andb_false_r. cbn [fst snd].
    repeat split.
    + by left.
    + f_equal; lia.
    + by rewrite Ht0.
    + intros k Hk. lia.
    + intros H. lia.
    + intros Hc. subst dna'. by rewrite Hc.
  - cbn [search]. rand_unfold.
    pose proof (pickTraitsForLayers_unfold cfg layers g Hwf) as Hpick.
    pose proof (turn_0 g) as Ht0. rewrite Hpick in Ht0. cbn [fst] in Ht0.
    rewrite Hpick.
    set (sel := (foldl _ _ _).1) in *.
    set (dna' := if violatesIncompatibilities cfg sel then dna
                 else Some (dnaFromSelection sel)).
    destruct (JsSet.has seen dna' && (attempts + 1 <? uniqueDnaTorrance cfg)) eqn:Hc.
    + apply andb_true_iff in Hc as [Hseen Hlt].
      destruct (IH (attempts + 1) dna'
                  {| draws := draws g; pos := (pos g + length layers)%nat |})
        as (n & H1 & H2 & H3 & H4 & H5 & H6 & H7); [lia|].
      exists (S n). cbn zeta in *. cbn [draws pos] in *.
      repeat split.
      * rewrite H1. lia.
      * right. destruct H2 as [->|H2]; lia.
      * rewrite H3. f_equal. lia.
      * by rewrite H4, turn_shift.
      * intros [|k] Hk.
        -- rewrite Ht0. subst dna'.
           destruct (violatesIncompatibilities cfg sel); [by left|by right].
        -- rewrite <- turn_shift. apply H5. lia.
      * done.
      * done.
    + exists O. cbn zeta. cbn [fst snd]. repeat split.
      * by left.
      * f_equal; lia.
      * by rewrite Ht0.
      * intros k Hk. lia.
      * intros Hlt. apply andb_false_iff in Hc as [Hc|Hc]; [done|lia].
      * intros Hv. subst dna'. by rewrite Hv.
Qed.
End SearchFacts.

Section TokenSlot.
Variable cfg : Config.
Context {collation : Collation}.

(** C2 (amended). For every token slot, on a catalog as [readLayers]
    builds it: the search loop makes between 1 and max(1, ceiling) turns,
    each of which draws one selection and increments the attempt counter,
    whether the selection is then rejected as incompatible or as a
    duplicate; every turn before the last was rejected for one of these
    two reasons.  The slot fails exactly when the counter has reached
    [uniqueDnaTorrance] at loop exit, even if the selection of that last
    turn is compatible and new: then nothing is recorded and the shortfall
    counter grows by exactly 1.  The slot succeeds exactly when the loop
    stops below the ceiling: then the fingerprint held by the loop is
    absent from the seen-set and is added to it, and it is the
    fingerprint of the selection whenever that selection is compatible. *)
Theorem token_slot_outcome (layers : list Layer.t) (st : State) (edition : Z) (g : Rng) :
  wf_catalog layers →
  let ceiling := uniqueDnaTorrance cfg in
  let r := search cfg layers (dnaSet st) (Z.to_nat ceiling) 0 None g in
  let selection := r.1.1.1 in
  let attempts := r.1.1.2 in
  let dna := r.1.2 in
  let out := generate cfg layers st edition g in
  1 ≤ attempts ∧ attempts ≤ Z.max 1 ceiling ∧
  r.2 = {| draws := draws g;
           pos := (pos g + Z.to_nat attempts * length layers)%nat |} ∧
  out.2 = r.2 ∧
  selection = turn cfg layers g (Z.to_nat attempts - 1) ∧
  (∀ k, (k < Z.to_nat attempts - 1)%nat →
     violatesIncompatibilities cfg (turn cfg layers g k) = true ∨
     JsSet.has (dnaSet st) (Some (dnaFromSelection (turn cfg layers g k))) = true) ∧
  (ceiling ≤ attempts → out.1 = skipped st) ∧
  (attempts < ceiling →
     JsSet.has (dnaSet st) dna = false ∧
     (violatesIncompatibilities cfg selection = false →
        dna = Some (dnaFromSelection selection)) ∧
     dnaSet out.1 = dnaSet st ++ [dna] ∧
     failures out.1 = failures st ∧
     tokens out.1 = tokens st ++ [(edition, selection)] ∧
     allMetadata out.1 =
       allMetadata st ++ [metadataForToken cfg edition selection (imageUri cfg edition)]).
Proof.
  intros Hwf. cbn zeta.
  destruct (search_spec cfg layers Hwf (dnaSet st)
              (Z.to_nat (uniqueDnaTorrance cfg)) 0 None g)
    as (n & H1 & H2 & H3 & H4 & H5 & H6 & H7); [lia|].
  cbn zeta in *. unfold generate. rand_unfold.
  destruct (search cfg layers (dnaSet st) _ 0 None g) as [[[sel att] dna] g'].
  cbn [fst snd] in *. subst att.
  replace (Z.to_nat (0 + Z.of_nat (S n)) - 1)%nat with n by lia.
  replace (Z.to_nat (0 + Z.of_nat (S n))) with (S n) by lia.
  split; [lia|]. split; [lia|]. split; [done|].
  destruct (uniqueDnaTorrance cfg <=? 0 + Z.of_nat (S n)) eqn:Hc; cbn [fst snd].
  - apply Z.leb_le in Hc.
    split; [done|]. split; [done|]. split; [done|]. split; [done|]. lia.
  - apply Z.leb_gt in Hc.
    split; [done|]. split; [done|]. split; [done|]. split; [lia|].
    intros Hlt. split; [by apply H6|]. split; [done|].
    split; [|done].
    unfold JsSet.add. by rewrite (H6 Hlt).
Qed.
End TokenSlot.

(** ** The edition loop *)

Section EditionFacts.
Variable cfg : Config.
Context {collation : Collation}.
Variable layers : list Layer.t.
Hypothesis Hwf : wf_catalog layers.

(** A token slot either is skipped or records a fingerprint that the
    seen-set did not hold. *)
Lemma generate_cases st edition g :
  let out := generate cfg layers st edition g in
  out.1 = skipped st ∨
  ∃ selection dna,
    JsSet.has (dnaSet st) dna = false ∧
    dnaSet out.1 = dnaSet st ++ [dna] ∧
    tokens out.1 = tokens st ++ [(edition, selection)] ∧
    allMetadata out.1 =
      allMetadata st ++ [metadataForToken cfg edition selection (imageUri cfg edition)].
Proof.
  cbn zeta.
  destruct (search_spec cfg layers Hwf (dnaSet st)
              (Z.to_nat (uniqueDnaTorrance cfg)) 0 None g)
    as (n & _ & _ & _ & _ & _ & Hnew & _); [lia|].
  cbn zeta in Hnew. unfold generate. rand_unfold.
  destruct (search cfg layers (dnaSet st) _ 0 None g) as [[[sel att] dna] g'].
  cbn [fst snd] in *.
  destruct (uniqueDnaTorrance cfg <=? att) eqn:Hc; cbn [fst snd].
  - by left.
  - apply Z.leb_gt in Hc. right. exists sel, dna.
    split; [by apply Hnew|]. split; [|done].
    unfold JsSet.add. by rewrite (Hnew Hc).
Qed.

Lemma generate_invariant st edition g :
  run_invariant cfg st → run_invariant cfg (generate cfg layers st edition g).1.
Proof.
  intros (Hnd & Hlen & Hmeta).
  destruct (generate_cases st edition g) as [Hskip|(sel & dna & Hnew & Hset & Htok & Hall)].
  - rewrite Hskip. done.
  - unfold run_invariant. rewrite Hset, Htok, Hall.
    split; [|split].
    + apply NoDup_app. split; [done|]. split; [|apply NoDup_singleton].
      intros x Hx ->%list_elem_of_singleton.
      apply JsSet_has_true in Hx. congruence.
    + rewrite !length_app. simpl. lia.
    + rewrite map_app. simpl. by rewrite Hmeta.
Qed.

Lemma editions_invariant eds st g :
  run_invariant cfg st → run_invariant cfg (editions cfg layers eds st g).1.
Proof.
  revert st g. induction eds as [|edition eds IH]; intros st g Hinv; [done|].
  cbn [editions]. rand_unfold.
  pose proof (generate_invariant st edition g Hinv) as Hinv'.
  destruct (generate cfg layers st edition g) as [st' g'].
  by apply IH.
Qed.

(** The seen-set of a run has exactly one entry per accepted token. *)
Lemma fingerprint_set_size g :
  let st := (editions cfg layers (seqZ 1 (editionSize cfg)) initial g).1 in
  NoDup (dnaSet st) ∧ length (dnaSet st) = length (tokens st) ∧
  length (allMetadata st) = length (tokens st).
Proof.
  cbn zeta.
  destruct (editions_invariant (seqZ 1 (editionSize cfg)) initial g)
    as (H1 & H2 & H3).
  { repeat split; [constructor]. }
  repeat split; try done. rewrite H3. by rewrite length_map.
Qed.
End EditionFacts.

(** ** Worked runs *)

(** The runs of this section compare layer names by code units
    ([code_units]). *)
Section WorkedRuns.
#[local] Existing Instance code_units.
Import Examples.

(** C1. With the shipped rule "Base:Alien" -> ["Head:Crown"] and a catalog
    whose only possible selection is Base:Alien with Head:Crown,
    [violatesIncompatibilities] reports the selection, and yet the run
    accepts it as token 1: the [continue] of the first turn reaches the
    loop condition while [dna] is still [undefined], which the empty
    seen-set does not hold, so the loop ends after one attempt and
    [undefined] is recorded as the token's fingerprint. *)
Theorem incompatible_selection_accepted :
  ∃ st selection,
    final_state (main config_one listing_alien_crown (rng_const (Fin 0))).1 = Some st ∧
    tokens st = [(1, selection)] ∧
    attributes selection = [("Base", Some "Alien"); ("Head", Some "Crown")] ∧
    incompatible config_one !! "Base:Alien" = Some ["Head:Crown"] ∧
    violatesIncompatibilities config_one selection = true ∧
    dnaSet st = [None] ∧ failures st = 0 ∧ length (allMetadata st) = 1%nat.
Proof.
  eexists _, _. split; [vm_compute; reflexivity|].
  split; [reflexivity|]. vm_compute. by repeat split.
Qed.

(** C3. Two accepted tokens whose selections have the same fingerprint:
    token 1 is an incompatible selection accepted at its first attempt
    (its recorded fingerprint is [undefined]), token 2 a compatible
    selection whose fingerprint is the same string, the file names
    containing the separators "|" and ":". *)
Theorem accepted_tokens_share_fingerprint :
  ∃ st s1 s2,
    final_state (main config_separators listing_separators
                   (rng_then 2 (Fin 0) (Fin (3 # 4)))).1 = Some st ∧
    tokens st = [(1, s1); (2, s2)] ∧
    attributes s1 = [("A", Some "p"); ("B", Some "u|B:v")] ∧
    attributes s2 = [("A", Some "p|B:u"); ("B", Some "v")] ∧
    dnaFromSelection s1 = "A:p|B:u|B:v" ∧
    dnaFromSelection s2 = "A:p|B:u|B:v" ∧
    dnaSet st = [None; Some "A:p|B:u|B:v"] ∧ failures st = 0.
Proof.
  eexists _, _, _. split; [vm_compute; reflexivity|].
  split; [reflexivity|]. vm_compute. by repeat split.
Qed.

(** C2, as stated, fails: with ceiling 1 the only selection of the
    catalog is compatible and its fingerprint is not in the (empty)
    seen-set, yet the slot is a failure. *)
Lemma novel_selection_fails_at_ceiling :
  let layers := layers_of config_ceiling_one listing_base in
  let g := rng_const (Fin 0) in
  let r := search config_ceiling_one layers (dnaSet initial)
             (Z.to_nat (uniqueDnaTorrance config_ceiling_one)) 0 None g in
  violatesIncompatibilities config_ceiling_one r.1.1.1 = false ∧
  JsSet.has (dnaSet initial) (Some (dnaFromSelection r.1.1.1)) = false ∧
  r.1.1.2 = 1 ∧
  (generate config_ceiling_one layers initial 1 g).1 = skipped initial.
Proof. vm_compute. by repeat split. Qed.

(** C5, as stated, fails: the catalog has no value "Fangs", and the
    override of the shipped rule "Eye:Laser" -> ["Mouth:Fangs"] still
    changes the selection, renaming the pick of layer Mouth. *)
Lemma missing_value_still_renames :
  let layers := layers_of config listing_eye_mouth in
  let drawn := (draw_traits config layers (rng_const (Fin 0))).1.1 in
  let selection := (pickTraitsForLayers config layers (rng_const (Fin 0))).1 in
  Forall (λ l, Forall (λ e, Element.name e ≠ "Fangs") (Layer.elements l)) layers ∧
  enforceRequirements config drawn = [("Mouth", Some "Fangs")] ∧
  attributes drawn = [("Eye", Some "Laser"); ("Mouth", Some "Smile")] ∧
  attributes selection = [("Eye", Some "Laser"); ("Mouth", Some "Fangs")] ∧
  selection ≠ drawn.
Proof.
  vm_compute. split; [|by repeat split].
  repeat constructor; discriminate.
Qed.

(** C6, as stated, fails in three ways: the target layer is not in the
    catalog; another drawn trait requires a different value of the same
    layer and is processed later; the premise A:x only appears through
    another override.  Each time the accepted selection has A:x (here
    Eye:Laser, A:x, A:x) without the required value. *)
Lemma requirement_not_always_enforced :
  (∃ st selection,
     final_state (main config_one listing_eye (rng_const (Fin 0))).1 = Some st ∧
     tokens st = [(1, selection)] ∧
     requires config_one !! "Eye:Laser" = Some ["Mouth:Fangs"] ∧
     attributes selection = [("Eye", Some "Laser")]) ∧
  (∃ st selection,
     final_state (main config_conflict listing_conflict (rng_const (Fin 0))).1 = Some st ∧
     tokens st = [(1, selection)] ∧
     requires config_conflict !! "A:x" = Some ["B:y"] ∧
     attributes selection = [("A", Some "x"); ("B", Some "w"); ("C", Some "z")]) ∧
  (∃ st selection,
     final_state (main config_chain listing_chain (rng_const (Fin 0))).1 = Some st ∧
     tokens st = [(1, selection)] ∧
     requires config_chain !! "A:x" = Some ["B:y"] ∧
     attributes selection = [("A", Some "x"); ("B", Some "p"); ("C", Some "z")]).
Proof.
  split; [|split]; eexists _, _; (split; [vm_compute; reflexivity|]);
    (split; [reflexivity|]); vm_compute; by repeat split.
Qed.

(** C7, as stated, fails: two directories "1_Hat" and "2_Hat" give two
    layers titled "Hat"; the selections drawn as (a, b) and as (b, a) hold
    the same (layer, value) pairs and get different fingerprints, the
    stable sort keeping entries of equal layer in insertion order. *)
Lemma same_pairs_different_fingerprint :
  let layers := layers_of config listing_two_hats in
  let s1 := (pickTraitsForLayers config layers (rng_then 1 (Fin 0) (Fin (3 # 4)))).1 in
  let s2 := (pickTraitsForLayers config layers (rng_then 1 (Fin (3 # 4)) (Fin 0))).1 in
  pairs s1 = [("Hat", Some "a"); ("Hat", Some "b")] ∧
  pairs s2 = [("Hat", Some "b"); ("Hat", Some "a")] ∧
  (∀ pr, pr ∈ pairs s1 ↔ pr ∈ pairs s2) ∧
  dnaFromSelection s1 = "Hat:a|Hat:b" ∧
  dnaFromSelection s2 = "Hat:b|Hat:a" ∧
  dnaFromSelection s1 ≠ dnaFromSelection s2.
Proof.
  intros layers s1 s2.
  assert (H1 : pairs s1 = [("Hat", Some "a"); ("Hat", Some "b")])
    by (vm_compute; reflexivity).
  assert (H2 : pairs s2 = [("Hat", Some "b"); ("Hat", Some "a")])
    by (vm_compute; reflexivity).
  split; [done|]. split; [done|]. split.
  - intros pr. rewrite H1, H2, !elem_of_cons, !elem_of_nil. tauto.
  - vm_compute. by repeat split.
Qed.


(** C4, as stated, fails: a negative remainder is a truthy number, so it
    is kept as the weight. *)
Lemma negative_weight_kept :
  parseWeight config "Hat#-5.png" = ("Hat", Fin (-5 # 1)) ∧
  Fin (-5 # 1) ≠ Fin 1.
Proof. split; [vm_compute; reflexivity|discriminate]. Qed.
End WorkedRuns.

(** ** Fingerprints *)

Section SortedFacts.
Context {A : Type}.
Variable after : A → A → bool.
Hypothesis after_asym : ∀ a b, after a b = true → after b a = false.
Hypothesis before_trans :
  ∀ a b c, after a b = false → after b c = false → after a c = false.

Lemma sort_insert_sorted x l :
  StronglySorted (λ a b, after a b = false) l →
  StronglySorted (λ a b, after a b = false) (sort_insert after x l).
Proof.
  induction 1 as [|y l Hl IH Hy]; simpl.
  - repeat constructor.
  - destruct (after x y) eqn:Hxy.
    + constructor; [done|].
      rewrite Forall_forall. intros z Hz.
      rewrite (sort_insert_Permutation after x l) in Hz.
      apply elem_of_cons in Hz as [->|Hz]; [by apply after_asym|].
      rewrite Forall_forall in Hy. by apply Hy.
    + constructor; [by constructor|].
      constructor; [done|].
      eapply Forall_impl; [exact Hy|]. intros z Hz. by eapply before_trans.
Qed.

Lemma sort_sorted l : StronglySorted (λ a b, after a b = false) (sort after l).
Proof. induction l; simpl; [constructor|by apply sort_insert_sorted]. Qed.
End SortedFacts.

Section FingerprintFacts.
Context {collation : Collation}.
Hypothesis Hcmp : consistent collation.

Lemma localeCompare_flip a b : localeCompare b a = CompOpp (localeCompare a b).
Proof. exact (proj1 Hcmp a b). Qed.

Lemma localeCompare_refl a : localeCompare a a = Eq.
Proof.
  pose proof (localeCompare_flip a a) as Hf.
  destruct (localeCompare a a); [done|discriminate Hf|discriminate Hf].
Qed.

Lemma localeCompare_Gt_asym a b :
  localeCompare a b = Gt → localeCompare b a ≠ Gt.
Proof. intros Hab. rewrite localeCompare_flip, Hab. discriminate. Qed.

Lemma localeCompare_le_trans a b c :
  localeCompare a b ≠ Gt → localeCompare b c ≠ Gt → localeCompare a c ≠ Gt.
Proof. exact (proj2 Hcmp a b c). Qed.

Lemma dnaFromSelection_pairs selection :
  dnaFromSelection selection =
  join "|" (map (λ pr, pr.1 +:+ ":" +:+ show pr.2) (pairs (sort by_layer selection))).
Proof. unfold dnaFromSelection, pairs. by rewrite map_map. Qed.

(** The sorted pairs of a selection whose layer names the collation
    tells apart are in strictly increasing order of layer. *)
Lemma sorted_pairs_strict selection :
  layers_apart selection →
  StronglySorted key_before (pairs (sort by_layer selection)).
Proof.
  intros [Hnd Hap].
  assert (Hs : StronglySorted (λ a b, by_layer a b = false) (sort by_layer selection)).
  { apply sort_sorted.
    - intros a b Hab. unfold by_layer in *.
      apply bool_decide_eq_true in Hab. apply bool_decide_eq_false.
      by apply localeCompare_Gt_asym.
    - intros a b c Hab Hbc. unfold by_layer in *.
      apply bool_decide_eq_false in Hab, Hbc. apply bool_decide_eq_false.
      by eapply localeCompare_le_trans. }
  assert (Hnd' : NoDup (map Pick.layer (sort by_layer selection))).
  { by rewrite (sort_Permutation by_layer selection). }
  assert (Hap' : ∀ a b, a ∈ map Pick.layer (sort by_layer selection) →
                        b ∈ map Pick.layer (sort by_layer selection) →
                        localeCompare a b = Eq → a = b).
  { intros a b. rewrite (sort_Permutation by_layer selection). apply Hap. }
  revert Hs Hnd' Hap'. generalize (sort by_layer selection) as l. clear Hnd Hap.
  induction l as [|p l IH]; intros Hs Hnd Hap; simpl; [constructor|].
  apply StronglySorted_inv in Hs as [Hs Hp].
  simpl in Hnd. apply NoDup_cons in Hnd as [Hfresh Hnd].
  constructor.
  { apply IH; [done|done|]. intros a b Ha Hb. apply Hap; simpl; by right. }
  unfold pairs. apply Forall_fmap, Forall_forall. intros q Hq.
  rewrite Forall_forall in Hp. specialize (Hp q Hq).
  unfold key_before, by_layer in *. simpl.
  apply bool_decide_eq_false in Hp.
  destruct (localeCompare (Pick.layer p) (Pick.layer q)) eqn:E; [|done|done].
  exfalso. apply Hfresh.
  assert (Hq' : Pick.layer q ∈ map Pick.layer l).
  { apply list_elem_of_fmap. by exists q. }
  rewrite (Hap (Pick.layer p) (Pick.layer q)); [done| | |done].
  - simpl. by left.
  - simpl. by right.
Qed.

Lemma key_before_irrefl p : ¬ key_before p p.
Proof. unfold key_before. by rewrite localeCompare_refl. Qed.

Lemma key_before_asym p q : key_before p q → key_before q p → False.
Proof.
  unfold key_before. intros H1 H2.
  rewrite localeCompare_flip, H1 in H2. discriminate H2.
Qed.

(** Two strictly sorted lists with the same members are equal. *)
Lemma strictly_sorted_unique (l1 l2 : list (string * option string)) :
  StronglySorted key_before l1 → StronglySorted key_before l2 →
  (∀ x, x ∈ l1 ↔ x ∈ l2) → l1 = l2.
Proof.
  intros H1. revert l2. induction H1 as [|x l1 Hl1 IH Hx]; intros l2 H2 Hmem.
  - destruct l2 as [|y l2]; [done|].
    exfalso. eapply not_elem_of_nil. apply Hmem. by left.
  - destruct H2 as [|y l2 Hl2 Hy].
    { exfalso. eapply not_elem_of_nil. apply Hmem. by left. }
    rewrite Forall_forall in Hx, Hy.
    assert (x = y) as ->.
    { pose proof (proj1 (Hmem x) (list_elem_of_here _ _)) as Hx2.
      pose proof (proj2 (Hmem y) (list_elem_of_here _ _)) as Hy1.
      apply elem_of_cons in Hx2 as [Heq|Hxl2]; [done|].
      apply elem_of_cons in Hy1 as [Heq|Hyl1]; [done|].
      exfalso. exact (key_before_asym _ _ (Hx _ Hyl1) (Hy _ Hxl2)). }
    f_equal. apply IH; [done|].
    intros z. split; intros Hz.
    + pose proof (proj1 (Hmem z) (list_elem_of_further _ _ _ Hz)) as Hz2.
      apply elem_of_cons in Hz2 as [->|Hz2]; [|done].
      exfalso. exact (key_before_irrefl _ (Hx _ Hz)).
    + pose proof (proj2 (Hmem z) (list_elem_of_further _ _ _ Hz)) as Hz1.
      apply elem_of_cons in Hz1 as [->|Hz1]; [|done].
      exfalso. exact (key_before_irrefl _ (Hy _ Hz)).
Qed.

(** C7 (amended). Whatever the collation of the host, as long as it is a
    consistent comparator: for two selections in each of which no two
    picks have layer names that the collation takes for equal (so that, in
    particular, no layer name occurs twice), and that hold the same
    (layer, value) pairs in whatever order, [dnaFromSelection] returns the
    same string. *)
Theorem fingerprint_order_independent (s1 s2 : Selection) :
  layers_apart s1 → layers_apart s2 →
  (∀ pr, pr ∈ pairs s1 ↔ pr ∈ pairs s2) →
  dnaFromSelection s1 = dnaFromSelection s2.
Proof.
  intros Hap1 Hap2 Hmem. rewrite !dnaFromSelection_pairs. do 2 f_equal.
  apply strictly_sorted_unique; try by apply sorted_pairs_strict.
  intros pr. unfold pairs in *.
  by rewrite !(sort_Permutation by_layer).
Qed.
End FingerprintFacts.

(** ** Strings and file names *)

Section StringFacts.
#[local] Arguments String.append !_ _ / : simpl nomatch.

Lemma has_char_app c a b : has_char c (a +:+ b) = has_char c a || has_char c b.
Proof. induction a as [|x a IH]; simpl; [done|]. by rewrite IH, orb_assoc. Qed.

Lemma prefix_char_false d c s : Ascii.eqb c d = false → String.prefix (String d "") (String c s) = false.
Proof.
  intros H. simpl. destruct (ascii_dec d c) as [->|]; [|done].
  by rewrite Ascii.eqb_refl in H.
Qed.

Lemma prefix_char_true d s : String.prefix (String d "") (String d s) = true.
Proof. simpl. destruct (ascii_dec d d); [|done]. by destruct s. Qed.

Lemma lastIndexOf_from_absent i d s :
  has_char d s = false → lastIndexOf_from i (String d "") s = None.
Proof.
  revert i. induction s as [|c s IH]; intros i; [done|].
  intros [Hc Hs]%orb_false_iff. cbn [lastIndexOf_from].
  by rewrite (IH (S i) Hs), prefix_char_false.
Qed.

Lemma lastIndexOf_from_last i d a b :
  has_char d b = false →
  lastIndexOf_from i (String d "") (a +:+ String d b) = Some (i + String.length a)%nat.
Proof.
  intros Hb. revert i. induction a as [|c a IH]; intros i.
  - cbn [String.append lastIndexOf_from].
    rewrite (lastIndexOf_from_absent (S i) d b Hb), prefix_char_true.
    simpl. f_equal. lia.
  - cbn [String.append lastIndexOf_from]. rewrite IH. simpl. f_equal. lia.
Qed.

Lemma take_app a b : JsStr.take (String.length a) (a +:+ b) = a.
Proof. induction a as [|c a IH]; simpl; [by destruct b|]. by rewrite IH. Qed.

Lemma drop_app a c b : JsStr.drop (S (String.length a)) (a +:+ String c b) = b.
Proof. induction a as [|x a IH]; simpl; [by destruct b|]. exact IH. Qed.

Lemma strip_trailing_slashes_app a b :
  b ≠ "" → strip_trailing_slashes b = b →
  strip_trailing_slashes (a +:+ b) = a +:+ b.
Proof.
  intros Hb Hs. induction a as [|c a IH]; [done|].
  cbn [String.append strip_trailing_slashes]. rewrite IH.
  destruct (a +:+ b) eqn:Hab; [|done].
  destruct a; simpl in Hab; [done|discriminate].
Qed.

(** The name part of a slash-free "stem.png". *)
Lemma path_parse_name_png stem :
  stem ≠ "" → has_char "/" stem = false →
  path_parse_name (stem +:+ ".png") = stem.
Proof.
  intros Hne Hslash. unfold path_parse_name, basename.
  rewrite strip_trailing_slashes_app by done.
  unfold lastIndexOf.
  assert (Hslash' : has_char "/" (stem +:+ ".png") = false).
  { rewrite has_char_app, Hslash. reflexivity. }
  rewrite (lastIndexOf_from_absent 0 "/" _ Hslash').
  change (stem +:+ ".png") with (stem +:+ String "." "png").
  rewrite lastIndexOf_from_last by done. simpl Nat.add.
  destruct stem as [|c stem]; [done|]. cbn [String.length].
  destruct (String.eqb _ "..") eqn:Heq.
  - apply String.eqb_eq in Heq. exfalso.
    destruct stem as [|c' stem]; [discriminate|].
    destruct stem as [|c'' stem]; discriminate.
  - apply (take_app (String c stem) ".png").
Qed.
End StringFacts.

(** ** Binary64 rounding *)

Section RoundingFacts.
#[local] Open Scope Z_scope.

Lemma round_half_even_exact (num : Z) : round_half_even num 1 = num.
Proof.
  unfold round_half_even. rewrite Z.div_1_r, Z.mod_1_r. reflexivity.
Qed.

Lemma Qred_inject_Z (z : Z) : Qred (inject_Z z) = inject_Z z.
Proof.
  pose proof (Qred_correct (inject_Z z)) as Heq.
  pose proof (gcd_Qred (inject_Z z)) as Hgcd.
  destruct (Qred (inject_Z z)) as [num den].
  unfold Qeq in Heq. simpl in Heq, Hgcd.
  assert (Hden : Zpos den = 1).
  { rewrite Z.mul_1_r in Heq. rewrite Heq in Hgcd.
    rewrite Z.gcd_comm, (Z.mul_comm z), Z.gcd_mul_diag_l in Hgcd by lia.
    exact Hgcd. }
  unfold inject_Z. f_equal; [|lia].
  rewrite Z.mul_1_r in Heq. rewrite Hden in Heq. lia.
Qed.

Lemma Qred_scaled (z k : Z) :
  0 < k → Qred ((z * 2 ^ k) # Z.to_pos (2 ^ k)) = inject_Z z.
Proof.
  intros Hk. rewrite <- Qred_inject_Z. apply Qred_complete.
  unfold Qeq, inject_Z. simpl.
  rewrite Z2Pos.id by (apply Z.pow_pos_nonneg; lia). lia.
Qed.

Lemma ilog2_int (n : positive) : ilog2 n 1 = Z.log2 (Zpos n).
Proof.
  unfold ilog2. change (Z.log2 1) with 0. rewrite Z.sub_0_r.
  pose proof (Z.log2_nonneg (Zpos n)) as H0.
  pose proof (Z.log2_spec (Zpos n) eq_refl) as [H1 _].
  destruct (0 <=? Z.log2 (Zpos n)) eqn:E; [|lia].
  destruct (1 * 2 ^ Z.log2 (Zpos n) <=? Zpos n) eqn:E'; [done|lia].
Qed.

(** Integers below 2^53 are binary64 values. *)
Lemma round64_int (w : Z) : 0 < w < 2 ^ 53 → round64 (inject_Z w) = Fin (inject_Z w).
Proof.
  intros [Hpos Hlt]. destruct w as [|n|n]; try lia.
  unfold round64, round_pos, ulp_exp. cbn [Qnum Qden inject_Z].
  rewrite ilog2_int.
  pose proof (Z.log2_nonneg (Zpos n)) as H0.
  assert (H53 : Z.log2 (Zpos n) < 53) by (apply Z.log2_lt_pow2; lia).
  rewrite Z.max_l by lia.
  set (e := Z.log2 (Zpos n)) in *.
  destruct (0 <=? e - 52) eqn:E.
  - assert (He : e - 52 = 0) by lia. rewrite He.
    change (1 * 2 ^ 0) with 1. rewrite round_half_even_exact.
    unfold overflows, dyadic. cbn [Z.leb Z.compare andb].
    change (2 ^ 0) with 1. rewrite Z.mul_1_r.
    destruct (2 ^ 1024 <=? Zpos n) eqn:E'; [|done].
    apply Z.leb_le in E'.
    assert (2 ^ 53 < 2 ^ 1024) by (apply Z.pow_lt_mono_r; lia). lia.
  - rewrite round_half_even_exact.
    unfold overflows, dyadic. rewrite E. cbn [andb].
    f_equal. apply Qred_scaled. lia.
Qed.

End RoundingFacts.

(** ** [Number] on decimal literals *)

Section NumberFacts.
#[local] Open Scope Z_scope.
#[local] Arguments String.append !_ _ / : simpl nomatch.

Ltac by_cases_on c :=
  destruct c as [[] [] [] [] [] [] [] []]; vm_compute; try done.

Lemma digit_not_ws c : is_digit c = true → is_ws c = false.
Proof. by_cases_on c. Qed.

Lemma digit_of_digit c : is_digit c = true → ∃ d, digit_of c = Some d ∧ 0 ≤ d ≤ 9.
Proof. by_cases_on c; intros _; eexists; (split; [reflexivity|done]). Qed.

Lemma digit_no_sign c s : is_digit c = true → split_sign (String c s) = (false, String c s).
Proof. by_cases_on c. Qed.

Lemma digit_not_Infinity c s : is_digit c = true → String.eqb (String c s) "Infinity" = false.
Proof. intros H. cbn [String.eqb]. by_cases_on c. Qed.

Lemma digit_no_radix_mark c :
  is_digit c = true →
  Ascii.eqb c "x" || Ascii.eqb c "X" = false ∧
  Ascii.eqb c "o" || Ascii.eqb c "O" = false ∧
  Ascii.eqb c "b" || Ascii.eqb c "B" = false.
Proof. by_cases_on c. Qed.

Lemma digits_no_radix s : all_digits s = true → parse_radix s = None.
Proof.
  destruct s as [|c s]; [done|].
  destruct s as [|c' s].
  - intros _. by_cases_on c.
  - cbn [all_digits]. intros [_ [Hc' _]%andb_true_iff]%andb_true_iff.
    destruct (digit_no_radix_mark c' Hc') as (H1 & H2 & H3).
    unfold parse_radix.
    destruct c as [[] [] [] [] [] [] [] []]; try reflexivity.
    by rewrite H1, H2, H3.
Qed.

Lemma trim_right_digits s : all_digits s = true → trim_right s = s.
Proof.
  induction s as [|c s IH]; [done|]. cbn [all_digits trim_right].
  intros [Hc Hs]%andb_true_iff. rewrite (IH Hs).
  destruct s; [|done]. by rewrite (digit_not_ws c Hc).
Qed.

Lemma trim_digits s : all_digits s = true → trim s = s.
Proof.
  intros H. unfold trim. destruct s as [|c s]; [done|].
  cbn [all_digits] in H. apply andb_true_iff in H as [Hc Hs].
  cbn [trim_left]. rewrite (digit_not_ws c Hc).
  apply trim_right_digits. cbn [all_digits]. by rewrite Hc, Hs.
Qed.

Lemma take_digits_all s acc cnt :
  all_digits s = true →
  take_digits s acc cnt = (decimal_value_from acc s, cnt + Z.of_nat (String.length s), "").
Proof.
  revert acc cnt. induction s as [|c s IH]; intros acc cnt.
  - intros _. cbn. f_equal. f_equal. lia.
  - cbn [all_digits take_digits decimal_value_from String.length].
    intros [Hc Hs]%andb_true_iff.
    destruct (digit_of_digit c Hc) as (d & Hd & _). rewrite Hd. cbn [default].
    rewrite IH by done. f_equal. f_equal. lia.
Qed.

Lemma parse_unsigned_digits s :
  decimal_literal s → parse_unsigned s = round64 (inject_Z (decimal_value s)).
Proof.
  intros [Hne Hall]. unfold parse_unsigned.
  destruct s as [|c s]; [done|].
  assert (Hc : is_digit c = true) by (cbn [all_digits] in Hall; by apply andb_true_iff in Hall as [? _]).
  rewrite (digit_not_Infinity c s Hc).
  rewrite (take_digits_all (String c s) 0 0 Hall).
  cbn [String.length parse_exponent].
  destruct (0 + Z.of_nat (S (String.length s)) + 0 =? 0) eqn:E;
    [apply Z.eqb_eq in E; lia|].
  unfold decimal. cbn [Z.leb Z.sub Z.compare Z.opp Z.add].
  change (10 ^ 0) with 1. by rewrite Z.mul_1_r.
Qed.

(** A string of decimal digits converts to the number it denotes. *)
Lemma Number_decimal s :
  decimal_literal s → Number s = round64 (inject_Z (decimal_value s)).
Proof.
  intros [Hne Hall]. unfold Number. rewrite (trim_digits s Hall).
  destruct (String.eqb s "") eqn:E; [by apply String.eqb_eq in E|].
  rewrite (digits_no_radix s Hall).
  destruct s as [|c s]; [done|].
  assert (Hc : is_digit c = true) by (cbn [all_digits] in Hall; by apply andb_true_iff in Hall as [? _]).
  rewrite (digit_no_sign c s Hc). by apply parse_unsigned_digits.
Qed.

(** A minus sign in front negates it. *)
Lemma Number_negative s :
  decimal_literal s → Number (String "-" s) = JsNum.neg (round64 (inject_Z (decimal_value s))).
Proof.
  intros [Hne Hall]. unfold Number.
  assert (Htrim : trim (String "-" s) = String "-" s).
  { unfold trim. cbn [trim_left]. change (is_ws "-") with false. cbn iota.
    cbn [trim_right]. rewrite (trim_right_digits s Hall). by destruct s. }
  rewrite Htrim. cbn [String.eqb]. change (Ascii.eqb "-" _) with false. cbn iota.
  change (parse_radix (String "-" s)) with (@None jsnum).
  change (split_sign (String "-" s)) with (true, s).
  cbn iota. by rewrite parse_unsigned_digits.
Qed.
End NumberFacts.

(** ** Weights from file names *)

Section WeightFacts.
Variable cfg : Config.
#[local] Open Scope Z_scope.
#[local] Arguments String.append !_ _ / : simpl nomatch.

(** A file "name<d>rem.png" whose remainder holds no further delimiter:
    the name is what precedes the delimiter and the weight is
    [Number(rem) || 1]. *)
Lemma parseWeight_split (d : ascii) (name rem : string) :
  rarityDelimiter cfg = String d "" →
  has_char "/" (name +:+ String d rem) = false →
  has_char d rem = false →
  parseWeight cfg ((name +:+ String d rem) +:+ ".png")
  = (name, if truthy (Number rem) then Number rem else Fin 1).
Proof.
  intros Hd Hslash Hrem. unfold parseWeight.
  rewrite path_parse_name_png; [|by destruct name|done].
  rewrite Hd. unfold lastIndexOf. rewrite lastIndexOf_from_last by done.
  cbn [Nat.add]. by rewrite take_app, drop_app.
Qed.

(** C4 (amended). With a one-character delimiter d, for a slash-free
    asset file "name<d>rem.png" whose remainder holds no further d, the
    parsed name is what precedes the delimiter, and the weight is: W when
    the remainder is the decimal literal of an integer 0 < W < 2^53; 1
    when the remainder is a decimal literal of zero, is missing or is not
    numeric; and -W, not 1, when the remainder is a minus sign followed by
    the decimal literal of such a W.  For a file "stem.png" without the
    delimiter the name is the stem and the weight is 1. *)
Theorem parseWeight_cases (d : ascii) (name rem : string) :
  rarityDelimiter cfg = String d "" →
  has_char "/" (name +:+ String d rem) = false →
  has_char d rem = false →
  let parsed := parseWeight cfg ((name +:+ String d rem) +:+ ".png") in
  parsed.1 = name ∧
  (decimal_literal rem → 0 < decimal_value rem < 2 ^ 53 →
     parsed.2 = Fin (inject_Z (decimal_value rem))) ∧
  (decimal_literal rem → decimal_value rem = 0 → parsed.2 = Fin 1) ∧
  (rem = "" → parsed.2 = Fin 1) ∧
  (Number rem = NaN → parsed.2 = Fin 1) ∧
  (∀ digits, rem = String "-" digits → decimal_literal digits →
     0 < decimal_value digits < 2 ^ 53 →
     parsed.2 = Fin (inject_Z (- decimal_value digits))) ∧
  (∀ stem, stem ≠ "" → has_char "/" stem = false → has_char d stem = false →
     parseWeight cfg (stem +:+ ".png") = (stem, Fin 1)).
Proof.
  intros Hd Hslash Hrem. cbn zeta.
  rewrite parseWeight_split by done. cbn [fst snd].
  split; [done|]. split; [|split; [|split; [|split; [|split]]]].
  - intros Hlit Hw. rewrite (Number_decimal rem Hlit), round64_int by done.
    unfold truthy, is_zero, inject_Z. cbn [Qnum].
    destruct (decimal_value rem =? 0) eqn:E; [apply Z.eqb_eq in E; lia|done].
  - intros Hlit Hw. rewrite (Number_decimal rem Hlit), Hw. done.
  - intros ->. done.
  - intros ->. done.
  - intros digits -> Hlit Hw.
    rewrite (Number_negative digits Hlit), round64_int by done.
    unfold JsNum.neg, truthy, is_zero, inject_Z, Qopp. cbn [Qnum].
    destruct (- decimal_value digits =? 0) eqn:E; [apply Z.eqb_eq in E; lia|done].
  - intros stem Hne Hs Hdel. unfold parseWeight.
    rewrite path_parse_name_png by done.
    rewrite Hd. unfold lastIndexOf. by rewrite lastIndexOf_from_absent.
Qed.
End WeightFacts.

(** ** Rounding never reaches the next integer *)

Section RoundingBound.
#[local] Open Scope Z_scope.

Lemma round_half_even_bound num den :
  0 ≤ num → 0 < den →
  0 ≤ round_half_even num den ∧
  2 * (round_half_even num den * den) ≤ 2 * num + den.
Proof.
  intros Hnum Hden. unfold round_half_even.
  pose proof (Z.div_mod num den ltac:(lia)) as Hdm.
  pose proof (Z.mod_pos_bound num den Hden) as Hr.
  pose proof (Z.div_pos num den Hnum Hden) as Hq.
  set (q := num / den) in *. set (r := num mod den) in *.
  assert (Hexp : num = q * den + r) by lia.
  destruct (2 * r <? den) eqn:E1; [|destruct (den <? 2 * r) eqn:E2;
    [|destruct (Z.even q)]]; split; lia.
Qed.

Lemma pow2_pos k : 0 ≤ k → 0 < 2 ^ k.
Proof. intros. apply Z.pow_pos_nonneg; lia. Qed.

(** [ilog2] brackets the ratio between two consecutive powers of two. *)
Lemma ilog2_lower (a b : positive) :
  let e := ilog2 a b in
  (0 ≤ e → Zpos b * 2 ^ e ≤ Zpos a) ∧ (e < 0 → Zpos b ≤ Zpos a * 2 ^ (- e)).
Proof.
  cbn zeta. unfold ilog2.
  destruct (Z.log2_spec (Zpos a) eq_refl) as [Ha1 Ha2].
  destruct (Z.log2_spec (Zpos b) eq_refl) as [Hb1 Hb2].
  pose proof (Z.log2_nonneg (Zpos a)) as Hla.
  pose proof (Z.log2_nonneg (Zpos b)) as Hlb.
  set (la := Z.log2 (Zpos a)) in *. set (lb := Z.log2 (Zpos b)) in *.
  rewrite <- !Z.add_1_r in *.
  destruct (0 <=? la - lb) eqn:E0.
  - apply Z.leb_le in E0.
    destruct (Zpos b * 2 ^ (la - lb) <=? Zpos a) eqn:E1.
    + apply Z.leb_le in E1. split; [done|lia].
    + apply Z.leb_gt in E1. split.
      * intros He.
        assert (H : 2 ^ (lb + 1) * 2 ^ (la - lb - 1) = 2 ^ la).
        { rewrite <- Z.pow_add_r by lia. f_equal. lia. }
        pose proof (pow2_pos (la - lb - 1) He) as Hp.
        assert (Zpos b * 2 ^ (la - lb - 1) ≤ 2 ^ (lb + 1) * 2 ^ (la - lb - 1)).
        { apply Z.mul_le_mono_nonneg_r; lia. }
        lia.
      * intros He. assert (Hz : la - lb = 0) by lia.
        replace (- (la - lb - 1)) with 1 by lia.
        replace la with lb in * by lia.
        rewrite Z.pow_add_r in Hb2 by lia. change (2 ^ 1) with 2 in *. lia.
  - apply Z.leb_gt in E0.
    destruct (Zpos b <=? Zpos a * 2 ^ (- (la - lb))) eqn:E1.
    + apply Z.leb_le in E1. split; [lia|done].
    + apply Z.leb_gt in E1. split; [lia|].
      intros _. replace (- (la - lb - 1)) with (lb - la + 1) by lia.
      assert (H : 2 ^ la * 2 ^ (lb - la + 1) = 2 ^ (lb + 1)).
      { rewrite <- Z.pow_add_r by lia. f_equal. lia. }
      pose proof (pow2_pos (lb - la + 1) ltac:(lia)) as Hp.
      assert (2 ^ la * 2 ^ (lb - la + 1) ≤ Zpos a * 2 ^ (lb - la + 1)).
      { apply Z.mul_le_mono_nonneg_r; lia. }
      lia.
Qed.

Lemma ilog2_upper (a b : positive) :
  let e := ilog2 a b in
  e + 1 < 0 → Zpos a * 2 ^ (- (e + 1)) < Zpos b.
Proof.
  cbn zeta. unfold ilog2.
  destruct (Z.log2_spec (Zpos a) eq_refl) as [Ha1 Ha2].
  destruct (Z.log2_spec (Zpos b) eq_refl) as [Hb1 Hb2].
  pose proof (Z.log2_nonneg (Zpos a)) as Hla.
  pose proof (Z.log2_nonneg (Zpos b)) as Hlb.
  set (la := Z.log2 (Zpos a)) in *. set (lb := Z.log2 (Zpos b)) in *.
  rewrite <- !Z.add_1_r in *.
  destruct (0 <=? la - lb) eqn:E0.
  - apply Z.leb_le in E0.
    destruct (Zpos b * 2 ^ (la - lb) <=? Zpos a); lia.
  - apply Z.leb_gt in E0.
    destruct (Zpos b <=? Zpos a * 2 ^ (- (la - lb))) eqn:E1.
    + intros He. replace (- (la - lb + 1)) with (lb - la - 1) by lia.
      assert (H : 2 ^ (la + 1) * 2 ^ (lb - la - 1) = 2 ^ lb).
      { rewrite <- Z.pow_add_r by lia. f_equal. lia. }
      pose proof (pow2_pos (lb - la - 1) ltac:(lia)) as Hp.
      assert (Zpos a * 2 ^ (lb - la - 1) < 2 ^ (la + 1) * 2 ^ (lb - la - 1)).
      { apply Z.mul_lt_mono_pos_r; lia. }
      lia.
    + apply Z.leb_gt in E1. intros He.
      replace (- (la - lb - 1 + 1)) with (- (la - lb)) by lia. done.
Qed.
End RoundingBound.

Section RandomIndex.
#[local] Open Scope Z_scope.

(** The binary64 value nearest to a ratio a/b that is at most
    n * (1 - 2^-53) is below n. *)
Lemma round_pos_below (a b : positive) (n : Z) :
  1 ≤ n → Zpos a * 2 ^ 53 ≤ Zpos b * n * (2 ^ 53 - 1) →
  let m := (round_pos a b).1 in
  let ex := (round_pos a b).2 in
  0 ≤ m ∧ (0 ≤ ex → m * 2 ^ ex < n) ∧ (ex < 0 → m < n * 2 ^ (- ex)).
Proof.
  intros Hn Hab. cbn zeta. unfold round_pos, ulp_exp. cbn [fst snd].
  destruct (ilog2_lower a b) as [Hlow1 Hlow2].
  pose proof (ilog2_upper a b) as Hup. cbn zeta in *.
  set (e := ilog2 a b) in *.
  set (ex := Z.max (e - 52) (-1074)).
  destruct (0 <=? ex) eqn:Eex.
  - apply Z.leb_le in Eex. assert (Hex : ex = e - 52) by lia.
    pose proof (pow2_pos ex Eex) as HP.
    destruct (round_half_even_bound (Zpos a) (Zpos b * 2 ^ ex)) as [Hm0 Hm]; [lia|lia|].
    set (m := round_half_even (Zpos a) (Zpos b * 2 ^ ex)) in *.
    split; [done|]. split; [|lia]. intros _.
    assert (Hlow : Zpos b * (2 ^ ex * 2 ^ 52) ≤ Zpos a).
    { rewrite <- Z.pow_add_r by lia. replace (ex + 52) with e by lia.
      apply Hlow1. lia. }
    destruct (Z_lt_ge_dec (m * 2 ^ ex) n) as [|Hge]; [done|exfalso].
    assert (Hbn : Zpos b * n ≤ Zpos b * (m * 2 ^ ex)).
    { apply Z.mul_le_mono_nonneg_l; lia. }
    change (2 ^ 53) with 9007199254740992 in *.
    change (2 ^ 52) with 4503599627370496 in *.
    set (P := 2 ^ ex) in *. lia.
  - apply Z.leb_gt in Eex.
    destruct (round_half_even_bound (Zpos a * 2 ^ (- ex)) (Zpos b)) as [Hm0 Hm].
    { pose proof (pow2_pos (- ex) ltac:(lia)). lia. }
    { lia. }
    set (m := round_half_even (Zpos a * 2 ^ (- ex)) (Zpos b)) in *.
    split; [done|]. split; [lia|]. intros _.
    pose proof (pow2_pos (- ex) ltac:(lia)) as HQ.
    destruct (Z_le_gt_dec (-1074) (e - 52)) as [Hnorm|Hsub].
    + assert (Hex : ex = e - 52) by lia.
      assert (Hlow : Zpos b * 2 ^ 52 ≤ Zpos a * 2 ^ (- ex)).
      { destruct (Z_le_gt_dec 0 e) as [He|He].
        - specialize (Hlow1 He).
          replace 52 with (e + - ex) by lia. rewrite Z.pow_add_r by lia.
          rewrite Z.mul_assoc. apply Z.mul_le_mono_nonneg_r; lia.
        - specialize (Hlow2 ltac:(lia)).
          replace (- ex) with (- e + 52) by lia. rewrite Z.pow_add_r by lia.
          rewrite Z.mul_assoc. apply Z.mul_le_mono_nonneg_r; [lia|done]. }
      destruct (Z_lt_ge_dec m (n * 2 ^ (- ex))) as [|Hge]; [done|exfalso].
      assert (Hbn : Zpos b * (n * 2 ^ (- ex)) ≤ Zpos b * m).
      { apply Z.mul_le_mono_nonneg_l; lia. }
      assert (HabQ : Zpos a * 2 ^ 53 * 2 ^ (- ex) ≤ Zpos b * n * (2 ^ 53 - 1) * 2 ^ (- ex)).
      { apply Z.mul_le_mono_nonneg_r; lia. }
      assert (Hpos : 1 ≤ Zpos b * (n * 2 ^ (- ex))) by nia.
      change (2 ^ 53) with 9007199254740992 in *.
      change (2 ^ 52) with 4503599627370496 in *.
      set (Q := 2 ^ (- ex)) in *. lia.
    + assert (Hex : ex = -1074) by lia. rewrite Hex in *.
      specialize (Hup ltac:(lia)).
      assert (Hsmall : Zpos a * 2 ^ 1022 < Zpos b).
      { eapply Z.le_lt_trans; [|exact Hup].
        apply Z.mul_le_mono_nonneg_l; [lia|].
        apply Z.pow_le_mono_r; lia. }
      change (- -1074) with 1074 in *.
      replace (2 ^ 1074) with (2 ^ 1022 * 2 ^ 52) in * by (rewrite <- Z.pow_add_r; [done|lia|lia]).
      pose proof (pow2_pos 1022 ltac:(lia)) as H1022.
      change (2 ^ 52) with 4503599627370496 in *.
      set (R := 2 ^ 1022) in *.
      assert (Hm2 : 2 * (m * Zpos b) < Zpos b * 9007199254740993) by nia.
      assert (Hm3 : m ≤ 4503599627370496) by nia.
      nia.
Qed.
End RandomIndex.

Section RandomIndexRange.
#[local] Open Scope Z_scope.

(** [Math.floor(Math.random() * (i + 1))] is an index between 0 and i. *)
Lemma random_index_range (g : Rng) (i : nat) :
  unit_draw (draws g (pos g)) → Z.of_nat i + 1 < 2 ^ 53 →
  ∃ j, (random_index i g).1 = Some j ∧ 0 ≤ j ≤ Z.of_nat i ∧
       (random_index i g).2 = {| draws := draws g; pos := S (pos g) |}.
Proof.
  intros (q & Hq & Hq0 & Hq1) Hi.
  unfold random_index, random. rand_unfold. cbn [fst snd]. rewrite Hq.
  unfold JsNum.of_Z. rewrite round64_int by lia.
  set (n := Z.of_nat i + 1) in *.
  unfold JsNum.mul, round64.
  destruct q as [qn qd]. cbn [Qnum Qden Qmult inject_Z] in *.
  destruct (qn * n) as [|a|a] eqn:Ha.
  - exists 0. cbn. repeat split; lia.
  - rewrite Pos.mul_1_r.
    destruct (round_pos_below a qd n) as (Hm0 & Hm1 & Hm2); [lia| |].
    { rewrite <- Ha. nia. }
    destruct (round_pos a qd) as [m ex]. cbn [fst snd] in *.
    unfold overflows, dyadic. destruct (0 <=? ex) eqn:Eex.
    + apply Z.leb_le in Eex. specialize (Hm1 Eex).
      assert (Hbig : 2 ^ 53 < 2 ^ 1024) by (apply Z.pow_lt_mono_r; lia).
      destruct (2 ^ 1024 <=? m * 2 ^ ex) eqn:Eov; [apply Z.leb_le in Eov; lia|].
      cbn [andb JsNum.floor]. exists (m * 2 ^ ex). rewrite Qfloor_Z.
      pose proof (pow2_pos ex Eex). repeat split; nia.
    + apply Z.leb_gt in Eex. specialize (Hm2 Eex). cbn [andb JsNum.floor].
      pose proof (pow2_pos (- ex) ltac:(lia)) as HQ.
      exists (m / 2 ^ (- ex)). split.
      * f_equal. rewrite (Qfloor_comp _ _ (Qred_correct _)).
        unfold Qfloor. by rewrite Z2Pos.id.
      * split; [|done]. split.
        -- apply Z.div_pos; lia.
        -- assert (m / 2 ^ (- ex) < n); [|lia].
           apply Z.div_lt_upper_bound; lia.
  - lia.
Qed.
End RandomIndexRange.

(** ** The shuffle *)

Section ShuffleFacts.
Context {A : Type}.
#[local] Open Scope nat_scope.

Lemma swap_exchange (array : list A) i z :
  (0 ≤ z)%Z → swap array i (Some z) = exchange array i (Z.to_nat z).
Proof.
  intros Hz. unfold swap, exchange, nth_Z.
  destruct (z <? 0)%Z eqn:E; [lia|done].
Qed.

Lemma exchange_Permutation (array : list A) i j : exchange array i j ≡ₚ array.
Proof.
  unfold exchange. destruct (array !! i) as [ai|] eqn:Hi; [|done].
  destruct (array !! j) as [aj|] eqn:Hj; [|done].
  by apply Permutation_insert_swap.
Qed.

Lemma exchange_length (array : list A) i j : length (exchange array i j) = length array.
Proof. by rewrite (exchange_Permutation array i j). Qed.




Lemma fisher_yates_ext js js' i (array : list A) :
  (∀ k, 1 ≤ k ≤ i → js k = js' k) →
  fisher_yates js i array = fisher_yates js' i array.
Proof.
  revert array. induction i as [|i IH]; intros array Hjs; [done|].
  cbn [fisher_yates]. rewrite (Hjs (S i)) by lia.
  apply IH. intros k Hk. apply Hjs. lia.
Qed.



End ShuffleFacts.

Section ShuffleRefinement.
Context {A : Type}.
#[local] Open Scope nat_scope.

Lemma drawn_index_shift g i k :
  k ≤ i →
  drawn_index {| draws := draws g; pos := S (pos g) |} i k = drawn_index g (S i) k.
Proof.
  intros Hk. unfold drawn_index. cbn [draws pos]. do 5 f_equal. lia.
Qed.

(** Under the contract of [Math.random], the loop of [shuffle] is the
    Fisher-Yates shuffle with the indices it draws, each within its
    range, and it takes one draw per step. *)
Lemma shuffle_from_refines (array : list A) i g :
  (∀ k, unit_draw (draws g k)) →
  i ≤ length array - 1 → (Z.of_nat (length array) < 2 ^ 53)%Z →
  shuffle_from i array g =
    (fisher_yates (drawn_index g i) i array,
     {| draws := draws g; pos := pos g + i |}) ∧
  ∀ k, 1 ≤ k ≤ i → drawn_index g i k ≤ k.
Proof.
  revert array g. induction i as [|i IH]; intros array g Hdraw Hi Hlen.
  - split; [|lia]. cbn [shuffle_from fisher_yates]. rand_unfold.
    destruct g as [d p]. cbn [draws pos]. do 2 f_equal. lia.
  - cbn [shuffle_from fisher_yates]. rand_unfold.
    destruct (random_index_range g (S i) (Hdraw _)) as (z & Hz & Hrange & Hg);
      [lia|].
    assert (Htop : drawn_index g (S i) (S i) = Z.to_nat z).
    { unfold drawn_index. replace (pos g + (S i - S i)) with (pos g) by lia.
      assert (E : (random_index (S i) g).1
                  = JsNum.floor (JsNum.mul (draws g (pos g))
                                   (JsNum.of_Z (Z.of_nat (S i) + 1))))
        by reflexivity.
      by rewrite <- E, Hz. }
    destruct (random_index (S i) g) as [j g1]. cbn [fst snd] in Hz, Hg.
    subst j g1. rewrite swap_exchange by lia. rewrite <- Htop.
    destruct (IH (exchange array (S i) (drawn_index g (S i) (S i)))
                {| draws := draws g; pos := S (pos g) |}) as [IH1 IH2].
    { done. }
    { rewrite exchange_length. lia. }
    { by rewrite exchange_length. }
    rewrite IH1. cbn [draws pos]. split.
    + f_equal.
      * apply fisher_yates_ext. intros k Hk. apply drawn_index_shift. lia.
      * f_equal. lia.
    + intros k Hk. destruct (decide (k = S i)) as [->|Hne].
      * rewrite Htop. lia.
      * rewrite <- drawn_index_shift by lia. apply IH2. lia.
Qed.

Lemma shuffle_Permutation (array : list A) g : (shuffle array g).1 ≡ₚ array.
Proof.
  unfold shuffle. generalize (length array - 1) as i. intros i.
  revert array g. induction i as [|i IH]; intros array g; [done|].
  cbn [shuffle_from]. rand_unfold.
  destruct (random_index (S i) g) as [j g1]. rewrite IH.
  unfold swap. destruct j as [z|]; [|done].
  destruct (array !! S i) as [ai|] eqn:Hi; [|done].
  destruct (nth_Z array z) as [aj|] eqn:Hj; [|done].
  unfold nth_Z in Hj. destruct (z <? 0)%Z; [done|].
  by apply Permutation_insert_swap.
Qed.
End ShuffleRefinement.

(** ** The effect of the calls on a disk *)

Section DiskFacts.
#[local] Arguments String.append !_ _ / : simpl nomatch.





Lemma step_file cwd c disk disk' loc :
  Fs.step cwd c disk = Some disk' →
  Fs.file disk' loc = file_after cwd [c] loc (Fs.file disk loc).
Proof.
  destruct c as [dir|dir|dir name f]; cbn [Fs.step file_after].
  - unfold Fs.ensureDir. destruct (Fs.blocked _ _); [done|]. by intros [= <-].
  - unfold Fs.emptyDir. destruct (Fs.blocked _ _); [done|]. by intros [= <-].
  - unfold Fs.writeFile. cbn zeta. destruct (_ && _); [|done]. by intros [= <-].
Qed.

(** The files of a disk after calls that all succeeded. *)
Lemma run_file cwd calls disk disk' loc :
  Fs.run cwd calls disk = Some disk' →
  Fs.file disk' loc = file_after cwd calls loc (Fs.file disk loc).
Proof.
  revert disk. induction calls as [|c calls IH]; intros disk; cbn [Fs.run].
  - by intros [= <-].
  - destruct (Fs.step cwd c disk) as [disk1|] eqn:E; [|done].
    intros Hrun. rewrite (IH disk1 Hrun). cbn [file_after].
    f_equal. exact (step_file cwd c disk disk1 loc E).
Qed.

Lemma file_after_app cwd calls calls' loc before :
  file_after cwd (calls ++ calls') loc before
  = file_after cwd calls' loc (file_after cwd calls loc before).
Proof.
  revert before. induction calls as [|c calls IH]; intros before; [done|].
  cbn [app file_after]. apply IH.
Qed.


Lemma append_length a b : String.length (a +:+ b) = (String.length a + String.length b)%nat.
Proof. induction a as [|c a IH]; simpl; [done|]. by rewrite IH. Qed.

Lemma append_inj_r a b s : a +:+ s = b +:+ s → a = b.
Proof.
  revert b. induction a as [|c a IH]; intros [|c' b] Heq; [done| | |].
  - apply (f_equal String.length) in Heq. rewrite !append_length in Heq.
    simpl in Heq. lia.
  - apply (f_equal String.length) in Heq. rewrite !append_length in Heq.
    simpl in Heq. lia.
  - simpl in Heq. injection Heq as -> Heq. f_equal. by apply IH.
Qed.

Lemma metadata_path_inj cfg a b : metadata_path cfg a = metadata_path cfg b → a = b.
Proof.
  unfold metadata_path. intros Heq.
  apply append_inj_r in Heq.
  by apply pretty_Z_inj in Heq.
Qed.
End DiskFacts.

(** ** The shuffle step of a run *)

Section ShuffleStep.
Variable cfg : Config.
#[local] Arguments String.append !_ _ / : simpl nomatch.


Lemma ids_from_one (n : Z) : map (λ i, i + 1)%Z (seqZ 0 n) = seqZ 1 n.
Proof.
  apply list_eq. intros i. rewrite list_lookup_fmap.
  destruct (decide (Z.of_nat i < n)%Z) as [Hi|Hi].
  - rewrite !lookup_seqZ_lt by done. simpl. f_equal. lia.
  - rewrite !lookup_seqZ_ge by lia. done.
Qed.



(** The calls of the shuffle step, and what it leaves in memory. *)
Lemma shuffle_step_calls st g :
  let st' := (shuffle_step cfg st g).1 in
  calls st' = calls st
              ++ shuffle_calls cfg (allMetadata st)
                   (shuffle (seqZ 1 (Z.of_nat (length (allMetadata st)))) g).1 ∧
  dnaSet st' = dnaSet st ∧ allMetadata st' = allMetadata st ∧
  imagePaths st' = imagePaths st ∧ failures st' = failures st ∧
  tokens st' = tokens st.
Proof.
  cbn zeta. unfold shuffle_step. rand_unfold. rewrite ids_from_one.
  destruct (shuffle _ g) as [indices g']. cbn [fst]. repeat split.
Qed.

End ShuffleStep.

Section ShuffleClaim.
Variable cfg : Config.



End ShuffleClaim.

(** ** The statements at concrete inputs *)

Section Witnesses.
#[local] Existing Instance code_units.
Import Examples.

Lemma wf_eye_mouth : wf_catalog (layers_of config listing_eye_mouth).
Proof. vm_compute. repeat constructor. Defined.

Lemma override_in_place_keeps_asset_witness :
  findIndex [pick_laser; pick_smile] "Mouth" = Some 1%nat ∧
  [pick_laser; pick_smile] !! 1%nat = Some pick_smile ∧
  let st' := apply_requirement (layers_of config listing_eye_mouth)
               ([pick_laser; pick_smile], 2) ("Mouth", Some "Fangs") in
  composeImage st'.1 = composeImage [pick_laser; pick_smile] ∧
  ("Mouth", Some "Fangs") ∈ attributes st'.1.
Proof.
  split; [reflexivity|]. split; [reflexivity|].
  destruct (override_in_place_keeps_asset (layers_of config listing_eye_mouth)
              [pick_laser; pick_smile] 2 "Mouth" (Some "Fangs") 1 pick_smile
              eq_refl eq_refl)
    as (_ & _ & _ & _ & _ & _ & _ & _ & _ & _ & H1 & _ & H2).
  split; [exact H1|exact H2].
Defined.

Lemma one_pick_per_layer_witness :
  wf_catalog (layers_of config listing_eye_mouth) ∧
  let layers := layers_of config listing_eye_mouth in
  let selection := (pickTraitsForLayers config layers (rng_const (Fin 0))).1 in
  Forall2 picked_from selection layers ∧ length selection = length layers.
Proof.
  split; [exact wf_eye_mouth|].
  destruct (one_pick_per_layer config (layers_of config listing_eye_mouth)
              (rng_const (Fin 0)) wf_eye_mouth) as (H1 & H2 & _).
  split; [exact H1|exact H2].
Defined.

Lemma picks_from_catalog :
  ∀ p, p ∈ [pick_laser; pick_smile] →
       Pick.layer p ∈ map Layer.id (layers_of config listing_eye_mouth).
Proof.
  intros p Hp. apply elem_of_cons in Hp as [->|Hp].
  - vm_compute. constructor.
  - apply elem_of_cons in Hp as [->|Hp].
    + vm_compute. repeat constructor.
    + by apply elem_of_nil in Hp.
Defined.

Lemma missing_requirement_target_witness :
  (∀ p, p ∈ [pick_laser; pick_smile] →
        Pick.layer p ∈ map Layer.id (layers_of config listing_eye_mouth)) ∧
  ("Wings" ∉ map Layer.id (layers_of config listing_eye_mouth)) ∧
  apply_requirement (layers_of config listing_eye_mouth)
    ([pick_laser; pick_smile], 2) ("Wings", Some "Gold")
  = ([pick_laser; pick_smile], 2).
Proof.
  split; [exact picks_from_catalog|].
  assert (Hnot : "Wings" ∉ map Layer.id (layers_of config listing_eye_mouth)).
  { vm_compute. intros H. repeat (apply elem_of_cons in H as [H|H]; [discriminate|]).
    by apply elem_of_nil in H. }
  split; [exact Hnot|].
  exact (proj1 (missing_requirement_target (layers_of config listing_eye_mouth)
                  [pick_laser; pick_smile] 2 "Wings" (Some "Gold")
                  picks_from_catalog) Hnot).
Defined.

Lemma token_slot_outcome_witness :
  wf_catalog (layers_of config listing_eye_mouth) ∧
  let layers := layers_of config listing_eye_mouth in
  let r := search config layers (dnaSet initial)
             (Z.to_nat (uniqueDnaTorrance config)) 0 None (rng_const (Fin 0)) in
  1 ≤ r.1.1.2 ∧ r.1.1.2 ≤ Z.max 1 (uniqueDnaTorrance config).
Proof.
  split; [exact wf_eye_mouth|].
  destruct (token_slot_outcome config (layers_of config listing_eye_mouth)
              initial 1 (rng_const (Fin 0)) wf_eye_mouth) as (H1 & H2 & _).
  split; [exact H1|exact H2].
Defined.

Lemma code_units_consistent : consistent code_units.
Proof.
  split.
  - intros a b. exact (String.compare_antisym b a).
  - intros a b c Hab Hbc Hac. unfold code_units in *.
    destruct (String_as_OT.compare_spec a c) as [?|?|Hca]; try done.
    destruct (String_as_OT.compare_spec a b) as [->|Hlab|?]; try done.
    + destruct (String_as_OT.compare_spec b c) as [->|Hlbc|?]; try done.
      * exact (StrictOrder_Irreflexive (R := String_as_OT.lt) c Hca).
      * exact (StrictOrder_Irreflexive (R := String_as_OT.lt) b
                 (StrictOrder_Transitive (R := String_as_OT.lt) _ _ _ Hlbc Hca)).
    + destruct (String_as_OT.compare_spec b c) as [<-|Hlbc|?]; try done.
      * exact (StrictOrder_Irreflexive (R := String_as_OT.lt) a
                 (StrictOrder_Transitive (R := String_as_OT.lt) _ _ _ Hlab Hca)).
      * exact (StrictOrder_Irreflexive (R := String_as_OT.lt) a
                 (StrictOrder_Transitive (R := String_as_OT.lt) _ _ _ Hlab
                    (StrictOrder_Transitive (R := String_as_OT.lt) _ _ _ Hlbc Hca))).
Defined.

Lemma apart_by_code_units (selection : Selection) :
  NoDup (map Pick.layer selection) → layers_apart selection.
Proof.
  intros Hnd. split; [exact Hnd|]. intros a b _ _ Heq.
  by apply String.compare_eq_iff.
Defined.

Lemma fingerprint_order_independent_witness :
  consistent code_units ∧
  layers_apart [pick_laser; pick_smile] ∧
  layers_apart [pick_smile; pick_laser] ∧
  (∀ pr, pr ∈ pairs [pick_laser; pick_smile] ↔ pr ∈ pairs [pick_smile; pick_laser]) ∧
  dnaFromSelection [pick_laser; pick_smile] = dnaFromSelection [pick_smile; pick_laser].
Proof.
  assert (H1 : layers_apart [pick_laser; pick_smile]).
  { apply apart_by_code_units. apply (bool_decide_unpack _). vm_compute. exact I. }
  assert (H2 : layers_apart [pick_smile; pick_laser]).
  { apply apart_by_code_units. apply (bool_decide_unpack _). vm_compute. exact I. }
  assert (H3 : ∀ pr, pr ∈ pairs [pick_laser; pick_smile]
                     ↔ pr ∈ pairs [pick_smile; pick_laser]).
  { intros pr. unfold pairs. cbn [map].
    rewrite !elem_of_cons, !elem_of_nil. tauto. }
  split; [exact code_units_consistent|].
  split; [exact H1|]. split; [exact H2|]. split; [exact H3|].
  exact (fingerprint_order_independent code_units_consistent _ _ H1 H2 H3).
Defined.

Lemma parseWeight_cases_witness :
  rarityDelimiter config = String "#" "" ∧
  (has_char "/" ("Hat" +:+ String "#" "30") = false) ∧
  (has_char "#" "30" = false) ∧
  decimal_literal "30" ∧ (0 < decimal_value "30" < 2 ^ 53) ∧
  (parseWeight config (("Hat" +:+ String "#" "30") +:+ ".png")).1 = "Hat" ∧
  (parseWeight config (("Hat" +:+ String "#" "30") +:+ ".png")).2
  = Fin (inject_Z (decimal_value "30")).
Proof.
  assert (Hlit : decimal_literal "30") by (split; [discriminate|reflexivity]).
  assert (Hval : 0 < decimal_value "30" < 2 ^ 53) by (vm_compute; split; reflexivity).
  split; [reflexivity|]. split; [reflexivity|]. split; [reflexivity|].
  split; [exact Hlit|]. split; [exact Hval|].
  destruct (parseWeight_cases config "#" "Hat" "30" eq_refl eq_refl eq_refl)
    as (H1 & H2 & _).
  split; [exact H1|exact (H2 Hlit Hval)].
Defined.

Lemma requirement_rule_enforced_witness :
  let layers := layers_of config listing_eye_mouth in
  let g := rng_const (Fin 0) in
  let drawn := (draw_traits config layers g).1.1 in
  wf_catalog layers ∧
  has_char ":" "Mouth" = false ∧ has_char ":" "Fangs" = false ∧
  requires config !! traitKey "Eye" (Some "Laser") = Some ["Mouth:Fangs"] ∧
  traitKey "Mouth" (Some "Fangs") ∈ ["Mouth:Fangs"] ∧
  "Mouth" ∈ map Layer.id layers ∧
  (∃ p, p ∈ drawn ∧ Pick.layer p = "Eye" ∧ Pick.name p = Some "Laser") ∧
  (∀ k' reqs', k' ∈ chosen_keys drawn → requires config !! k' = Some reqs' →
               agree_on "Mouth" (Some "Fangs") reqs') ∧
  ∃ idx p p0,
    findIndex drawn "Mouth" = Some idx ∧ drawn !! idx = Some p0 ∧
    (pickTraitsForLayers config layers g).1 !! idx = Some p ∧
    Pick.layer p = "Mouth" ∧ Pick.name p = Some "Fangs" ∧ same_asset p p0.
Proof.
  cbn zeta.
  assert (Hreq : requires config !! traitKey "Eye" (Some "Laser") = Some ["Mouth:Fangs"])
    by (vm_compute; reflexivity).
  assert (Hin : traitKey "Mouth" (Some "Fangs") ∈ ["Mouth:Fangs"])
    by (vm_compute; constructor).
  assert (Hlayer : "Mouth" ∈ map Layer.id (layers_of config listing_eye_mouth))
    by (vm_compute; repeat constructor).
  assert (Hdrawn : (draw_traits config (layers_of config listing_eye_mouth)
                      (rng_const (Fin 0))).1.1 = [pick_laser; pick_smile])
    by (vm_compute; reflexivity).
  assert (Hp : ∃ p, p ∈ (draw_traits config (layers_of config listing_eye_mouth)
                           (rng_const (Fin 0))).1.1 ∧
                    Pick.layer p = "Eye" ∧ Pick.name p = Some "Laser").
  { exists pick_laser. rewrite Hdrawn. split; [constructor|]. split; reflexivity. }
  assert (Hag : ∀ k' reqs',
            k' ∈ chosen_keys (draw_traits config (layers_of config listing_eye_mouth)
                                (rng_const (Fin 0))).1.1 →
            requires config !! k' = Some reqs' →
            agree_on "Mouth" (Some "Fangs") reqs').
  { intros k' reqs' Hk'. rewrite Hdrawn in Hk'.
    change (chosen_keys [pick_laser; pick_smile]) with ["Eye:Laser"; "Mouth:Smile"] in Hk'.
    apply elem_of_cons in Hk' as [->|Hk'].
    - change "Eye:Laser" with (traitKey "Eye" (Some "Laser")).
      rewrite Hreq. intros [= <-] t Ht _.
      apply list_elem_of_singleton in Ht. subst t. reflexivity.
    - apply list_elem_of_singleton in Hk'. subst k'. vm_compute. discriminate. }
  split; [exact wf_eye_mouth|]. split; [reflexivity|]. split; [reflexivity|].
  split; [exact Hreq|]. split; [exact Hin|]. split; [exact Hlayer|].
  split; [exact Hp|]. split; [exact Hag|].
  exact (requirement_rule_enforced config (layers_of config listing_eye_mouth)
           (rng_const (Fin 0)) "Eye" "Laser" "Mouth" "Fangs" ["Mouth:Fangs"]
           wf_eye_mouth eq_refl eq_refl Hreq Hin Hlayer Hp Hag).
Defined.

Lemma unit_draw_half : ∀ k, unit_draw (draws (rng_const (Fin (1 # 2))) k).
Proof.
  intros k. exists (1 # 2). split; [reflexivity|]. split; vm_compute; discriminate.
Defined.


End Witnesses.

(** * Further properties of the code *)

(** ** The layer catalog *)

Section CatalogFacts.
Variable cfg : Config.

Lemma collect_layers_entries listing :
  Forall2 (layer_of_entry cfg) (collect_layers cfg listing)
    (filter (λ entry, has_files entry = true) listing).
Proof.
  induction listing as [|[dir files] listing IH]; [constructor|].
  destruct files as [|f fs].
  - cbn [collect_layers]. rewrite filter_cons_False; [done|].
    unfold has_files. cbn. discriminate.
  - cbn [collect_layers]. rewrite filter_cons_True by done.
    constructor; [|done]. split; reflexivity.
Qed.

(** X1. [readLayers] throws exactly when no directory holds an asset;
    otherwise it returns one layer per directory that holds assets, in
    listing order, titled after the directory, with one element per file in
    the order of the listing. *)
Theorem readLayers_outcome (listing : list (string * list string)) :
  let kept := filter (λ entry, has_files entry = true) listing in
  (kept = [] →
     readLayers cfg listing
     = inl "No layers found under ./traits. Add layered PNGs first.") ∧
  (kept ≠ [] →
     ∃ layers, readLayers cfg listing = inr layers ∧ layers ≠ [] ∧
               Forall2 (layer_of_entry cfg) layers kept).
Proof.
  cbn zeta. pose proof (collect_layers_entries listing) as H.
  unfold readLayers. split.
  - intros Hk. rewrite Hk in H. apply Forall2_nil_inv_r in H. by rewrite H.
  - intros Hk. destruct (collect_layers cfg listing) as [|l layers] eqn:E.
    + apply Forall2_nil_inv_l in H. done.
    + exists (l :: layers). split; [reflexivity|]. split; [discriminate|exact H].
Qed.

(** The weight of a parsed file name is never zero and never NaN. *)
Lemma parseWeight_truthy filename : truthy (parseWeight cfg filename).2 = true.
Proof.
  unfold parseWeight.
  destruct (lastIndexOf _ _) as [idx|]; cbn [snd]; [|reflexivity].
  destruct (truthy (Number _)) eqn:E; [exact E|reflexivity].
Qed.

Lemma element_of_file_fields dir f :
  let e := element_of_file cfg dir f in
  Element.layer e = toTitle dir ∧
  Element.id e = traitKey (Element.layer e) (Some (Element.name e)) ∧
  Element.weight e = (parseWeight cfg f).2 ∧
  Element.name e = (parseWeight cfg f).1 ∧
  Element.path e = path_join (path_join (traitsDir cfg) dir) f.
Proof.
  cbn zeta. unfold element_of_file. destruct (parseWeight cfg f) as [name weight].
  repeat split; reflexivity.
Qed.

(** X2. Every element of a catalog read by [readLayers] has a weight that is
    neither zero nor NaN, carries the name of its layer, and has the id
    "layer:name". *)
Theorem catalog_elements (listing : list (string * list string)) (layers : list Layer.t) :
  readLayers cfg listing = inr layers →
  ∀ l e, l ∈ layers → e ∈ Layer.elements l →
    truthy (Element.weight e) = true ∧
    Element.layer e = Layer.id l ∧
    Element.id e = Layer.id l +:+ ":" +:+ Element.name e.
Proof.
  intros Hread l e Hl He.
  assert (Hlayers : layers = collect_layers cfg listing).
  { unfold readLayers in Hread.
    destruct (collect_layers cfg listing); [done|]. by inversion Hread. }
  pose proof (collect_layers_entries listing) as H. rewrite <- Hlayers in H.
  apply list_elem_of_lookup in Hl as [i Hi].
  destruct (Forall2_lookup_l _ _ _ _ _ H Hi) as ([dir files] & _ & Hid & Hel).
  cbn [fst snd] in *. rewrite Hel in He.
  apply list_elem_of_fmap in He as (f & -> & _).
  destruct (element_of_file_fields dir f) as (H1 & H2 & H3 & _). cbn zeta in *.
  split; [rewrite H3; apply parseWeight_truthy|].
  split; [congruence|]. rewrite H2, H1, Hid. reflexivity.
Qed.

Lemma collect_layers_ids listing : ids_match (collect_layers cfg listing).
Proof.
  induction listing as [|[dir files] listing IH]; [constructor|].
  destruct files as [|f fs]; [done|]. cbn [collect_layers].
  constructor; [|done]. unfold Layer.elements. cbn [Layer.first Layer.rest].
  constructor.
  - by destruct (element_of_file_fields dir f) as (_ & H & _).
  - apply Forall_fmap, Forall_forall. intros f' _.
    by destruct (element_of_file_fields dir f') as (_ & H & _).
Qed.
End CatalogFacts.

(** ** Layer titles *)

Section Titles.
#[local] Open Scope string_scope.

Lemma has_char_underscores s : has_char "_" (underscores_to_spaces s) = false.
Proof.
  induction s as [|c s IH]; [reflexivity|].
  cbn [underscores_to_spaces has_char]. rewrite IH, orb_false_r.
  destruct (Ascii.eqb c "_") eqn:E; [reflexivity|exact E].
Qed.

Lemma underscores_to_spaces_id s :
  has_char "_" s = false → underscores_to_spaces s = s.
Proof.
  induction s as [|c s IH]; [reflexivity|].
  cbn [underscores_to_spaces has_char]. intros [E1 E2]%orb_false_elim.
  by rewrite E1, IH.
Qed.

Lemma has_char_trim_left c s : has_char c s = false → has_char c (trim_left s) = false.
Proof.
  induction s as [|a s IH]; [done|]. intros H. cbn [trim_left].
  destruct (is_ws a); [|exact H].
  apply IH. cbn [has_char] in H. by apply orb_false_elim in H as [_ H].
Qed.

Lemma has_char_trim_right c s : has_char c s = false → has_char c (trim_right s) = false.
Proof.
  induction s as [|a s IH]; [done|]. cbn [has_char trim_right].
  intros [E1 E2]%orb_false_elim. specialize (IH E2).
  destruct (trim_right s) as [|b t].
  - destruct (is_ws a); [reflexivity|]. cbn [has_char]. by rewrite E1.
  - cbn [has_char] in *. by rewrite E1, IH.
Qed.

Lemma has_char_skip_digits c s : has_char c (skip_digits s) = true → has_char c s = true.
Proof.
  induction s as [|a s IH]; [done|]. cbn [skip_digits].
  destruct (is_digit a); [|done]. intros H. cbn [has_char].
  rewrite (IH H). apply orb_true_r.
Qed.

Lemma strip_order_prefix_id s : has_char "_" s = false → strip_order_prefix s = s.
Proof.
  intros H. unfold strip_order_prefix. destruct s as [|c s]; [reflexivity|].
  destruct (is_digit c); [|reflexivity].
  destruct (skip_digits (String c s)) as [|u rest] eqn:E; [reflexivity|].
  destruct (Ascii.eqb u "_") eqn:Eu; [|reflexivity].
  assert (has_char "_" (String c s) = true) as H'; [|congruence].
  apply has_char_skip_digits. rewrite E. cbn [has_char]. by rewrite Eu.
Qed.

Lemma trim_right_idem s : trim_right (trim_right s) = trim_right s.
Proof.
  induction s as [|c s IH]; [reflexivity|]. cbn [trim_right].
  destruct (trim_right s) as [|a t] eqn:E.
  - destruct (is_ws c) eqn:Ec; [reflexivity|]. cbn [trim_right]. by rewrite Ec.
  - change (trim_right (String c (String a t))) with
      (match trim_right (String a t) with
       | EmptyString => if is_ws c then EmptyString else String c EmptyString
       | t' => String c t'
       end).
    by rewrite IH.
Qed.

Lemma trim_left_head s :
  trim_left s = EmptyString ∨ ∃ c t, trim_left s = String c t ∧ is_ws c = false.
Proof.
  induction s as [|c s IH]; [by left|]. cbn [trim_left].
  destruct (is_ws c) eqn:E; [exact IH|]. right. by exists c, s.
Qed.

Lemma trim_right_head c s :
  is_ws c = false → ∃ t, trim_right (String c s) = String c t.
Proof.
  intros E. cbn [trim_right]. destruct (trim_right s) as [|a t].
  - rewrite E. by exists EmptyString.
  - by exists (String a t).
Qed.

Lemma trim_idem s : trim (trim s) = trim s.
Proof.
  unfold trim. destruct (trim_left_head s) as [->|(c & t & -> & E)]; [reflexivity|].
  destruct (trim_right_head c t E) as [t' Ht]. rewrite Ht at 1.
  cbn [trim_left]. rewrite E, <- Ht. apply trim_right_idem.
Qed.

Lemma has_char_toTitle s : has_char "_" (toTitle s) = false.
Proof.
  unfold toTitle, trim.
  apply has_char_trim_right, has_char_trim_left, has_char_underscores.
Qed.

(** X3. A layer title holds no underscore, and [toTitle] leaves a title as it
    is: titling twice is titling once. *)
Theorem toTitle_idempotent (s : string) :
  has_char "_" (toTitle s) = false ∧ toTitle (toTitle s) = toTitle s.
Proof.
  split; [apply has_char_toTitle|].
  unfold toTitle at 1.
  rewrite strip_order_prefix_id, underscores_to_spaces_id by apply has_char_toTitle.
  unfold toTitle. apply trim_idem.
Qed.

Lemma lastIndexOf_from_empty i s :
  lastIndexOf_from i "" s = Some (i + String.length s)%nat.
Proof.
  revert i. induction s as [|c s IH]; intros i.
  - cbn. f_equal. lia.
  - cbn [lastIndexOf_from String.length]. rewrite IH. f_equal. lia.
Qed.

Lemma take_length s : JsStr.take (String.length s) s = s.
Proof. induction s as [|c s IH]; [reflexivity|]. cbn. by rewrite IH. Qed.

Lemma drop_past s n : (String.length s ≤ n)%nat → JsStr.drop n s = "".
Proof.
  revert n. induction s as [|c s IH]; intros n Hn; [by destruct n|].
  cbn in Hn. destruct n as [|n]; [lia|]. cbn. apply IH. lia.
Qed.

(** X4. With an empty [rarityDelimiter] the whole base name is the trait name and
    the weight is always 1: the delimiter is found at the end of the name,
    and nothing is left to read a weight from. *)
Theorem parseWeight_empty_delimiter (cfg : Config) (filename : string) :
  rarityDelimiter cfg = "" →
  parseWeight cfg filename = (path_parse_name filename, Fin 1).
Proof.
  intros Hd. unfold parseWeight, lastIndexOf. rewrite Hd, lastIndexOf_from_empty.
  cbn [Nat.add]. rewrite take_length, drop_past by lia. reflexivity.
Qed.
End Titles.

(** ** The rule tables *)

Section MapFacts.
Context {K V : Type} `{EqDecision K}.

Lemma JsMap_set_elem (m : list (K * V)) k v e :
  e ∈ JsMap.set m k v → e = (k, v) ∨ e ∈ m.
Proof.
  induction m as [|[k' v'] m IH]; cbn [JsMap.set].
  - intros He. apply elem_of_cons in He as [He|He]; [by left|by right].
  - destruct (decide (k' = k)) as [_|_]; intros He;
      apply elem_of_cons in He as [He|He].
    + by left.
    + right. by right.
    + right. subst e. by left.
    + destruct (IH He) as [?|?]; [by left|right; by right].
Qed.

Lemma JsMap_set_key (m : list (K * V)) k v k' :
  k' ∈ map fst (JsMap.set m k v) ↔ k' = k ∨ k' ∈ map fst m.
Proof.
  induction m as [|[k0 v0] m IH]; cbn [JsMap.set map fst].
  - rewrite elem_of_cons. tauto.
  - destruct (decide (k0 = k)) as [->|Hne]; cbn [map fst].
    + rewrite !elem_of_cons. tauto.
    + rewrite !elem_of_cons, IH. tauto.
Qed.
End MapFacts.

Section RuleFacts.
Variable cfg : Config.

Lemma chosen_keys_iff (selection : Selection) k :
  k ∈ chosen_keys selection ↔
  ∃ p, p ∈ selection ∧ k = traitKey (Pick.layer p) (Pick.name p).
Proof.
  unfold chosen_keys. rewrite JsSet_elem_of_list. split.
  - intros Hk. apply list_elem_of_fmap in Hk as (p & -> & Hp). by exists p.
  - intros (p & Hp & ->). apply list_elem_of_fmap. by exists p.
Qed.

(** X6. [violatesIncompatibilities] reports a selection exactly when the table
    has an entry for the key "layer:name" of one of its picks that lists the
    key of one of its picks.  The keys are built from [layer] and [name] as
    they are when the check runs, so after any requirement override; the
    table is read in one direction only. *)
Theorem incompatibility_check_exact (selection : Selection) :
  violatesIncompatibilities cfg selection = true ↔
  ∃ p q bad, p ∈ selection ∧ q ∈ selection ∧
    incompatible cfg !! traitKey (Pick.layer p) (Pick.name p) = Some bad ∧
    traitKey (Pick.layer q) (Pick.name q) ∈ bad.
Proof.
  rewrite violatesIncompatibilities_true. split.
  - intros (k & bad & b & Hk & Hlook & Hb & Hin).
    apply chosen_keys_iff in Hk as (p & Hp & ->).
    apply chosen_keys_iff in Hin as (q & Hq & ->).
    by exists p, q, bad.
  - intros (p & q & bad & Hp & Hq & Hlook & Hb).
    exists (traitKey (Pick.layer p) (Pick.name p)), bad,
      (traitKey (Pick.layer q) (Pick.name q)).
    repeat split; try done; apply chosen_keys_iff; eauto.
Qed.

Lemma requirement_targets_elem reqs (m : list (string * option string)) e :
  e ∈ foldl (λ mustAdd target,
     let '(layer, value) := split_target target in JsMap.set mustAdd layer value) m reqs →
  e ∈ m ∨ ∃ t, t ∈ reqs ∧ split_target t = e.
Proof.
  revert m. induction reqs as [|t reqs IH]; intros m; cbn [foldl]; [by left|].
  intros H. apply IH in H as [H|(t' & Ht' & Hs)].
  - destruct (split_target t) as [layer value] eqn:Hst.
    apply JsMap_set_elem in H as [->|H]; [|by left].
    right. exists t. split; [by left|done].
  - right. exists t'. split; [by right|done].
Qed.

Lemma requirement_targets_key reqs (m : list (string * option string)) B :
  B ∈ map fst m ∨ (∃ t, t ∈ reqs ∧ (split_target t).1 = B) →
  B ∈ map fst (foldl (λ mustAdd target,
     let '(layer, value) := split_target target in JsMap.set mustAdd layer value) m reqs).
Proof.
  revert m. induction reqs as [|t reqs IH]; intros m; cbn [foldl].
  - intros [H|(t & Ht & _)]; [done|by apply elem_of_nil in Ht].
  - intros H. apply IH. destruct (split_target t) as [layer value] eqn:Hst.
    destruct H as [H|(t' & Ht' & HB)].
    + left. apply JsMap_set_key. by right.
    + apply elem_of_cons in Ht' as [->|Ht'].
      * left. apply JsMap_set_key. left. by rewrite Hst in HB.
      * right. by exists t'.
Qed.

Lemma enforceRequirements_elem (selection : Selection) layer value :
  (layer, value) ∈ enforceRequirements cfg selection →
  ∃ p reqs target, p ∈ selection ∧
    requires cfg !! traitKey (Pick.layer p) (Pick.name p) = Some reqs ∧
    target ∈ reqs ∧ split_target target = (layer, value).
Proof.
  unfold enforceRequirements.
  set (step := λ (mustAdd : list (string * option string)) (k : string),
         match requires cfg !! k with
         | Some reqs =>
             foldl (λ mustAdd target,
               let '(layer, value) := split_target target in
               JsMap.set mustAdd layer value) mustAdd reqs
         | None => mustAdd
         end).
  assert (Hsound : ∀ ks m e, e ∈ foldl step m ks →
            e ∈ m ∨ ∃ k reqs t, k ∈ ks ∧ requires cfg !! k = Some reqs ∧
                                t ∈ reqs ∧ split_target t = e).
  { induction ks as [|k ks IH]; intros m e; cbn [foldl]; [by left|].
    intros H. apply IH in H as [H|(k' & reqs & t & Hk' & Hr & Ht & Hs)].
    - unfold step in H. destruct (requires cfg !! k) as [reqs|] eqn:Hr; [|by left].
      apply requirement_targets_elem in H as [H|(t & Ht & Hs)]; [by left|].
      right. exists k, reqs, t. split; [by left|done].
    - right. exists k', reqs, t. split; [by right|done]. }
  intros He. apply Hsound in He as [He|(k & reqs & t & Hk & Hr & Ht & Hs)].
  - by apply elem_of_nil in He.
  - apply chosen_keys_iff in Hk as (p & Hp & ->). by exists p, reqs, t.
Qed.

(** X7. [enforceRequirements] returns a map with one entry per target layer:
    every entry is the layer and value of a target listed for the key of a
    pick of the selection, and every layer so targeted has an entry. *)
Theorem requirements_from_rules (selection : Selection) :
  let mustAdd := enforceRequirements cfg selection in
  NoDup (map fst mustAdd) ∧
  (∀ layer value, (layer, value) ∈ mustAdd →
     ∃ p reqs target, p ∈ selection ∧
       requires cfg !! traitKey (Pick.layer p) (Pick.name p) = Some reqs ∧
       target ∈ reqs ∧ split_target target = (layer, value)) ∧
  (∀ p reqs target, p ∈ selection →
     requires cfg !! traitKey (Pick.layer p) (Pick.name p) = Some reqs →
     target ∈ reqs → (split_target target).1 ∈ map fst mustAdd).
Proof.
  cbn zeta. split; [apply enforceRequirements_NoDup|].
  split; [apply enforceRequirements_elem|].
  unfold enforceRequirements.
  set (step := λ (mustAdd : list (string * option string)) (k : string),
         match requires cfg !! k with
         | Some reqs =>
             foldl (λ mustAdd target,
               let '(layer, value) := split_target target in
               JsMap.set mustAdd layer value) mustAdd reqs
         | None => mustAdd
         end).
  assert (Hkeys : ∀ ks m B,
            B ∈ map fst m ∨
            (∃ k reqs t, k ∈ ks ∧ requires cfg !! k = Some reqs ∧
                         t ∈ reqs ∧ (split_target t).1 = B) →
            B ∈ map fst (foldl step m ks)).
  { induction ks as [|k ks IH]; intros m B; cbn [foldl].
    - intros [H|(k & ? & ? & Hk & _)]; [done|by apply elem_of_nil in Hk].
    - intros H. apply IH.
      destruct H as [H|(k' & reqs & t & Hk' & Hr & Ht & HB)].
      + left. unfold step. destruct (requires cfg !! k); [|done].
        apply requirement_targets_key. by left.
      + apply elem_of_cons in Hk' as [->|Hk'].
        * left. unfold step. rewrite Hr. apply requirement_targets_key.
          right. by exists t.
        * right. by exists k', reqs, t. }
  intros p reqs target Hp Hr Ht. apply Hkeys. right.
  exists (traitKey (Pick.layer p) (Pick.name p)), reqs, target.
  split; [|done]. apply chosen_keys_iff. by exists p.
Qed.
End RuleFacts.

(** ** Picks and their ids *)

Section PickFacts.
Variable cfg : Config.

(** X5. [weightedPick] consumes exactly one draw and returns an element of the
    layer; on a layer with a single element it returns that element
    whatever the draw and the weight are. *)
Theorem weightedPick_outcome (l : Layer.t) (g : Rng) :
  let r := weightedPick l g in
  r.1 ∈ Layer.elements l ∧
  r.2 = {| draws := draws g; pos := S (pos g) |} ∧
  (Layer.rest l = [] → r.1 = Layer.first l).
Proof.
  cbn zeta. destruct (weightedPick_spec l g) as [Hin Hg].
  split; [done|]. split; [done|].
  intros Hrest. unfold Layer.elements in Hin. rewrite Hrest in Hin.
  apply elem_of_cons in Hin as [Hin|Hin]; [done|by apply elem_of_nil in Hin].
Qed.

Lemma id_matches_of_element layers l e order :
  ids_match layers → l ∈ layers → e ∈ Layer.elements l →
  id_matches (Pick.of_element e order).
Proof.
  intros Hids Hl He. unfold ids_match in Hids.
  rewrite Forall_forall in Hids. specialize (Hids l Hl).
  rewrite Forall_forall in Hids. exact (Hids e He).
Qed.

Lemma pick_each_ids layers0 layers order g :
  ids_match layers0 → (∀ l, l ∈ layers → l ∈ layers0) →
  Forall id_matches (pick_each layers order g).1.1.
Proof.
  intros Hids. revert order g.
  induction layers as [|l layers IH]; intros order g Hsub; cbn [pick_each].
  - rand_unfold. constructor.
  - rand_unfold. destruct (weightedPick_spec l g) as [Hin _].
    destruct (weightedPick l g) as [el g1]. cbn [fst] in Hin.
    assert (Hsub' : ∀ l', l' ∈ layers → l' ∈ layers0).
    { intros l' Hl'. apply Hsub. by right. }
    specialize (IH (order + 1) g1 Hsub').
    destruct (pick_each layers (order + 1) g1) as [[picked order'] g2].
    cbn [fst] in *. constructor; [|done].
    eapply id_matches_of_element; [done| |done]. apply Hsub. by left.
Qed.

Lemma add_mandatory_ids layers st m :
  ids_match layers → Forall id_matches st.1 →
  Forall id_matches (add_mandatory layers st m).1.
Proof.
  intros Hids Hst. destruct st as [picked order]. unfold add_mandatory.
  destruct (has_layer picked m); [done|].
  destruct (find_layer layers m) as [l|] eqn:Hf; [|done].
  apply find_layer_Some in Hf as [Hl _]. cbn [fst] in *.
  apply Forall_app. split; [done|]. constructor; [|constructor].
  eapply id_matches_of_element; [done|done|].
  set (sorted := sort _ _).
  assert (Hp : sorted ≡ₚ Layer.elements l) by apply sort_Permutation.
  destruct sorted as [|e sorted].
  - apply Permutation_nil_l in Hp. discriminate Hp.
  - cbn [hd]. rewrite <- Hp. by left.
Qed.

Lemma apply_requirement_ids layers st entry :
  ids_match layers → Forall id_matches st.1 →
  Forall id_matches (apply_requirement layers st entry).1.
Proof.
  intros Hids Hst. destruct st as [picked order], entry as [layerName valueName].
  unfold apply_requirement. cbn [fst] in Hst.
  destruct (findIndex picked layerName) as [idx|] eqn:Hidx.
  - apply findIndex_Some in Hidx as (p & Hp & Hlayer). rewrite Hp. cbn [fst].
    apply Forall_insert; [done|].
    unfold id_matches, Pick.rename. cbn. by rewrite Hlayer.
  - destruct (find_layer layers layerName) as [l|] eqn:Hf; [|done].
    apply find_layer_Some in Hf as [Hl _].
    destruct (List.find _ _) as [found|] eqn:Hfound; [|done].
    apply find_some in Hfound as [Hin _]. apply list_elem_of_In in Hin.
    cbn [fst]. apply Forall_app. split; [done|]. constructor; [|constructor].
    by eapply id_matches_of_element.
Qed.

(** X8. Every pick of a selection returned by [pickTraitsForLayers] on a
    catalog read by [readLayers] has the id "layer:name" of its own layer
    and name, overrides included: the rename writes the id it builds from
    the layer it searched for, which is the layer of the pick it found. *)
Theorem pick_ids_match (listing : list (string * list string))
    (layers : list Layer.t) (g : Rng) :
  readLayers cfg listing = inr layers →
  Forall id_matches (pickTraitsForLayers cfg layers g).1.
Proof.
  intros Hread.
  assert (Hids : ids_match layers).
  { unfold readLayers in Hread.
    destruct (collect_layers cfg listing) eqn:E; [done|].
    inversion Hread. subst layers. rewrite <- E. apply collect_layers_ids. }
  unfold pickTraitsForLayers, draw_traits. rand_unfold.
  pose proof (pick_each_ids layers layers 0 g Hids (λ l H, H)) as H0.
  destruct (pick_each layers 0 g) as [st g']. cbn [fst snd] in *.
  assert (H1 : Forall id_matches (foldl (add_mandatory layers) st (mandatoryLayers cfg)).1).
  { revert st H0. induction (mandatoryLayers cfg) as [|m ms IH]; intros st H0; [done|].
    cbn [foldl]. apply IH. by apply add_mandatory_ids. }
  revert H1. generalize (foldl (add_mandatory layers) st (mandatoryLayers cfg)) as st1.
  intros st1 H1.
  generalize (enforceRequirements cfg st1.1) as entries. intros entries.
  revert st1 H1. induction entries as [|entry entries IH]; intros st1 H1; [done|].
  cbn [foldl]. apply IH. by apply apply_requirement_ids.
Qed.

(** X9. When no pick of the first loop has an entry in [requires], the
    selection returned by [pickTraitsForLayers] is the picks as drawn: the
    pick of each catalog layer is a copy of one of the layer's elements,
    name and id included. *)
Theorem untriggered_rules_keep_picks (layers : list Layer.t) (g : Rng) :
  wf_catalog layers →
  (∀ p, p ∈ (pick_each layers 0 g).1.1 →
        requires cfg !! traitKey (Pick.layer p) (Pick.name p) = None) →
  (pickTraitsForLayers cfg layers g).1 = (pick_each layers 0 g).1.1 ∧
  Forall2 (λ p l, ∃ e order, e ∈ Layer.elements l ∧ p = Pick.of_element e order)
    (pickTraitsForLayers cfg layers g).1 layers.
Proof.
  intros Hwf Hnone. rewrite pickTraitsForLayers_unfold by done. cbn [fst].
  assert (Hempty : enforceRequirements cfg (pick_each layers 0 g).1.1 = []).
  { destruct (enforceRequirements cfg (pick_each layers 0 g).1.1)
      as [|[layer value] rest] eqn:E; [done|].
    destruct (enforceRequirements_elem cfg (pick_each layers 0 g).1.1 layer value)
      as (p & reqs & t & Hp & Hr & _).
    { rewrite E. by left. }
    rewrite (Hnone p Hp) in Hr. discriminate Hr. }
  rewrite Hempty. cbn [foldl]. split; [done|].
  destruct (pick_each_spec layers Hwf 0 g) as (_ & _ & H3 & _).
  cbn zeta in H3. eapply Forall2_impl; [exact H3|].
  intros p l (e & He & o & ->). by exists e, o.
Qed.
End PickFacts.

(** ** Reading a fingerprint back *)

Section FingerprintInjective.
Context {collation : Collation}.
#[local] Open Scope string_scope.
#[local] Arguments String.append !_ _ / : simpl nomatch.

Lemma app_sep_inj c a1 b1 a2 b2 :
  has_char c a1 = false → has_char c a2 = false →
  a1 +:+ String c b1 = a2 +:+ String c b2 → a1 = a2 ∧ b1 = b2.
Proof.
  revert a2. induction a1 as [|x a1 IH]; intros [|y a2]; simpl.
  - intros _ _ [= ->]. done.
  - intros _ [Hy _]%orb_false_iff [= <- _]. by rewrite Ascii.eqb_refl in Hy.
  - intros [Hx _]%orb_false_iff _ [= -> _]. by rewrite Ascii.eqb_refl in Hx.
  - intros [_ H1]%orb_false_iff [_ H2]%orb_false_iff [= -> Heq].
    destruct (IH a2 H1 H2 Heq) as [-> ->]. done.
Qed.

Lemma split_join c l :
  l ≠ [] → Forall (λ s, has_char c s = false) l →
  JsStr.split c (join (String c "") l) = l.
Proof.
  induction l as [|x l IH]; [done|]. intros _ Hl.
  apply Forall_cons in Hl as [Hx Hl]. destruct l as [|y l].
  - cbn [join]. by apply split_no_sep.
  - change (join (String c "") (x :: y :: l))
      with (x +:+ String c "" +:+ join (String c "") (y :: l)).
    change (x +:+ String c "" +:+ join (String c "") (y :: l))
      with (x +:+ String c (join (String c "") (y :: l))).
    rewrite split_at_sep by done. f_equal. by apply IH.
Qed.

Lemma join_inj c l1 l2 :
  Forall (λ s, has_char c s = false ∧ s ≠ "") l1 →
  Forall (λ s, has_char c s = false ∧ s ≠ "") l2 →
  join (String c "") l1 = join (String c "") l2 → l1 = l2.
Proof.
  intros H1 H2 Heq.
  assert (Hne : ∀ l, Forall (λ s, has_char c s = false ∧ s ≠ "") l →
                     l ≠ [] → join (String c "") l ≠ "").
  { intros [|x [|y l]] Hl Hnil; [done| |].
    - apply Forall_cons in Hl as [[_ Hx] _]. done.
    - apply Forall_cons in Hl as [[_ Hx] _]. destruct x; [done|]. simpl. done. }
  assert (Hfree : ∀ l, Forall (λ s, has_char c s = false ∧ s ≠ "") l →
                       Forall (λ s, has_char c s = false) l).
  { intros l Hl. eapply Forall_impl; [exact Hl|]. by intros s [? _]. }
  destruct l1 as [|x1 l1], l2 as [|x2 l2]; [done| | |].
  - exfalso. by apply (Hne (x2 :: l2) H2).
  - exfalso. by apply (Hne (x1 :: l1) H1).
  - rewrite <- (split_join c (x1 :: l1)), <- (split_join c (x2 :: l2)) by auto.
    by rewrite Heq.
Qed.

Lemma rendered_items (s1 s2 : Selection) :
  Forall separator_free s1 → Forall separator_free s2 →
  map (λ s, Pick.layer s +:+ ":" +:+ show (Pick.name s)) s1
  = map (λ s, Pick.layer s +:+ ":" +:+ show (Pick.name s)) s2 →
  map rendered s1 = map rendered s2.
Proof.
  revert s2. induction s1 as [|p s1 IH]; intros [|q s2] H1 H2 Heq; try done.
  apply Forall_cons in H1 as [(_ & Hp & _) H1].
  apply Forall_cons in H2 as [(_ & Hq & _) H2].
  cbn [map] in *. injection Heq as Hhd Htl.
  change (Pick.layer p +:+ ":" +:+ show (Pick.name p))
    with (Pick.layer p +:+ String ":" (show (Pick.name p))) in Hhd.
  change (Pick.layer q +:+ ":" +:+ show (Pick.name q))
    with (Pick.layer q +:+ String ":" (show (Pick.name q))) in Hhd.
  destruct (app_sep_inj _ _ _ _ _ Hp Hq Hhd) as [Hl Hn].
  f_equal; [|by apply IH]. unfold rendered. by rewrite Hl, Hn.
Qed.

(** X10. Two selections with the same fingerprint hold the same (layer, value)
    pairs once sorted by layer, provided no layer holds "|" or ":" and no
    value holds "|": the fingerprint can then be cut back into its pairs.
    An absent value is printed as "undefined", so it is the printed value
    that is recovered. *)
Theorem fingerprint_determines_pairs (s1 s2 : Selection) :
  Forall separator_free s1 → Forall separator_free s2 →
  dnaFromSelection s1 = dnaFromSelection s2 →
  map rendered (sort by_layer s1) = map rendered (sort by_layer s2).
Proof.
  intros H1 H2 Heq.
  assert (Hsorted : ∀ s, Forall separator_free s → Forall separator_free (sort by_layer s)).
  { intros s Hs. by rewrite sort_Permutation. }
  assert (Hitems : ∀ s, Forall separator_free s →
            Forall (λ x, has_char "|" x = false ∧ x ≠ "")
              (map (λ p, Pick.layer p +:+ ":" +:+ show (Pick.name p)) s)).
  { intros s Hs. apply Forall_fmap. eapply Forall_impl; [exact Hs|].
    intros p (Hl & _ & Hn). cbn. split.
    - rewrite has_char_app, Hl. cbn [has_char orb]. by rewrite Hn.
    - destruct (Pick.layer p); simpl; discriminate. }
  apply rendered_items; [by apply Hsorted|by apply Hsorted|].
  apply (join_inj "|"); [apply Hitems, Hsorted, H1|apply Hitems, Hsorted, H2|].
  exact Heq.
Qed.
End FingerprintInjective.

(** ** Render order, metadata records and image addresses *)

Section RenderFacts.
Context {A : Type}.
Variable after : A → A → bool.

Lemma sort_already_sorted (l : list A) :
  StronglySorted (λ a b, after a b = false) l → sort after l = l.
Proof.
  induction 1 as [|x l Hl IH Hx]; [reflexivity|].
  cbn [sort]. rewrite IH. destruct l as [|y l]; [reflexivity|].
  cbn [sort_insert]. apply Forall_cons in Hx as [Hy _]. by rewrite Hy.
Qed.
End RenderFacts.

Section RecordFacts.
Variable cfg : Config.
#[local] Arguments String.append !_ _ / : simpl nomatch.

Lemma numbered_sorted (selection : Selection) order n :
  map Pick._order selection = seqZ order n →
  StronglySorted (λ a b, by_order a b = false) selection.
Proof.
  revert order n. induction selection as [|p selection IH]; intros order n Heq.
  - constructor.
  - assert (Hn : 0 < n).
    { destruct (decide (0 < n)) as [?|Hn]; [done|].
      rewrite seqZ_nil in Heq by lia. discriminate Heq. }
    rewrite (seqZ_cons order) in Heq by done. cbn [map] in Heq.
    injection Heq as Hp Hrest. constructor; [by eapply IH|].
    apply Forall_forall. intros q Hq.
    assert (Ho : Pick._order q ∈ seqZ (Z.succ order) (Z.pred n)).
    { rewrite <- Hrest. apply list_elem_of_fmap. by exists q. }
    apply elem_of_seqZ in Ho. unfold by_order. apply Z.ltb_ge. lia.
Qed.

Lemma selection_shape (layers : list Layer.t) (g : Rng) :
  wf_catalog layers →
  Forall2 picked_from (pickTraitsForLayers cfg layers g).1 layers ∧
  map Pick._order (pickTraitsForLayers cfg layers g).1
  = seqZ 0 (Z.of_nat (length layers)).
Proof.
  intros Hwf. rewrite pickTraitsForLayers_unfold by done. cbn [fst].
  destruct (pick_each_spec layers Hwf 0 g) as (H1 & H2 & _).
  destruct (pick_each layers 0 g) as [[picked order] g']. cbn [fst snd] in *.
  pose proof (picked_from_all _ _ H1) as Hall.
  destruct (foldl_apply_requirement_frame layers picked order
              (enforceRequirements cfg picked) Hall) as [_ Hs].
  split.
  - eapply Forall2_trans; [|exact Hs|exact H1].
    intros p' p l (Hl & Hw & Hp & _) (Hl' & e & He & Hp' & Hw').
    split; [congruence|]. exists e. repeat split; congruence.
  - rewrite <- H2. apply Forall2_map_eq.
    eapply Forall2_impl; [exact Hs|]. by intros p' p (_&_&_&Ho').
Qed.

(** X11. For a catalog as [readLayers] builds it, sorting a returned selection
    by render order changes nothing: the image is composed of one asset
    file per catalog layer, bottom layer first in catalog order, and the
    attribute list names the catalog layers in that order with the values
    of the picks. *)
Theorem render_stack_in_catalog_order (layers : list Layer.t) (g : Rng) :
  wf_catalog layers →
  let selection := (pickTraitsForLayers cfg layers g).1 in
  composeImage selection = map Pick.path selection ∧
  Forall2 (λ file l, ∃ e, e ∈ Layer.elements l ∧ file = Element.path e)
    (composeImage selection) layers ∧
  attributes selection = pairs selection ∧
  map fst (attributes selection) = map Layer.id layers.
Proof.
  intros Hwf. cbn zeta. destruct (selection_shape layers g Hwf) as [Hfrom Hord].
  assert (Hsort : sort by_order (pickTraitsForLayers cfg layers g).1
                  = (pickTraitsForLayers cfg layers g).1).
  { apply sort_already_sorted. by eapply numbered_sorted. }
  unfold composeImage, attributes, pairs. rewrite Hsort.
  split; [done|]. split; [|split; [done|]].
  - apply Forall2_fmap_l. eapply Forall2_impl; [exact Hfrom|].
    intros p l (_ & e & He & Hp & _). by exists e.
  - rewrite map_map. cbn [fst]. by apply Forall2_picked_from_layers.
Qed.

Lemma spread_get_other (a b : JObject) k :
  k ∉ map fst b → JsMap.get (spread a b) k = JsMap.get a k.
Proof.
  unfold spread. revert a. induction b as [|[k0 v0] b IH]; intros a Hk; [done|].
  cbn [foldl fst snd]. cbn [map fst] in Hk. apply not_elem_of_cons in Hk as [Hne Hk].
  rewrite IH by done. rewrite JsMap_get_set. by destruct (decide (k0 = k)).
Qed.

Lemma spread_get_written (a b : JObject) k v :
  NoDup (map fst b) → (k, v) ∈ b → JsMap.get (spread a b) k = Some v.
Proof.
  unfold spread. revert a. induction b as [|[k0 v0] b IH]; intros a Hnd Hin.
  - by apply elem_of_nil in Hin.
  - cbn [map fst] in Hnd. apply NoDup_cons in Hnd as [Hk0 Hnd].
    cbn [foldl fst snd]. apply elem_of_cons in Hin as [Heq|Hin].
    + injection Heq as -> ->. fold (spread (JsMap.set a k0 v0) b).
      rewrite spread_get_other by done. rewrite JsMap_get_set.
      by destruct (decide (k0 = k0)).
    + by apply IH.
Qed.

(** X12. A token record reads back the fields [metadataForToken] writes.
    Whatever [extraMetadata] holds comes last and wins: a key it shares
    with the record ([name], [edition], ...) replaces the generated value,
    and every other key of the record keeps it. *)
Theorem metadata_fields (tokenId : Z) (selection : Selection) (uri : string) :
  NoDup (map fst (extraMetadata cfg)) →
  let meta := metadataForToken cfg tokenId selection uri in
  (∀ k v, (k, v) ∈ extraMetadata cfg → JsMap.get meta k = Some v) ∧
  (∀ k, k ∉ map fst (extraMetadata cfg) →
        JsMap.get meta k =
        if decide (k = "name")
        then Some (JStr (namePrefix cfg +:+ " #" +:+ JsStr.of_Z tokenId))
        else if decide (k = "description") then Some (JStr (description cfg))
        else if decide (k = "image") then Some (JStr uri)
        else if decide (k = "edition") then Some (JNum tokenId)
        else if decide (k = "attributes")
             then Some (JAttributes (attributes selection))
        else None).
Proof.
  intros Hnd. cbn zeta. unfold metadataForToken. split.
  - intros k v Hin. by apply spread_get_written.
  - intros k Hk. rewrite spread_get_other by done. cbn [JsMap.get].
    repeat (destruct (decide (_ = k)) as [<-|?]; [reflexivity|]).
    repeat (destruct (decide (k = _)) as [->|?]; [congruence|]).
    reflexivity.
Qed.

Lemma endsWith_slash s :
  endsWith s "/" = true → ∃ stem, s = stem +:+ "/".
Proof.
  induction s as [|c s IH]; cbn [endsWith].
  - rewrite orb_false_r. intros H. apply String.eqb_eq in H. discriminate H.
  - intros [H|H]%orb_true_iff.
    + apply String.eqb_eq in H. exists "". exact H.
    + destruct (IH H) as [stem ->]. by exists (String c stem).
Qed.

Lemma append_inj_l a b c : a +:+ b = a +:+ c → b = c.
Proof. induction a as [|x a IH]; simpl; [done|]. intros [= H]. by apply IH. Qed.

Lemma append_assoc a b c : (a +:+ b) +:+ c = a +:+ b +:+ c.
Proof. induction a as [|x a IH]; simpl; [done|]. by rewrite IH. Qed.

Lemma endsWith_app_slash stem : endsWith (stem +:+ "/") "/" = true.
Proof.
  induction stem as [|c stem IH]; [reflexivity|].
  change (String c stem +:+ "/") with (String c (stem +:+ "/")).
  cbn [endsWith]. rewrite IH. apply orb_true_r.
Qed.

(** X13. The address of an image of edition n: when [baseUri] ends with a
    slash, it is [baseUri] followed by n and ".png", no slash being added;
    otherwise it is [baseUri], one slash, n and ".png".  Different
    editions get different addresses. *)
Theorem imageUri_one_slash (n : Z) :
  (∀ stem, baseUri cfg = stem +:+ "/" →
     imageUri cfg n = stem +:+ "/" +:+ JsStr.of_Z n +:+ ".png") ∧
  ((∀ stem, baseUri cfg ≠ stem +:+ "/") →
     imageUri cfg n = baseUri cfg +:+ "/" +:+ JsStr.of_Z n +:+ ".png") ∧
  (∀ m, imageUri cfg n = imageUri cfg m → n = m).
Proof.
  unfold imageUri. destruct (endsWith (baseUri cfg) "/") eqn:E.
  - split; [|split].
    + intros stem ->. apply append_assoc.
    + intros Hno. apply endsWith_slash in E as [stem E]. by destruct (Hno stem).
    + intros m Heq. apply append_inj_l in Heq.
      apply append_inj_r in Heq. by apply pretty_Z_inj in Heq.
  - split; [|split].
    + intros stem Hstem. rewrite Hstem, endsWith_app_slash in E. discriminate E.
    + done.
    + intros m Heq. do 2 apply append_inj_l in Heq.
      apply append_inj_r in Heq. by apply pretty_Z_inj in Heq.
Qed.
End RecordFacts.

(** ** The books of a run *)

Section LedgerFacts.
Variable cfg : Config.
Context {collation : Collation}.
Variable layers : list Layer.t.
#[local] Arguments String.append !_ _ / : simpl nomatch.

Lemma generate_step st edition g :
  let out := (generate cfg layers st edition g).1 in
  out = skipped st ∨
  ∃ selection dna,
    out = {| dnaSet := JsSet.add (dnaSet st) dna;
             allMetadata := allMetadata st ++ [token_record cfg (edition, selection)];
             imagePaths :=
               imagePaths st ++ [path_join (outImages cfg) (image_name edition)];
             failures := failures st;
             calls := calls st ++ token_calls cfg (edition, selection);
             tokens := tokens st ++ [(edition, selection)] |}.
Proof.
  cbn zeta. unfold generate. rand_unfold.
  destruct (search cfg layers (dnaSet st) _ 0 None g) as [[[sel att] dna] g'].
  destruct (uniqueDnaTorrance cfg <=? att); cbn [fst].
  - by left.
  - right. by exists sel, dna.
Qed.

Lemma editions_ledger eds st g :
  books cfg st →
  let st' := (editions cfg layers eds st g).1 in
  books cfg st' ∧
  (∃ new, tokens st' = tokens st ++ new ∧ map fst new `sublist_of` eds) ∧
  Z.of_nat (length (tokens st')) + failures st'
  = Z.of_nat (length (tokens st)) + failures st + Z.of_nat (length eds).
Proof.
  revert st g. induction eds as [|edition eds IH]; intros st g Hb; cbn zeta.
  - cbn [editions]. rand_unfold. cbn [fst]. split; [done|]. split.
    + exists []. by rewrite app_nil_r.
    + cbn [length]. lia.
  - cbn [editions]. rand_unfold.
    pose proof (generate_step st edition g) as Hstep. cbn zeta in Hstep.
    destruct (generate cfg layers st edition g) as [st1 g1]. cbn [fst] in Hstep.
    destruct Hstep as [->|(sel & dna & ->)].
    + destruct (IH (skipped st) g1 Hb) as (Hb' & (new & Hnew & Hsub) & Hcount).
      cbn zeta in *. split; [done|]. split.
      * exists new. split; [exact Hnew|]. by apply sublist_cons.
      * rewrite Hcount. cbn [skipped tokens failures length]. lia.
    + set (st1 := {| dnaSet := JsSet.add (dnaSet st) dna |}).
      assert (Hb1 : books cfg st1).
      { destruct Hb as (H1 & H2 & H3). unfold books, st1.
        cbn [allMetadata imagePaths calls tokens].
        rewrite !map_app, flat_map_app. cbn [map flat_map].
        rewrite H1, H2, H3, app_nil_r. repeat split; reflexivity. }
      destruct (IH st1 g1 Hb1) as (Hb' & (new & Hnew & Hsub) & Hcount).
      cbn zeta in *. split; [done|]. split.
      * exists ((edition, sel) :: new). split.
        -- rewrite Hnew. unfold st1. cbn [tokens]. by rewrite <- app_assoc.
        -- cbn [map fst]. by apply sublist_skip.
      * rewrite Hcount. unfold st1. cbn [tokens failures length].
        rewrite length_app. cbn [length]. lia.
Qed.

Lemma initial_books : books cfg initial.
Proof. repeat split. Qed.

(** X14. Every token slot of the edition loop either yields a token or counts
    as one failure: tokens and failures add up to the number of slots,
    max(0, [editionSize]).  The accepted tokens carry edition numbers out of
    1 .. [editionSize] in increasing order, a skipped slot leaving a gap. *)
Theorem slot_accounting (g : Rng) :
  let st := run_state cfg layers g in
  Z.of_nat (length (tokens st)) + failures st = Z.max 0 (editionSize cfg) ∧
  0 ≤ failures st ∧
  map fst (tokens st) `sublist_of` seqZ 1 (editionSize cfg).
Proof.
  cbn zeta. unfold run_state.
  destruct (editions_ledger (seqZ 1 (editionSize cfg)) initial g initial_books)
    as (_ & (new & Hnew & Hsub) & Hcount).
  cbn zeta in *. cbn [initial tokens failures length app] in *.
  rewrite length_seqZ in Hcount. subst new.
  pose proof (sublist_length _ _ Hsub) as Hlen.
  rewrite length_map, length_seqZ in Hlen.
  split; [lia|]. split; [lia|done].
Qed.

Lemma image_name_inj a b : image_name a = image_name b → a = b.
Proof.
  unfold image_name. intros Heq. apply append_inj_r in Heq.
  by apply pretty_Z_inj in Heq.
Qed.

Lemma png_not_json a b : a +:+ ".png" ≠ b +:+ ".json".
Proof.
  revert b. induction a as [|c a IH]; intros b Heq.
  - apply (f_equal String.length) in Heq. rewrite !append_length in Heq.
    simpl in Heq. lia.
  - destruct b as [|c' b].
    + simpl in Heq. injection Heq as _ Heq.
      destruct a as [|x a]; [discriminate Heq|].
      apply (f_equal String.length) in Heq. simpl in Heq.
      rewrite append_length in Heq. simpl in Heq. lia.
    + simpl in Heq. injection Heq as _ Heq. by apply IH in Heq.
Qed.

(** What the writes of the accepted tokens leave on a disk. *)
Lemma file_after_tokens cwd (ts : list (Z * Selection)) :
  NoDup (map fst ts) →
  let images := Fs.resolve cwd (outImages cfg) in
  let metadata := Fs.resolve cwd (outMetadata cfg) in
  (∀ t before, t ∈ ts →
     file_after cwd (flat_map (token_calls cfg) ts) (images ++ [image_name t.1]) before
     = Some (Fs.Png (composeImage t.2)) ∧
     file_after cwd (flat_map (token_calls cfg) ts)
       (metadata ++ [metadata_path cfg t.1]) before
     = Some (Fs.Json (token_record cfg t))) ∧
  (∀ loc before,
     (∀ t, t ∈ ts → loc ≠ images ++ [image_name t.1] ∧
                    loc ≠ metadata ++ [metadata_path cfg t.1]) →
     file_after cwd (flat_map (token_calls cfg) ts) loc before = before).
Proof.
  induction ts as [|t0 ts IH]; intros Hnd; cbn zeta.
  - split; [intros t before Ht; by apply elem_of_nil in Ht|done].
  - cbn [map fst] in Hnd. apply NoDup_cons in Hnd as [Hfresh Hnd].
    destruct (IH Hnd) as [IHin IHout]. cbn zeta in IHin, IHout.
    assert (Hother : ∀ t, t ∈ ts → t.1 ≠ t0.1).
    { intros t Ht Heq. apply Hfresh. rewrite <- Heq.
      apply list_elem_of_fmap. by exists t. }
    cbn [flat_map token_calls app file_after]. split.
    + intros t before Ht. apply elem_of_cons in Ht as [->|Ht].
      2:{ split; [apply (proj1 (IHin t _ Ht))|apply (proj2 (IHin t _ Ht))]. }
      assert (Hne : Fs.resolve cwd (outImages cfg) ++ [image_name t0.1]
                    ≠ Fs.resolve cwd (outMetadata cfg) ++ [metadata_path cfg t0.1]).
      { intros Heq. apply app_inj_tail in Heq as [_ Heq].
        by apply png_not_json in Heq. }
      split.
      * rewrite (bool_decide_eq_false_2 _ Hne).
        rewrite (bool_decide_eq_true_2 _ eq_refl).
        apply IHout. intros t Ht. split; intros Heq;
          apply app_inj_tail in Heq as [_ Heq].
        -- apply image_name_inj in Heq. by apply (Hother t Ht).
        -- by apply png_not_json in Heq.
      * rewrite (bool_decide_eq_true_2 _ eq_refl).
        apply IHout. intros t Ht. split; intros Heq;
          apply app_inj_tail in Heq as [_ Heq].
        -- symmetry in Heq. by apply png_not_json in Heq.
        -- apply metadata_path_inj in Heq. by apply (Hother t Ht).
    + intros loc before Hloc.
      destruct (Hloc t0 (list_elem_of_here _ _)) as [Hi Hm].
      rewrite !bool_decide_eq_false_2 by done.
      apply IHout. intros t Ht. apply Hloc. by right.
Qed.

(** X15. After the edition loop the books agree with the accepted tokens:
    the metadata array and the list of image paths have one entry per
    token, in order of acceptance, and the only file-system calls of the
    loop are, per token, the writing of the image "<edition>.png" into the
    image directory and of the record "<edition>.json" into the metadata
    directory.  On any disk on which these calls succeed, each token then
    has its image, composed from its selection, and its record, and every
    other file is as it was before the loop: what an earlier run left
    there stays. *)
Theorem run_books (g : Rng) :
  let st := run_state cfg layers g in
  allMetadata st = map (token_record cfg) (tokens st) ∧
  imagePaths st
  = map (λ t, path_join (outImages cfg) (image_name t.1)) (tokens st) ∧
  calls st = flat_map (token_calls cfg) (tokens st) ∧
  ∀ cwd disk disk',
    Fs.run cwd (calls st) disk = Some disk' →
    let images := Fs.resolve cwd (outImages cfg) in
    let metadata := Fs.resolve cwd (outMetadata cfg) in
    (∀ t, t ∈ tokens st →
       Fs.file disk' (images ++ [image_name t.1])
       = Some (Fs.Png (composeImage t.2)) ∧
       Fs.file disk' (metadata ++ [metadata_path cfg t.1])
       = Some (Fs.Json (token_record cfg t))) ∧
    (∀ loc,
       (∀ t, t ∈ tokens st → loc ≠ images ++ [image_name t.1] ∧
                             loc ≠ metadata ++ [metadata_path cfg t.1]) →
       Fs.file disk' loc = Fs.file disk loc).
Proof.
  cbn zeta. unfold run_state.
  destruct (editions_ledger (seqZ 1 (editionSize cfg)) initial g initial_books)
    as ((H1 & H2 & H3) & (new & Hnew & Hsub) & _).
  cbn zeta in *. cbn [initial tokens app] in Hnew. subst new.
  set (st := (editions cfg layers (seqZ 1 (editionSize cfg)) initial g).1) in *.
  assert (Hids : NoDup (map fst (tokens st))).
  { eapply sublist_NoDup; [apply NoDup_seqZ|exact Hsub]. }
  split; [done|]. split; [done|]. split; [done|].
  intros cwd disk disk' Hrun.
  destruct (file_after_tokens cwd (tokens st) Hids) as [Hin Hout].
  cbn zeta in Hin, Hout. split.
  - intros t Ht. rewrite !(run_file cwd (calls st) disk disk' _ Hrun), H3.
    split; [apply (proj1 (Hin t _ Ht))|apply (proj2 (Hin t _ Ht))].
  - intros loc Hloc. rewrite (run_file cwd (calls st) disk disk' _ Hrun), H3.
    by apply Hout.
Qed.
End LedgerFacts.

(** ** A ceiling that leaves no room *)

Section CeilingFacts.
Variable cfg : Config.
Context {collation : Collation}.
Variable layers : list Layer.t.

Lemma search_one_turn seen fuel dna g :
  uniqueDnaTorrance cfg ≤ 1 →
  (search cfg layers seen fuel 0 dna g).1.1.2 = 1.
Proof.
  intros Hc. destruct fuel as [|fuel]; cbn [search]; rand_unfold;
    destruct (pickTraitsForLayers cfg layers g) as [sel g1]; cbn zeta;
    replace (0 + 1 <? uniqueDnaTorrance cfg) with false by lia;
    rewrite andb_false_r; reflexivity.
Qed.

Lemma generate_at_ceiling st edition g :
  uniqueDnaTorrance cfg ≤ 1 →
  (generate cfg layers st edition g).1 = skipped st.
Proof.
  intros Hc. unfold generate. rand_unfold.
  pose proof (search_one_turn (dnaSet st) (Z.to_nat (uniqueDnaTorrance cfg)) None g Hc)
    as Hone.
  destruct (search cfg layers (dnaSet st) _ 0 None g) as [[[sel att] dna] g'].
  cbn [fst snd] in Hone. subst att.
  replace (uniqueDnaTorrance cfg <=? 1) with true by lia. reflexivity.
Qed.

(** X16. With [uniqueDnaTorrance] at 1 or below no token is ever produced: the
    first turn of every search already reaches the ceiling, so every slot
    is counted as a failure, whatever was drawn, and the edition loop
    writes no file. *)
Theorem no_token_at_ceiling_one (g : Rng) :
  uniqueDnaTorrance cfg ≤ 1 →
  let st := run_state cfg layers g in
  tokens st = [] ∧ dnaSet st = [] ∧ allMetadata st = [] ∧ imagePaths st = [] ∧
  calls st = [] ∧ failures st = Z.max 0 (editionSize cfg).
Proof.
  intros Hc. cbn zeta. unfold run_state.
  assert (Hall : ∀ eds st g,
            let st' := (editions cfg layers eds st g).1 in
            tokens st' = tokens st ∧ dnaSet st' = dnaSet st ∧
            allMetadata st' = allMetadata st ∧ imagePaths st' = imagePaths st ∧
            calls st' = calls st ∧
            failures st' = failures st + Z.of_nat (length eds)).
  { induction eds as [|edition eds IH]; intros st g0; cbn zeta.
    - cbn [editions]. rand_unfold. cbn [fst length]. repeat split; lia.
    - cbn [editions]. rand_unfold.
      pose proof (generate_at_ceiling st edition g0 Hc) as Hskip.
      destruct (generate cfg layers st edition g0) as [st1 g1]. cbn [fst] in Hskip.
      subst st1. destruct (IH (skipped st) g1) as (H1 & H2 & H3 & H4 & H5 & H6).
      cbn zeta in *. rewrite H1, H2, H3, H4, H5, H6.
      cbn [skipped tokens dnaSet allMetadata imagePaths calls failures length].
      repeat split; lia. }
  destruct (Hall (seqZ 1 (editionSize cfg)) initial g) as (H1 & H2 & H3 & H4 & H5 & H6).
  cbn zeta in *. rewrite H1, H2, H3, H4, H5, H6, length_seqZ.
  cbn [initial tokens dnaSet allMetadata imagePaths calls failures].
  repeat split; lia.
Qed.
End CeilingFacts.

(** ** What a run writes *)

Section MainFacts.
Variable cfg : Config.
Context {collation : Collation}.

Lemma editions_records layers eds st g :
  allMetadata st = map (token_record cfg) (tokens st) →
  allMetadata (editions cfg layers eds st g).1
  = map (token_record cfg) (tokens (editions cfg layers eds st g).1).
Proof.
  revert st g. induction eds as [|edition eds IH]; intros st g Hst; [done|].
  cbn [editions]. rand_unfold.
  assert (Hstep : allMetadata (generate cfg layers st edition g).1
                  = map (token_record cfg) (tokens (generate cfg layers st edition g).1)).
  { unfold generate. rand_unfold.
    destruct (search cfg layers (dnaSet st) _ 0 None g) as [[[sel att] dna] g'].
    destruct (uniqueDnaTorrance cfg <=? att); cbn [fst allMetadata tokens]; [done|].
    rewrite map_app, Hst. reflexivity. }
  destruct (generate cfg layers st edition g) as [st1 g1]. by apply IH.
Qed.

(** X19. [main] throws the error of [readLayers] exactly when no directory of
    the listing holds an asset, after [ensureDirs] and before any random
    draw.  Otherwise it runs the edition loop on the catalog and returns;
    its file-system calls are those of [ensureDirs], of the edition loop,
    of the shuffle step when it is switched on, and the writing of
    [_metadata.json] and of [_logs/dna.txt].  The shuffle leaves what the
    run holds in memory as the edition loop left it.  On any disk on which
    the calls succeed, [_metadata.json] then holds the records of the
    accepted tokens in order of generation under their original edition
    numbers, whether the metadata files were shuffled or not, and
    [_logs/dna.txt] the seen-set, one entry per line, [undefined] giving
    an empty line.  This is the run up to the preview sheet, which
    [buildPreviewGrid] writes afterwards. *)
Theorem main_outcome (listing : list (string * list string)) (g : Rng) :
  let kept := filter (λ entry, has_files entry = true) listing in
  (kept = [] →
     main cfg listing g
     = ({| trace := ensureDirs cfg;
           outcome := inl "No layers found under ./traits. Add layered PNGs first." |},
        g)) ∧
  (kept ≠ [] →
     ∃ layers out,
       readLayers cfg listing = inr layers ∧
       outcome (main cfg listing g).1 = inr out ∧
       let st := run_state cfg layers g in
       dnaSet (final out) = dnaSet st ∧ allMetadata (final out) = allMetadata st ∧
       imagePaths (final out) = imagePaths st ∧ failures (final out) = failures st ∧
       tokens (final out) = tokens st ∧
       (∃ shuffled,
          calls (final out) = calls st ++ shuffled ∧
          (shuffleMetadata cfg = false → shuffled = []) ∧
          trace (main cfg listing g).1
          = ensureDirs cfg ++ calls st ++ shuffled
            ++ [Fs.WriteFile (outputDir cfg) "_metadata.json"
                  (Fs.JsonArray (map (token_record cfg) (tokens st)));
                Fs.WriteFile (outLogs cfg) "dna.txt"
                  (Fs.Text (join (String "010" "") (map (default "") (dnaSet st))))]) ∧
       ∀ cwd disk disk',
         Fs.run cwd (trace (main cfg listing g).1) disk = Some disk' →
         Fs.file disk' (Fs.resolve cwd (outputDir cfg) ++ ["_metadata.json"])
         = Some (Fs.JsonArray (map (token_record cfg) (tokens st))) ∧
         Fs.file disk' (Fs.resolve cwd (outLogs cfg) ++ ["dna.txt"])
         = Some (Fs.Text (join (String "010" "") (map (default "") (dnaSet st))))).
Proof.
  cbn zeta. pose proof (collect_layers_entries cfg listing) as H.
  unfold main, readLayers. split.
  - intros Hk. rewrite Hk in H. apply Forall2_nil_inv_r in H. by rewrite H.
  - intros Hk. destruct (collect_layers cfg listing) as [|l layers] eqn:E.
    { apply Forall2_nil_inv_l in H. done. }
    exists (l :: layers). rand_unfold. unfold run_state.
    pose proof (editions_records (l :: layers) (seqZ 1 (editionSize cfg)) initial g
                  eq_refl) as Hrec.
    destruct (editions cfg (l :: layers) (seqZ 1 (editionSize cfg)) initial g)
      as [st g1]. cbn [fst] in *.
    assert (Hlast : ∀ pre cwd disk disk',
              Fs.run cwd
                (pre ++ [Fs.WriteFile (outputDir cfg) "_metadata.json"
                           (Fs.JsonArray (allMetadata st));
                         Fs.WriteFile (outLogs cfg) "dna.txt"
                           (Fs.Text (join (String "010" "")
                                       (map (default "") (dnaSet st))))])
                disk = Some disk' →
              Fs.file disk' (Fs.resolve cwd (outputDir cfg) ++ ["_metadata.json"])
              = Some (Fs.JsonArray (allMetadata st)) ∧
              Fs.file disk' (Fs.resolve cwd (outLogs cfg) ++ ["dna.txt"])
              = Some (Fs.Text (join (String "010" "") (map (default "") (dnaSet st))))).
    { intros pre cwd disk disk' Hrun.
      rewrite !(run_file _ _ _ _ _ Hrun), !file_after_app. cbn [file_after]. split.
      - rewrite bool_decide_eq_false_2.
        + by rewrite (bool_decide_eq_true_2 _ eq_refl).
        + intros Heq. apply app_inj_tail in Heq as [_ Heq]. discriminate Heq.
      - by rewrite (bool_decide_eq_true_2 _ eq_refl). }
    destruct (shuffleMetadata cfg) eqn:Hs.
    + destruct (shuffle_step_calls cfg st g1) as (Hc & H1 & H2 & H3 & H4 & H5).
      cbn zeta in *.
      destruct (shuffle_step cfg st g1) as [st' g2]. cbn [fst] in *.
      eexists. split; [reflexivity|]. split; [reflexivity|].
      cbn [final trace outcome metadata_json dna_txt].
      rewrite H1, H2, <- Hrec.
      split; [done|]. split; [done|]. split; [done|]. split; [done|].
      split; [done|]. split.
      * eexists. split; [exact Hc|]. split; [done|].
        rewrite Hc, <- !app_assoc. reflexivity.
      * intros cwd disk disk' Hrun. rewrite app_assoc in Hrun.
        exact (Hlast _ cwd disk disk' Hrun).
    + eexists. split; [reflexivity|]. split; [reflexivity|].
      cbn [final trace outcome metadata_json dna_txt]. rewrite <- Hrec.
      split; [done|]. split; [done|]. split; [done|]. split; [done|].
      split; [done|]. split.
      * exists []. rewrite !app_nil_r. done.
      * intros cwd disk disk' Hrun. rewrite app_assoc in Hrun.
        exact (Hlast _ cwd disk disk' Hrun).
Qed.
End MainFacts.

(** ** What the seen-set records *)

Section SeenSetFacts.
Variable cfg : Config.
Context {collation : Collation}.
Variable layers : list Layer.t.
Hypothesis Hwf : wf_catalog layers.

(** When the loop leaves with an incompatible selection, the fingerprint
    it holds is the one it started with or one the seen-set holds. *)
Lemma search_dna seen fuel attempts dna g :
  let r := search cfg layers seen fuel attempts dna g in
  violatesIncompatibilities cfg r.1.1.1 = true →
  r.1.2 = dna ∨ JsSet.has seen r.1.2 = true.
Proof.
  revert attempts dna g. induction fuel as [|fuel IH]; intros attempts dna g;
    cbn zeta; cbn [search]; rand_unfold;
    destruct (pickTraitsForLayers cfg layers g) as [sel g1]; cbn zeta;
    destruct (violatesIncompatibilities cfg sel) eqn:Hv.
  - destruct (_ && _); cbn [fst snd]; intros _; by left.
  - destruct (_ && _); cbn [fst snd]; intros H; congruence.
  - destruct (JsSet.has seen dna && _) eqn:Hc.
    + intros H. apply IH in H as [H|H]; [by left|by right].
    + cbn [fst snd]. intros _. by left.
  - destruct (JsSet.has seen (Some (dnaFromSelection sel)) && _) eqn:Hc.
    + intros H. apply IH in H as [H|H]; [|by right].
      right. rewrite H. by apply andb_true_iff in Hc as [Hc _].
    + cbn [fst snd]. intros H. congruence.
Qed.

Lemma generate_record st edition g :
  let out := (generate cfg layers st edition g).1 in
  (dnaSet out = dnaSet st ∧ tokens out = tokens st) ∨
  ∃ selection dna,
    (dna ∉ dnaSet st) ∧ recorded cfg dna (edition, selection) ∧
    dnaSet out = dnaSet st ++ [dna] ∧
    tokens out = tokens st ++ [(edition, selection)].
Proof.
  cbn zeta.
  destruct (search_spec cfg layers Hwf (dnaSet st)
              (Z.to_nat (uniqueDnaTorrance cfg)) 0 None g)
    as (n & _ & _ & _ & _ & _ & Hnew & Hcompat); [lia|].
  pose proof (search_dna (dnaSet st) (Z.to_nat (uniqueDnaTorrance cfg)) 0 None g)
    as Hbad.
  cbn zeta in *. unfold generate. rand_unfold.
  destruct (search cfg layers (dnaSet st) _ 0 None g) as [[[sel att] dna] g'].
  cbn [fst snd] in *.
  destruct (uniqueDnaTorrance cfg <=? att) eqn:Hc; cbn [fst].
  - by left.
  - apply Z.leb_gt in Hc. specialize (Hnew Hc). right. exists sel, dna.
    cbn [dnaSet tokens]. split; [|split; [|split; [|done]]].
    + intros Hin. apply JsSet_has_true in Hin. congruence.
    + unfold recorded. cbn [fst snd].
      destruct (violatesIncompatibilities cfg sel) eqn:Hv.
      * destruct (Hbad eq_refl) as [H|H]; [done|congruence].
      * by apply Hcompat.
    + unfold JsSet.add. by rewrite Hnew.
Qed.

Lemma editions_record eds st g :
  NoDup (dnaSet st) → Forall2 (recorded cfg) (dnaSet st) (tokens st) →
  let st' := (editions cfg layers eds st g).1 in
  NoDup (dnaSet st') ∧ Forall2 (recorded cfg) (dnaSet st') (tokens st').
Proof.
  revert st g. induction eds as [|edition eds IH]; intros st g Hnd Hrec; [done|].
  cbn zeta. cbn [editions]. rand_unfold.
  pose proof (generate_record st edition g) as Hstep. cbn zeta in Hstep.
  destruct (generate cfg layers st edition g) as [st1 g1]. cbn [fst] in Hstep.
  apply IH.
  - destruct Hstep as [[-> _]|(sel & dna & Hnew & _ & -> & _)]; [done|].
    apply NoDup_app. split; [done|]. split; [|apply NoDup_singleton].
    intros x Hx Hx'. apply list_elem_of_singleton in Hx'. by subst x.
  - destruct Hstep as [[-> ->]|(sel & dna & _ & Hr & -> & ->)]; [done|].
    apply Forall2_app; [done|]. by constructor.
Qed.

Lemma run_record g :
  NoDup (dnaSet (run_state cfg layers g)) ∧
  Forall2 (recorded cfg) (dnaSet (run_state cfg layers g))
    (tokens (run_state cfg layers g)).
Proof.
  unfold run_state. apply editions_record; [constructor|constructor].
Qed.

(** X17. The seen-set of a run holds one entry per accepted token, in order of
    acceptance, without repetition: the fingerprint of the selection when
    that selection is compatible, and [undefined] when it is not.  An
    incompatible selection is thus accepted only while [undefined] is not
    yet in the seen-set. *)
Theorem seen_set_records (g : Rng) :
  let st := run_state cfg layers g in
  NoDup (dnaSet st) ∧ length (dnaSet st) = length (tokens st) ∧
  ∀ i t, tokens st !! i = Some t →
    dnaSet st !! i
    = Some (if violatesIncompatibilities cfg t.2 then None
            else Some (dnaFromSelection t.2)).
Proof.
  cbn zeta. destruct (run_record g) as [Hnd Hrec].
  split; [done|]. split; [by eapply Forall2_length|].
  intros i t Ht.
  destruct (Forall2_lookup_r _ _ _ _ _ Hrec Ht) as (dna & Hdna & Hr).
  rewrite Hdna. f_equal. unfold recorded in Hr.
  by destruct (violatesIncompatibilities cfg t.2).
Qed.

(** X18. Accepted tokens with compatible selections have pairwise different
    fingerprints, and a run accepts at most one token whose selection is
    incompatible. *)
Theorem accepted_tokens_distinct (g : Rng) (i j : nat) (t1 t2 : Z * Selection) :
  tokens (run_state cfg layers g) !! i = Some t1 →
  tokens (run_state cfg layers g) !! j = Some t2 →
  i ≠ j →
  (violatesIncompatibilities cfg t1.2 = false ∨
   violatesIncompatibilities cfg t2.2 = false) ∧
  (violatesIncompatibilities cfg t1.2 = false →
   violatesIncompatibilities cfg t2.2 = false →
   dnaFromSelection t1.2 ≠ dnaFromSelection t2.2).
Proof.
  intros H1 H2 Hij. destruct (run_record g) as [Hnd Hrec].
  destruct (Forall2_lookup_r _ _ _ _ _ Hrec H1) as (d1 & Hd1 & Hr1).
  destruct (Forall2_lookup_r _ _ _ _ _ Hrec H2) as (d2 & Hd2 & Hr2).
  assert (Hne : d1 ≠ d2).
  { intros <-. apply Hij. by eapply NoDup_lookup. }
  unfold recorded in Hr1, Hr2. split.
  - destruct (violatesIncompatibilities cfg t1.2); [|by left].
    destruct (violatesIncompatibilities cfg t2.2); [congruence|by right].
  - intros Hv1 Hv2 Hf. rewrite Hv1 in Hr1. rewrite Hv2 in Hr2. congruence.
Qed.
End SeenSetFacts.

(** ** The shuffle as a function *)

Section ShuffleFunction.
Context {A : Type}.

(** X20. Under the contract of [Math.random], [shuffle] on an array of n
    entries is the Fisher-Yates shuffle: it takes exactly n - 1 draws (none
    for n <= 1), step i exchanges entry i with an entry at or below i, and
    the result is a rearrangement of the array.  An array with at most one
    entry comes back as it is. *)
Theorem shuffle_fisher_yates (array : list A) (g : Rng) :
  (∀ k, unit_draw (draws g k)) →
  (Z.of_nat (length array) < 2 ^ 53)%Z →
  let top := (length array - 1)%nat in
  shuffle array g
  = (fisher_yates (drawn_index g top) top array,
     {| draws := draws g; pos := (pos g + top)%nat |}) ∧
  (∀ k, (1 ≤ k ≤ top)%nat → (drawn_index g top k ≤ k)%nat) ∧
  (shuffle array g).1 ≡ₚ array ∧
  ((length array ≤ 1)%nat → (shuffle array g).1 = array).
Proof.
  intros Hdraw Hlen. cbn zeta.
  destruct (shuffle_from_refines array (length array - 1) g Hdraw (le_n _) Hlen)
    as [Heq Hrange].
  unfold shuffle. split; [exact Heq|]. split; [exact Hrange|].
  split; [apply shuffle_Permutation|].
  intros Hshort. replace (length array - 1)%nat with O by lia. reflexivity.
Qed.
End ShuffleFunction.

(** ** The preview sheet *)

Section PreviewFacts.
Variables width height : Z.
Variable outputDir_ : string.

Lemma tile_at_cell cols margin (paths : list string) r c :
  0 ≤ c < cols →
  tile_at width height cols margin paths (r * cols + c)
  = {| Tile.input := default "" (nth_Z paths (r * cols + c));
       Tile.top := margin + r * (height + margin);
       Tile.left := margin + c * (width + margin) |}.
Proof.
  intros Hc. unfold tile_at. f_equal.
  - rewrite Z.div_add_l by lia. rewrite Z.div_small by lia. f_equal. f_equal. lia.
  - rewrite (Z.add_comm (r * cols) c), Z.mod_add by lia.
    rewrite Z.mod_small by lia. reflexivity.
Qed.

Lemma row_tiles_eq cols margin (paths : list string) r len :
  0 ≤ len →
  ∀ c0, 0 ≤ c0 → c0 + len ≤ cols →
  row_tiles width height cols margin paths r (seqZ c0 len)
  = map (tile_at width height cols margin paths)
      (seqZ (r * cols + c0)
         (Z.min len (Z.of_nat (length paths) - (r * cols + c0)))).
Proof.
  intros Hlen. pattern len. apply natlike_ind; [| |exact Hlen].
  - intros c0 _ _. rewrite (seqZ_nil c0) by lia. by rewrite seqZ_nil by lia.
  - clear len Hlen. intros len Hlen IH c0 H0 H1.
    rewrite (seqZ_cons c0) by lia. cbn [row_tiles].
    destruct (Z.of_nat (length paths) <=? r * cols + c0) eqn:E.
    + apply Z.leb_le in E. by rewrite seqZ_nil by lia.
    + apply Z.leb_gt in E. rewrite (seqZ_cons (r * cols + c0)) by lia.
      cbn [map]. f_equal; [symmetry; apply tile_at_cell; lia|].
      replace (Z.pred (Z.succ len)) with len by lia.
      rewrite IH by lia. f_equal. f_equal; lia.
Qed.

Lemma composites_row_major cols rows margin (paths : list string) :
  0 ≤ cols →
  flat_map (λ r, row_tiles width height cols margin paths r (seqZ 0 cols))
    (seqZ 0 rows)
  = map (tile_at width height cols margin paths)
      (seqZ 0 (Z.min (rows * cols) (Z.of_nat (length paths)))).
Proof.
  intros Hcols. destruct (decide (0 ≤ rows)) as [Hrows|Hrows].
  - pattern rows. apply natlike_ind; [| |exact Hrows].
    + rewrite (seqZ_nil 0 0) by lia. by rewrite (seqZ_nil 0 (Z.min _ _)) by lia.
    + clear rows Hrows. intros rows Hrows IH.
      replace (Z.succ rows) with (rows + 1) by lia.
      rewrite (seqZ_app 0 rows 1) by lia. rewrite flat_map_app, IH.
      rewrite (seqZ_cons (0 + rows)) by lia. rewrite (seqZ_nil _ (Z.pred 1)) by lia.
      cbn [flat_map]. rewrite app_nil_r.
      rewrite (row_tiles_eq cols margin paths (0 + rows) cols Hcols 0) by lia.
      rewrite <- map_app. f_equal.
      destruct (decide (Z.of_nat (length paths) ≤ rows * cols)) as [Hn|Hn].
      * rewrite (seqZ_nil ((0 + rows) * cols + 0)) by lia. rewrite app_nil_r.
        f_equal. nia.
      * replace (Z.min (rows * cols) (Z.of_nat (length paths))) with (rows * cols) by lia.
        replace (Z.min ((rows + 1) * cols) (Z.of_nat (length paths)))
          with (rows * cols
                + Z.min cols (Z.of_nat (length paths) - ((0 + rows) * cols + 0)))
          by nia.
        rewrite seqZ_app by nia. f_equal. f_equal. lia.
  - rewrite (seqZ_nil 0 rows) by lia. rewrite (seqZ_nil 0 (Z.min _ _)) by nia.
    reflexivity.
Qed.

(** X21. With the preview switched on and a column count that is not negative,
    [buildPreviewGrid] places the first min(rows * cols, n) of the n images
    and no other: image k goes to row k / cols and column k mod cols, the
    images filling the sheet row by row in the order the run produced them.
    The canvas leaves a margin around every cell of the grid. *)
Theorem preview_layout (pv : Preview.t) (imagePaths : list string) :
  Preview.generate pv = true → 0 ≤ Preview.cols pv →
  let count := Z.min (Preview.rows pv * Preview.cols pv)
                 (Z.of_nat (length imagePaths)) in
  ∃ sheet,
    buildPreviewGrid width height outputDir_ (Some pv) imagePaths = Some sheet ∧
    Sheet.composites sheet
    = map (tile_at width height (Preview.cols pv) (Preview.margin pv) imagePaths)
        (seqZ 0 count) ∧
    Z.of_nat (length (Sheet.composites sheet)) = Z.max 0 count ∧
    Sheet.gridW sheet
    = Preview.margin pv + Preview.cols pv * (width + Preview.margin pv) ∧
    Sheet.gridH sheet
    = Preview.margin pv + Preview.rows pv * (height + Preview.margin pv) ∧
    Sheet.target sheet = path_join outputDir_ (Preview.filename pv).
Proof.
  intros Hgen Hcols. cbn zeta. unfold buildPreviewGrid. rewrite Hgen. cbn [negb].
  eexists. split; [reflexivity|].
  cbn [Sheet.composites Sheet.gridW Sheet.gridH Sheet.target].
  rewrite composites_row_major by done.
  split; [reflexivity|]. split; [|split; [lia|split; [lia|reflexivity]]].
  rewrite length_map, length_seqZ. lia.
Qed.

Lemma scaled_step a b s : 0 ≤ s → a < b → (a + 1) * s ≤ b * s.
Proof. intros Hs Hab. apply Z.mul_le_mono_nonneg_r; lia. Qed.

Lemma placed_tile (pv : Preview.t) (imagePaths : list string) sheet i t :
  0 ≤ Preview.cols pv →
  buildPreviewGrid width height outputDir_ (Some pv) imagePaths = Some sheet →
  Sheet.composites sheet !! i = Some t →
  let k := Z.of_nat i in
  0 ≤ k `div` Preview.cols pv < Preview.rows pv ∧
  0 ≤ k `mod` Preview.cols pv < Preview.cols pv ∧
  Tile.top t = Preview.margin pv + (k `div` Preview.cols pv) * (height + Preview.margin pv) ∧
  Tile.left t = Preview.margin pv + (k `mod` Preview.cols pv) * (width + Preview.margin pv) ∧
  Sheet.gridW sheet = Preview.margin pv + Preview.cols pv * (width + Preview.margin pv) ∧
  Sheet.gridH sheet = Preview.margin pv + Preview.rows pv * (height + Preview.margin pv).
Proof.
  intros Hcols Hsheet Ht. cbn zeta. unfold buildPreviewGrid in Hsheet.
  destruct (negb (Preview.generate pv)); [discriminate Hsheet|].
  injection Hsheet as <-.
  cbn [Sheet.composites Sheet.gridW Sheet.gridH] in *.
  rewrite composites_row_major in Ht by done.
  change (map ?f ?l) with (f <$> l) in Ht. rewrite list_lookup_fmap in Ht.
  destruct (seqZ 0 _ !! i) as [k|] eqn:Hk; [|discriminate Ht].
  apply lookup_seqZ in Hk as [-> Hlt]. cbn [fmap option_fmap option_map] in Ht.
  injection Ht as <-. cbn [Tile.top Tile.left].
  replace (0 + Z.of_nat i) with (Z.of_nat i) by lia.
  assert (Hpos : 0 < Preview.cols pv).
  { destruct (decide (Preview.cols pv = 0)) as [E|E]; [|lia].
    rewrite E in Hlt. lia. }
  pose proof (Z.mod_pos_bound (Z.of_nat i) (Preview.cols pv) Hpos) as Hmod.
  assert (Hdiv : Z.of_nat i `div` Preview.cols pv < Preview.rows pv).
  { apply Z.div_lt_upper_bound; [done|]. lia. }
  assert (Hdiv0 : 0 ≤ Z.of_nat i `div` Preview.cols pv) by (apply Z.div_pos; lia).
  repeat split; try lia.
Qed.

(** X22. With margin, width and height not negative, every tile lies on the
    canvas with the margin free on each side, and two tiles never
    overlap: they are at least a margin apart, side by side or one above
    the other. *)
Theorem preview_tiles_fit (pv : Preview.t) (imagePaths : list string) (sheet : Sheet.t) :
  0 ≤ Preview.cols pv → 0 ≤ Preview.margin pv → 0 ≤ width → 0 ≤ height →
  buildPreviewGrid width height outputDir_ (Some pv) imagePaths = Some sheet →
  (∀ i t, Sheet.composites sheet !! i = Some t →
     Preview.margin pv ≤ Tile.left t ∧
     Tile.left t + width + Preview.margin pv ≤ Sheet.gridW sheet ∧
     Preview.margin pv ≤ Tile.top t ∧
     Tile.top t + height + Preview.margin pv ≤ Sheet.gridH sheet) ∧
  (∀ i j ti tj, i ≠ j →
     Sheet.composites sheet !! i = Some ti →
     Sheet.composites sheet !! j = Some tj →
     Tile.left ti + width + Preview.margin pv ≤ Tile.left tj ∨
     Tile.left tj + width + Preview.margin pv ≤ Tile.left ti ∨
     Tile.top ti + height + Preview.margin pv ≤ Tile.top tj ∨
     Tile.top tj + height + Preview.margin pv ≤ Tile.top ti).
Proof.
  intros Hcols Hm Hw Hh Hsheet. split.
  - intros i t Ht.
    destruct (placed_tile pv imagePaths sheet i t Hcols Hsheet Ht)
      as (Hr & Hc & -> & -> & -> & ->).
    pose proof (scaled_step _ _ (width + Preview.margin pv) ltac:(lia) (proj2 Hc)).
    pose proof (scaled_step _ _ (height + Preview.margin pv) ltac:(lia) (proj2 Hr)).
    repeat split; nia.
  - intros i j ti tj Hij Hi Hj.
    destruct (placed_tile pv imagePaths sheet i ti Hcols Hsheet Hi)
      as (Hri & Hci & -> & -> & _).
    destruct (placed_tile pv imagePaths sheet j tj Hcols Hsheet Hj)
      as (Hrj & Hcj & -> & -> & _).
    set (cols := Preview.cols pv) in *.
    assert (Hpos : cols ≠ 0) by lia.
    pose proof (Z.div_mod (Z.of_nat i) cols Hpos) as Hdi.
    pose proof (Z.div_mod (Z.of_nat j) cols Hpos) as Hdj.
    destruct (Z.lt_trichotomy (Z.of_nat i `div` cols) (Z.of_nat j `div` cols))
      as [Hlt|[Heq|Hgt]].
    + right. right. left.
      pose proof (scaled_step _ _ (height + Preview.margin pv) ltac:(lia) Hlt). lia.
    + destruct (Z.lt_trichotomy (Z.of_nat i `mod` cols) (Z.of_nat j `mod` cols))
        as [Hlt|[Heq'|Hgt]].
      * left.
        pose proof (scaled_step _ _ (width + Preview.margin pv) ltac:(lia) Hlt). lia.
      * exfalso. apply Hij. apply Nat2Z.inj. rewrite Hdi, Hdj, Heq, Heq'. reflexivity.
      * right. left.
        pose proof (scaled_step _ _ (width + Preview.margin pv) ltac:(lia) Hgt). lia.
    + right. right. right.
      pose proof (scaled_step _ _ (height + Preview.margin pv) ltac:(lia) Hgt). lia.
Qed.
End PreviewFacts.

(** ** The further statements at concrete inputs *)

Section FurtherWitnesses.
#[local] Existing Instance code_units.
Import Examples.

Lemma read_eye_mouth :
  readLayers config listing_eye_mouth = inr (layers_of config listing_eye_mouth).
Proof. reflexivity. Defined.

Lemma catalog_elements_witness :
  readLayers config listing_eye_mouth = inr (layers_of config listing_eye_mouth) ∧
  layer_eye ∈ layers_of config listing_eye_mouth ∧
  element_laser ∈ Layer.elements layer_eye ∧
  truthy (Element.weight element_laser) = true ∧
  Element.layer element_laser = Layer.id layer_eye ∧
  Element.id element_laser = Layer.id layer_eye +:+ ":" +:+ Element.name element_laser.
Proof.
  assert (Hl : layer_eye ∈ layers_of config listing_eye_mouth)
    by (vm_compute; constructor).
  assert (He : element_laser ∈ Layer.elements layer_eye) by constructor.
  split; [exact read_eye_mouth|]. split; [exact Hl|]. split; [exact He|].
  exact (catalog_elements config listing_eye_mouth (layers_of config listing_eye_mouth)
           read_eye_mouth layer_eye element_laser Hl He).
Defined.

Lemma parseWeight_empty_delimiter_witness :
  rarityDelimiter config_no_delimiter = "" ∧
  parseWeight config_no_delimiter "Laser#5.png" = (path_parse_name "Laser#5.png", Fin 1).
Proof.
  split; [reflexivity|].
  exact (parseWeight_empty_delimiter config_no_delimiter "Laser#5.png" eq_refl).
Defined.

Lemma pick_ids_match_witness :
  readLayers config listing_eye_mouth = inr (layers_of config listing_eye_mouth) ∧
  Forall id_matches
    (pickTraitsForLayers config (layers_of config listing_eye_mouth)
       (rng_const (Fin 0))).1.
Proof.
  split; [exact read_eye_mouth|].
  exact (pick_ids_match config listing_eye_mouth (layers_of config listing_eye_mouth)
           (rng_const (Fin 0)) read_eye_mouth).
Defined.

Lemma wf_two_hats : wf_catalog (layers_of config_two listing_two_hats).
Proof. vm_compute. repeat constructor. Defined.

Lemma no_rule_two_hats :
  ∀ p, p ∈ (pick_each (layers_of config_two listing_two_hats) 0 rng_two).1.1 →
       requires config_two !! traitKey (Pick.layer p) (Pick.name p) = None.
Proof. intros p _. apply lookup_empty. Defined.

Lemma untriggered_rules_keep_picks_witness :
  wf_catalog (layers_of config_two listing_two_hats) ∧
  (∀ p, p ∈ (pick_each (layers_of config_two listing_two_hats) 0 rng_two).1.1 →
        requires config_two !! traitKey (Pick.layer p) (Pick.name p) = None) ∧
  (pickTraitsForLayers config_two (layers_of config_two listing_two_hats) rng_two).1
  = (pick_each (layers_of config_two listing_two_hats) 0 rng_two).1.1.
Proof.
  split; [exact wf_two_hats|]. split; [exact no_rule_two_hats|].
  exact (proj1 (untriggered_rules_keep_picks config_two
                  (layers_of config_two listing_two_hats) rng_two
                  wf_two_hats no_rule_two_hats)).
Defined.

Lemma fingerprint_determines_pairs_witness :
  Forall separator_free [pick_laser; pick_smile] ∧
  Forall separator_free [pick_smile; pick_laser] ∧
  dnaFromSelection [pick_laser; pick_smile] = dnaFromSelection [pick_smile; pick_laser] ∧
  map rendered (sort by_layer [pick_laser; pick_smile])
  = map rendered (sort by_layer [pick_smile; pick_laser]).
Proof.
  assert (H1 : Forall separator_free [pick_laser; pick_smile])
    by (repeat constructor).
  assert (H2 : Forall separator_free [pick_smile; pick_laser])
    by (repeat constructor).
  assert (H3 : dnaFromSelection [pick_laser; pick_smile]
               = dnaFromSelection [pick_smile; pick_laser])
    by (vm_compute; reflexivity).
  split; [exact H1|]. split; [exact H2|]. split; [exact H3|].
  exact (fingerprint_determines_pairs _ _ H1 H2 H3).
Defined.

Lemma render_stack_in_catalog_order_witness :
  wf_catalog (layers_of config listing_eye_mouth) ∧
  let selection :=
    (pickTraitsForLayers config (layers_of config listing_eye_mouth)
       (rng_const (Fin 0))).1 in
  composeImage selection = map Pick.path selection ∧
  map fst (attributes selection) = map Layer.id (layers_of config listing_eye_mouth).
Proof.
  split; [exact wf_eye_mouth|].
  destruct (render_stack_in_catalog_order config (layers_of config listing_eye_mouth)
              (rng_const (Fin 0)) wf_eye_mouth) as (H1 & _ & _ & H2).
  split; [exact H1|exact H2].
Defined.

Lemma metadata_fields_witness :
  NoDup (map fst (extraMetadata config_extra)) ∧
  JsMap.get (metadataForToken config_extra 7 [pick_laser; pick_smile] "ipfs://cid/7.png")
    "edition" = Some (JStr "genesis").
Proof.
  assert (Hnd : NoDup (map fst (extraMetadata config_extra))).
  { apply (bool_decide_unpack _). vm_compute. exact I. }
  split; [exact Hnd|].
  apply (proj1 (metadata_fields config_extra 7 [pick_laser; pick_smile]
                  "ipfs://cid/7.png" Hnd)).
  constructor.
Defined.

Lemma no_token_at_ceiling_one_witness :
  uniqueDnaTorrance config_ceiling_one ≤ 1 ∧
  tokens (run_state config_ceiling_one (layers_of config_ceiling_one listing_eye_mouth)
            (rng_const (Fin 0))) = [] ∧
  failures (run_state config_ceiling_one (layers_of config_ceiling_one listing_eye_mouth)
              (rng_const (Fin 0))) = Z.max 0 (editionSize config_ceiling_one).
Proof.
  assert (Hc : uniqueDnaTorrance config_ceiling_one ≤ 1) by (cbn; lia).
  split; [exact Hc|].
  destruct (no_token_at_ceiling_one config_ceiling_one
              (layers_of config_ceiling_one listing_eye_mouth) (rng_const (Fin 0)) Hc)
    as (H1 & _ & _ & _ & _ & H2).
  split; [exact H1|exact H2].
Defined.

Lemma seen_set_records_witness :
  wf_catalog (layers_of config_two listing_two_hats) ∧
  let st := run_state config_two (layers_of config_two listing_two_hats) rng_two in
  NoDup (dnaSet st) ∧ length (dnaSet st) = length (tokens st).
Proof.
  split; [exact wf_two_hats|].
  destruct (seen_set_records config_two (layers_of config_two listing_two_hats)
              wf_two_hats rng_two) as (H1 & H2 & _).
  split; [exact H1|exact H2].
Defined.

Lemma tokens_two_hats :
  tokens (run_state config_two (layers_of config_two listing_two_hats) rng_two)
  = [token_a; token_b].
Proof. vm_compute. reflexivity. Defined.

Lemma run_books_witness :
  let st := run_state config_two (layers_of config_two listing_two_hats) rng_two in
  let stale := ["work"; "output"; "metadata"; "9.json"] in
  ∃ disk',
    Fs.run work (calls st) disk_ready = Some disk' ∧
    Fs.file disk' (Fs.resolve work (outImages config_two) ++ [image_name token_a.1])
    = Some (Fs.Png (composeImage token_a.2)) ∧
    Fs.file disk_ready stale = Some (Fs.Text "stale") ∧
    Fs.file disk' stale = Fs.file disk_ready stale.
Proof.
  cbn zeta.
  destruct (run_books config_two (layers_of config_two listing_two_hats) rng_two)
    as (_ & _ & _ & Hdisk).
  destruct (Fs.run work
              (calls (run_state config_two (layers_of config_two listing_two_hats)
                        rng_two)) disk_ready) as [disk'|] eqn:E;
    [|vm_compute in E; discriminate E].
  destruct (Hdisk work disk_ready disk' E) as [Hin Hout].
  exists disk'. split; [reflexivity|]. split; [|split; [vm_compute; reflexivity|]].
  - apply (proj1 (Hin token_a ltac:(rewrite tokens_two_hats; by left))).
  - apply Hout. intros t Ht. rewrite tokens_two_hats in Ht.
    apply elem_of_cons in Ht as [->|Ht].
    + split; vm_compute; discriminate.
    + apply list_elem_of_singleton in Ht. subst t. split; vm_compute; discriminate.
Defined.

Lemma main_outcome_witness :
  filter (λ entry, has_files entry = true) listing_two_hats ≠ [] ∧
  ∃ disk',
    Fs.run work (trace (main config_two listing_two_hats rng_two).1) disk_stale
    = Some disk' ∧
    Fs.file disk' (Fs.resolve work (outputDir config_two) ++ ["_metadata.json"])
    = Some (Fs.JsonArray (map (token_record config_two) [token_a; token_b])).
Proof.
  assert (Hkept : filter (λ entry, has_files entry = true) listing_two_hats ≠ [])
    by (vm_compute; discriminate).
  split; [exact Hkept|].
  destruct (proj2 (main_outcome config_two listing_two_hats rng_two) Hkept)
    as (layers & out & Hread & _ & _ & _ & _ & _ & _ & _ & Hdisk).
  injection Hread as <-.
  destruct (Fs.run work (trace (main config_two listing_two_hats rng_two).1)
              disk_stale) as [disk'|] eqn:E;
    [|vm_compute in E; discriminate E].
  exists disk'. split; [reflexivity|].
  rewrite <- tokens_two_hats. exact (proj1 (Hdisk work disk_stale disk' E)).
Defined.

Lemma accepted_tokens_distinct_witness :
  wf_catalog (layers_of config_two listing_two_hats) ∧
  tokens (run_state config_two (layers_of config_two listing_two_hats) rng_two) !! 0%nat
  = Some token_a ∧
  tokens (run_state config_two (layers_of config_two listing_two_hats) rng_two) !! 1%nat
  = Some token_b ∧
  0%nat ≠ 1%nat ∧
  dnaFromSelection token_a.2 ≠ dnaFromSelection token_b.2.
Proof.
  assert (Ha : tokens (run_state config_two (layers_of config_two listing_two_hats)
                         rng_two) !! 0%nat = Some token_a)
    by (rewrite tokens_two_hats; reflexivity).
  assert (Hb : tokens (run_state config_two (layers_of config_two listing_two_hats)
                         rng_two) !! 1%nat = Some token_b)
    by (rewrite tokens_two_hats; reflexivity).
  assert (Hne : 0%nat ≠ 1%nat) by discriminate.
  split; [exact wf_two_hats|]. split; [exact Ha|]. split; [exact Hb|].
  split; [exact Hne|].
  apply (proj2 (accepted_tokens_distinct config_two
                  (layers_of config_two listing_two_hats) wf_two_hats rng_two
                  0 1 token_a token_b Ha Hb Hne)); reflexivity.
Defined.

Lemma shuffle_fisher_yates_witness :
  (∀ k, unit_draw (draws (rng_const (Fin (1 # 2))) k)) ∧
  (Z.of_nat (length ["a"; "b"; "c"]) < 2 ^ 53)%Z ∧
  (shuffle ["a"; "b"; "c"] (rng_const (Fin (1 # 2)))).1 ≡ₚ ["a"; "b"; "c"] ∧
  (shuffle ["a"; "b"; "c"] (rng_const (Fin (1 # 2)))).2
  = {| draws := draws (rng_const (Fin (1 # 2))); pos := 2 |}.
Proof.
  assert (Hlen : (Z.of_nat (length ["a"; "b"; "c"]) < 2 ^ 53)%Z)
    by (vm_compute; reflexivity).
  split; [exact unit_draw_half|]. split; [exact Hlen|].
  destruct (shuffle_fisher_yates ["a"; "b"; "c"] (rng_const (Fin (1 # 2)))
              unit_draw_half Hlen) as (H1 & _ & H2 & _).
  split; [exact H2|]. rewrite H1. reflexivity.
Defined.

Lemma preview_layout_witness :
  Preview.generate config_preview = true ∧ 0 ≤ Preview.cols config_preview ∧
  ∃ sheet,
    buildPreviewGrid 1024 1024 "./output" (Some config_preview) three_images
    = Some sheet ∧
    Sheet.composites sheet
    = map (tile_at 1024 1024 10 10 three_images) (seqZ 0 3) ∧
    Sheet.target sheet = "output/preview.png".
Proof.
  assert (Hc : 0 ≤ Preview.cols config_preview) by (cbn; lia).
  split; [reflexivity|]. split; [exact Hc|].
  destruct (preview_layout 1024 1024 "./output" config_preview three_images
              eq_refl Hc) as (sheet & H1 & H2 & _ & _ & _ & H3).
  exists sheet. split; [exact H1|]. split; [exact H2|]. exact H3.
Defined.

Lemma preview_tiles_fit_witness :
  0 ≤ Preview.cols config_preview ∧ 0 ≤ Preview.margin config_preview ∧
  0 ≤ 1024 ∧
  ∃ sheet,
    buildPreviewGrid 1024 1024 "./output" (Some config_preview) three_images
    = Some sheet ∧
    ∀ i t, Sheet.composites sheet !! i = Some t →
      Preview.margin config_preview ≤ Tile.left t ∧
      Tile.left t + 1024 + Preview.margin config_preview ≤ Sheet.gridW sheet ∧
      Preview.margin config_preview ≤ Tile.top t ∧
      Tile.top t + 1024 + Preview.margin config_preview ≤ Sheet.gridH sheet.
Proof.
  assert (Hc : 0 ≤ Preview.cols config_preview) by (cbn; lia).
  assert (Hm : 0 ≤ Preview.margin config_preview) by (cbn; lia).
  assert (Hw : 0 ≤ 1024) by lia.
  split; [exact Hc|]. split; [exact Hm|]. split; [exact Hw|].
  eexists. split; [reflexivity|].
  exact (proj1 (preview_tiles_fit 1024 1024 "./output" config_preview three_images _
                  Hc Hm Hw Hw eq_refl)).
Defined.
End FurtherWitnesses.
